(** * MstatX: conservation statistics of a multiple sequence alignment

    A shallow embedding of [msa.cpp], [wentropy.cpp], [jensen.cpp] and
    [trident.cpp], and the properties of the alignment model and of the three
    column statistics that are stated about them.

    Conventions of the embedding.
    - [std::string] is a list of characters; [int] and [size_t] values that
      count rows, columns and symbols are natural numbers (the one unsigned
      subtraction that can wrap, [alphabet.size()-1], is written out; the
      counters stay far below the range of [int] for the at most 500 rows
      that the constructor keeps).
    - [float] and [double] are modelled by their values: a finite value is an
      exact real number, and the three special values of IEEE arithmetic
      (the two infinities and NaN) are kept, with the rules by which the
      operations produce and propagate them.  Rounding, overflow and the sign
      of zero are abstracted.
    - [exit(0)] is an outcome of its own; a member function of [Msa] is a
      function from the object to the object.
    - A read outside a string (undefined behaviour in the source) yields the
      NUL character. *)

From Stdlib Require Import String.
From Stdlib Require Import List Arith Lia Bool Ascii ZArith.
From Stdlib Require Import Reals Lra.
Import ListNotations.

Set Implicit Arguments.

(** ** Values of type [float] and [double] *)

Module FP.

Inductive float : Type :=
| Fin (r : R)
| PInf
| NInf
| NaN.

Definition double : Type := float.

Definition of_int (n : nat) : float := Fin (INR n).

Definition is_zero (r : R) : bool := if Req_dec_T r 0 then true else false.
Definition is_pos (r : R) : bool := if Rlt_dec 0 r then true else false.

(** The infinity that has the sign of [r] ([r] is not zero). *)
Definition inf_of_sign (r : R) : float := if is_pos r then PInf else NInf.

Definition fopp (x : float) : float :=
  match x with
  | Fin a => Fin (- a)
  | PInf => NInf
  | NInf => PInf
  | NaN => NaN
  end.

Definition fadd (x y : float) : float :=
  match x, y with
  | NaN, _ | _, NaN => NaN
  | Fin a, Fin b => Fin (a + b)
  | PInf, NInf | NInf, PInf => NaN
  | PInf, _ | _, PInf => PInf
  | NInf, _ | _, NInf => NInf
  end.

Definition fsub (x y : float) : float := fadd x (fopp y).

Definition fmul (x y : float) : float :=
  match x, y with
  | NaN, _ | _, NaN => NaN
  | Fin a, Fin b => Fin (a * b)
  | Fin a, PInf | PInf, Fin a => if is_zero a then NaN else inf_of_sign a
  | Fin a, NInf | NInf, Fin a => if is_zero a then NaN else fopp (inf_of_sign a)
  | PInf, PInf | NInf, NInf => PInf
  | PInf, NInf | NInf, PInf => NInf
  end.

(** Every zero divisor of the program is a converted integer or [log 1],
    that is [+0.0]: a non-zero value divided by zero is the infinity of the
    sign of the dividend. *)
Definition fdiv (x y : float) : float :=
  match x, y with
  | NaN, _ | _, NaN => NaN
  | Fin a, Fin b =>
      if is_zero b then (if is_zero a then NaN else inf_of_sign a)
      else Fin (a / b)
  | Fin _, PInf | Fin _, NInf => Fin 0
  | PInf, Fin b => if Rlt_dec b 0 then NInf else PInf
  | NInf, Fin b => if Rlt_dec b 0 then PInf else NInf
  | PInf, PInf | PInf, NInf | NInf, PInf | NInf, NInf => NaN
  end.

(** [log]: the logarithm of zero is minus infinity, of a negative number
    NaN. *)
Definition flog (x : float) : float :=
  match x with
  | Fin a => if is_pos a then Fin (ln a) else if is_zero a then NInf else NaN
  | PInf => PInf
  | NInf | NaN => NaN
  end.

Definition fsqrt (x : float) : float :=
  match x with
  | Fin a => if Rlt_dec a 0 then NaN else Fin (sqrt a)
  | PInf => PInf
  | NInf | NaN => NaN
  end.

(** [x == y]: false as soon as one side is NaN. *)
Definition feqb (x y : float) : bool :=
  match x, y with
  | Fin a, Fin b => if Req_dec_T a b then true else false
  | PInf, PInf | NInf, NInf => true
  | _, _ => false
  end.

(** [x != y] is the negation of [x == y] (true on NaN). *)
Definition fneb (x y : float) : bool := negb (feqb x y).

(** [x < y]: false as soon as one side is NaN. *)
Definition fltb (x y : float) : bool :=
  match x, y with
  | Fin a, Fin b => if Rlt_dec a b then true else false
  | NInf, Fin _ | NInf, PInf | Fin _, PInf => true
  | _, _ => false
  end.

(** [x > y]. *)
Definition fgtb (x y : float) : bool := fltb y x.

(** Is the real number [y] an integer, and if so is it odd? *)
Definition is_integer (y : R) : bool :=
  if Req_dec_T (IZR (Int_part y)) y then true else false.
Definition is_odd_integer (y : R) : bool :=
  is_integer y && Z.odd (Int_part y).

(** [pow(x, y)] for a finite exponent [y], with the special cases of the C
    library: [pow(x, 0)] is 1 for every [x], NaN included; [pow(0, y)] is 0
    for positive [y] and infinite for negative [y]; a negative base with an
    exponent that is not an integer gives NaN. *)
Definition fpow (x : float) (y : R) : float :=
  if is_zero y then Fin 1
  else
    match x with
    | NaN => NaN
    | Fin a =>
        if is_pos a then Fin (Rpower a y)
        else if is_zero a then (if is_pos y then Fin 0 else PInf)
        else if is_integer y
             then Fin (if is_odd_integer y then - Rpower (- a) y
                       else Rpower (- a) y)
             else NaN
    | PInf => if is_pos y then PInf else Fin 0
    | NInf => if is_pos y then (if is_odd_integer y then NInf else PInf)
              else Fin 0
    end.

(** The real number a finite value stands for. *)
Definition to_R (x : float) : R :=
  match x with Fin a => a | _ => 0%R end.

Definition finite (x : float) : Prop := exists a, x = Fin a.

End FP.

Import FP.

(** ** Characters and strings *)

Definition str : Type := list ascii.

Definition NUL : ascii := zero.
Definition newline : ascii := "010"%char.
Definition gap_dash : ascii := "-"%char.
Definition gap_space : ascii := " "%char.

(** [s[i]] *)
Definition char_at (s : str) (i : nat) : ascii := nth i s NUL.

(** [s.find(c)]: the first position of [c], [None] for [npos]. *)
Fixpoint find (s : str) (c : ascii) : option nat :=
  match s with
  | [] => None
  | d :: s' =>
      if Ascii.eqb d c then Some 0
      else match find s' c with
           | Some i => Some (S i)
           | None => None
           end
  end.

(** [toupper] in the C locale. *)
Definition toupper (c : ascii) : ascii :=
  let n := nat_of_ascii c in
  if (97 <=? n) && (n <=? 122) then ascii_of_nat (n - 32) else c.

(** [for (i = 0; i < n; ++i) body], on a state [S]. *)
Definition for_loop {S : Type} (n : nat) (body : nat -> S -> S) (s : S) : S :=
  fold_left (fun acc i => body i acc) (seq 0 n) s.

(** [v[i] = f(v[i])] *)
Fixpoint update {A : Type} (l : list A) (i : nat) (f : A -> A) : list A :=
  match l, i with
  | [], _ => []
  | a :: l', 0 => f a :: l'
  | a :: l', S i' => a :: update l' i' f
  end.

(** The outcome of code that may call [exit]. *)
Inductive outcome (A : Type) : Type :=
| Done (a : A)
| Exit.
Arguments Exit {A}.

Definition obind {A B : Type} (x : outcome A) (k : A -> outcome B) : outcome B :=
  match x with
  | Done a => k a
  | Exit => Exit
  end.

(** ** The alignment model ([msa.cpp]) *)

Record Msa : Type := mkMsa {
  mali_name : list str;
  mali_seq : list str;
  nseq : nat;
  ncol : nat;
  alphabet : str;
  gap_counts : list nat;
  aa_freq : list float;
  nb_type : list nat;
  aa_type_list : list str;
  entropy : list float
}.

Definition getNseq (m : Msa) : nat := nseq m.
Definition getNcol (m : Msa) : nat := ncol m.
Definition getAlphabet (m : Msa) : str := alphabet m.

(** [mali_seq[row][col]] *)
Definition getSymbol (m : Msa) (row col : nat) : ascii :=
  char_at (nth row (mali_seq m) []) col.

Definition getNtype (m : Msa) (col : nat) : nat := nth col (nb_type m) 0.
Definition getTypeList (m : Msa) (col : nat) : str := nth col (aa_type_list m) [].
Definition getGap (m : Msa) (col : nat) : nat := nth col (gap_counts m) 0.

Definition is_gap (c : ascii) : bool :=
  Ascii.eqb c gap_dash || Ascii.eqb c gap_space.

(** *** Reading the file *)

Definition nb_seq_limits : nat := 500.

(** The strings that successive calls of [getline] return while the stream
    is good: the pieces of the text between its newline characters, the piece
    after the last newline included (it is empty when the text ends with a
    newline: that read finds the end of the file). *)
Fixpoint getlines (text : str) : list str :=
  match text with
  | [] => [[]]
  | c :: text' =>
      if Ascii.eqb c newline then [] :: getlines text'
      else match getlines text' with
           | l :: ls => (c :: l) :: ls
           | [] => [[c]]
           end
  end.

(** [s[0] == '>'] *)
Definition is_header (s : str) : bool := Ascii.eqb (char_at s 0) ">"%char.

(** [s.substr(1, s.find_first_of(' ') - 1)] of a line whose first character
    is ['>']. *)
Definition header_name (s : str) : str :=
  match find s gap_space with
  | Some pos => firstn (pos - 1) (skipn 1 s)
  | None => skipn 1 s
  end.

Record reader : Type := mkReader {
  rd_name : list str;
  rd_seq : list str;
  tmp_seq : str
}.

(** The body of the reading loop, on the line [s] just read. *)
Definition read_line (s : str) (st : reader) : reader :=
  if is_header s then
    let seqs :=
      if negb (length (rd_name st) =? 0) then rd_seq st ++ [tmp_seq st]
      else rd_seq st in
    let names :=
      if length seqs <? nb_seq_limits then rd_name st ++ [header_name s]
      else rd_name st in
    mkReader names seqs []
  else mkReader (rd_name st) (rd_seq st) (tmp_seq st ++ s).

(** [while (file.good() && mali_seq.size() < nb_seq_limits)] *)
Fixpoint read_loop (ls : list str) (st : reader) : reader :=
  match ls with
  | [] => st
  | s :: ls' =>
      if length (rd_seq st) <? nb_seq_limits then read_loop ls' (read_line s st)
      else st
  end.

(** The reading part of the constructor: the loop and the push of the last
    sequence after it. *)
Definition read_file (text : str) : reader :=
  let st := read_loop (getlines text) (mkReader [] [] []) in
  if length (rd_seq st) <? nb_seq_limits
  then mkReader (rd_name st) (rd_seq st ++ [tmp_seq st]) (tmp_seq st)
  else st.

(** *** Upper case *)

Definition upper_row (ncol : nat) (row : str) : str :=
  map toupper (firstn ncol row) ++ skipn ncol row.

Definition upper_rows (nseq ncol : nat) (rows : list str) : list str :=
  map (upper_row ncol) (firstn nseq rows) ++ skipn nseq rows.

(** *** The analyses *)

Definition defineAlphabet (m : Msa) : Msa :=
  let alph :=
    for_loop (ncol m) (fun col =>
      for_loop (nseq m) (fun row alph =>
        match find alph (getSymbol m row col) with
        | None => alph ++ [getSymbol m row col]
        | Some _ => alph
        end)) [] in
  mkMsa (mali_name m) (mali_seq m) (nseq m) (ncol m) alph (gap_counts m)
        (aa_freq m) (nb_type m) (aa_type_list m) (entropy m).

Definition countGap (m : Msa) : Msa :=
  let gaps :=
    for_loop (ncol m) (fun col gap_counts =>
      let gap :=
        for_loop (nseq m) (fun row gap =>
          if is_gap (getSymbol m row col) then S gap else gap) 0 in
      gap_counts ++ [gap]) (gap_counts m) in
  mkMsa (mali_name m) (mali_seq m) (nseq m) (ncol m) (alphabet m) gaps
        (aa_freq m) (nb_type m) (aa_type_list m) (entropy m).

(** The counting loop of [countFreq]: the state is [total] and [tmp_freq];
    a symbol that is not in the alphabet ends the program. *)
Definition count_cell (m : Msa) (col row : nat)
    (st : outcome (nat * list nat)) : outcome (nat * list nat) :=
  obind st (fun '(total, tmp_freq) =>
    let total := if negb (is_gap (getSymbol m row col)) then S total else total in
    match find (alphabet m) (getSymbol m row col) with
    | None => Exit
    | Some pos => Done (total, update tmp_freq pos S)
    end).

Definition count_symbols (m : Msa) : outcome (nat * list nat) :=
  for_loop (ncol m) (fun col => for_loop (nseq m) (count_cell m col))
    (Done (0, repeat 0 (length (alphabet m)))).

Definition countFreq (m : Msa) : outcome Msa :=
  obind (count_symbols m) (fun '(total, tmp_freq) =>
    let freq := map (fun n => fdiv (of_int n) (of_int total)) tmp_freq in
    Done (mkMsa (mali_name m) (mali_seq m) (nseq m) (ncol m) (alphabet m)
            (gap_counts m) freq (nb_type m) (aa_type_list m) (entropy m))).

Definition countType (m : Msa) : Msa :=
  let lists :=
    for_loop (ncol m) (fun col '(aa_type_list, nb_type) =>
      let aa_types :=
        for_loop (nseq m) (fun row aa_types =>
          match find aa_types (getSymbol m row col) with
          | None => aa_types ++ [getSymbol m row col]
          | Some _ => aa_types
          end) [] in
      (aa_type_list ++ [aa_types], nb_type ++ [length aa_types]))
      (aa_type_list m, nb_type m) in
  mkMsa (mali_name m) (mali_seq m) (nseq m) (ncol m) (alphabet m)
        (gap_counts m) (aa_freq m) (snd lists) (fst lists) (entropy m).

Definition getAaPos (m : Msa) (aa : ascii) : option nat := find (alphabet m) aa.

Definition getFreq (m : Msa) (aa : ascii) : outcome float :=
  match getAaPos m aa with
  | None => Exit
  | Some pos => Done (nth pos (aa_freq m) (Fin 0))
  end.

(** [alphabet.size()-1] in [size_t]: it wraps when the alphabet is empty. *)
Definition size_minus_one (n : nat) : R :=
  if n =? 0 then IZR (2 ^ 64 - 1) else INR (n - 1).

(** The entropy of one column.  [lfreq[getAaPos(c)] += 1.0] is modelled for a
    symbol that is in the alphabet, which is the case in the constructor. *)
Definition column_lfreq (m : Msa) (col : nat) : list float :=
  for_loop (nseq m) (fun row lfreq =>
    match getAaPos m (getSymbol m row col) with
    | Some pos => update lfreq pos (fun f => fadd f (Fin 1))
    | None => lfreq
    end) (repeat (Fin 0) (length (alphabet m))).

(** The loop over [lfreq]: the state is [entropy[col]].  The statement
    [entropy[col] == 0.0;] compares and has no effect. *)
Definition entropy_step (nseq : nat) (f : float) (e : float) : float :=
  let f := fdiv f (of_int nseq) in
  if fgtb f (Fin 0) then
    if feqb f (Fin 1) then e
    else fsub e (fmul f (flog f))
  else e.

(** The body of the loop over the columns, on [entropy[col]]. *)
Definition column_entropy (m : Msa) (col : nat) (e : float) : float :=
  let lfreq := column_lfreq m col in
  let e := fold_left (fun e f => entropy_step (nseq m) f e) lfreq e in
  fdiv e (flog (Fin (size_minus_one (length (alphabet m))))).

Definition countEntropy (m : Msa) : Msa :=
  let ent :=
    for_loop (ncol m) (fun col entropy =>
      update entropy col (column_entropy m col))
      (repeat (Fin 0) (ncol m)) in
  mkMsa (mali_name m) (mali_seq m) (nseq m) (ncol m) (alphabet m)
        (gap_counts m) (aa_freq m) (nb_type m) (aa_type_list m) ent.

(** [alphabet] restricted to what [isInclude] tests. *)
Definition isInclude (m : Msa) (alph1 : str) : bool :=
  forallb (fun c =>
    negb (match find alph1 c with None => true | Some _ => false end
          && negb (Ascii.eqb c gap_dash) && negb (Ascii.eqb c gap_space)))
    (alphabet m).

Definition getCol (m : Msa) (col : nat) : str :=
  for_loop (nseq m) (fun i column => column ++ [getSymbol m i col]) [].

(** The object on which the constructor runs its analyses: the vectors read
    from the file, upper-cased, and the two sizes. *)
Definition Msa_init (text : str) : Msa :=
  let st := read_file text in
  let nseq := length (rd_name st) in
  let ncol := length (nth 0 (rd_seq st) []) in
  mkMsa (rd_name st) (upper_rows nseq ncol (rd_seq st)) nseq ncol
        [] [] [] [] [] [].

(** The constructor, on the contents of the file ([None]: the file cannot be
    opened).  Printing is left out. *)
Definition Msa_new (file : option str) : outcome Msa :=
  match file with
  | None => Exit
  | Some text =>
      obind (countFreq (countGap (defineAlphabet (Msa_init text)))) (fun m =>
        Done (countEntropy (countType m)))
  end.

(** Texts are written as the list of their lines. *)
Definition text_of_lines (ls : list String.string) : str :=
  concat (map (fun l => String.list_ascii_of_string l ++ [newline]) ls).

(** ** The environment of a run *)

(** [Options::Get()].  The three exponents are finite numbers. *)
Record Options : Type := mkOptions {
  verbose : bool;
  output_name : str;
  score_matrix_path : str;
  factor_a : R;
  factor_b : R;
  factor_c : R
}.

(** [ScoringMatrix] ([scoring_matrix.h] is not part of the sources at hand:
    the class is taken by its interface). *)
Record ScoringMatrix : Type := mkScoringMatrix {
  sm_alphabet_size : nat;
  sm_alphabet : str;
  normScore : ascii -> ascii -> float;
  sm_max : float;
  sm_min : float
}.

(** What a statistic sees of the file system: whether the output destination
    can be opened for writing, the numbers it holds ([None] as long as no
    stream was opened on it), and the matrix file ([None]: it cannot be
    opened). *)
Record World : Type := mkWorld {
  writable : bool;
  out_file : option (list float);
  matrix_file : option ScoringMatrix
}.

(** The control flow of a function body: running, returned, or the program
    has exited. *)
Inductive flow (S : Type) : Type :=
| Running (s : S)
| Returned (s : S)
| Exited.
Arguments Exited {S}.

Definition andthen {S : Type} (x : flow S) (k : S -> flow S) : flow S :=
  match x with
  | Running s => k s
  | Returned s => Returned s
  | Exited => Exited
  end.

Notation "c1 ;; c2" := (andthen c1 c2) (at level 61, left associativity).

(** The state in which the call leaves its caller. *)
Definition result {S : Type} (x : flow S) : outcome S :=
  match x with
  | Running s | Returned s => Done s
  | Exited => Exit
  end.

(** [ofstream file(output_name)], followed by the write of [lines] and the
    close: the stream truncates the destination, or the program exits.  [T]
    is the object whose member function writes. *)
Definition write_file {T : Type} (lines : list float) (st : T * World)
  : flow (T * World) :=
  let '(this, w) := st in
  if writable w
  then Running (this, mkWorld (writable w) (Some lines) (matrix_file w))
  else Exited.

(** [MIN(x,y)] *)
Definition MIN (x y : nat) : nat := if x <? y then x else y.

(** [v[x][a] = f(v[x][a])] and [v[x][a]] *)
Definition update2 {A : Type} (v : list (list A)) (x a : nat) (f : A -> A)
  : list (list A) := update v x (fun row => update row a f).
Definition get2 (v : list (list float)) (x a : nat) : float :=
  nth a (nth x v []) (Fin 0).

(** The loop over the rows [j] that adds the weights of the rows whose
    symbol in column [x] is [alphabet[a]]. *)
Definition add_weights (msa : Msa) (alphabet : str) (seq_weight : list float)
    (x a : nat) (p : float) : float :=
  for_loop (getNseq msa) (fun j p =>
    if Ascii.eqb (getSymbol msa j x) (char_at alphabet a)
    then fadd p (nth j seq_weight (Fin 0)) else p) p.

(** ** The weighted entropy ([wentropy.cpp]) *)

Module WEntStat.

Record t : Type := mk {
  ncol : nat;
  nseq : nat;
  proba : list (list float);
  seq_weight : list float;
  col_cons : list float
}.

(** A new object: its vectors are empty. *)
Definition fresh : t := mk 0 0 [] [] [].

Definition calcSeqWeight (msa : Msa) (i : nat) : float :=
  let L := getNcol msa in
  let nseq := getNseq msa in
  let w :=
    for_loop L (fun x w =>
      let k := getNtype msa x in
      let n :=
        for_loop nseq (fun seq n =>
          if Ascii.eqb (getSymbol msa i x) (getSymbol msa seq x)
          then S n else n) 0 in
      fadd w (fdiv (Fin 1) (of_int (n * k)))) (Fin 0) in
  fdiv w (of_int L).

(** The computation of [calculateStatistic], up to the messages. *)
Definition compute (msa : Msa) (this : t) : t :=
  let ncol := getNcol msa in
  let nseq := getNseq msa in
  let alphabet := getAlphabet msa in
  let proba := repeat (repeat (Fin 0) (length alphabet)) ncol in
  let seq_weight :=
    for_loop nseq (fun seq sw => sw ++ [calcSeqWeight msa seq])
      (seq_weight this) in
  let lambda := fdiv (Fin 1) (flog (of_int (MIN (length alphabet) nseq))) in
  let '(proba, col_cons) :=
    for_loop ncol (fun x '(proba, col_cons) =>
      let col_cons := col_cons ++ [Fin 0] in
      let '(proba, col_cons) :=
        for_loop (length alphabet) (fun a '(proba, col_cons) =>
          let proba :=
            update2 proba x a (add_weights msa alphabet seq_weight x a) in
          let col_cons :=
            if fneb (get2 proba x a) (Fin 0)
            then update col_cons x (fun c =>
                   fsub c (fmul (get2 proba x a) (flog (get2 proba x a))))
            else col_cons in
          (proba, col_cons)) (proba, col_cons) in
      (proba, update col_cons x (fun c => fmul c lambda)))
      (proba, col_cons this) in
  mk ncol nseq proba seq_weight col_cons.

(** The lines written to the output file. *)
Definition output_lines (msa : Msa) (this : t) : list float :=
  for_loop (ncol this) (fun col lines =>
    lines ++ [fmul (fsub (Fin 1) (nth col (col_cons this) (Fin 0)))
                   (fsub (Fin 1) (fdiv (of_int (getGap msa col))
                                       (of_int (nseq this))))]) [].

Definition calculateStatistic (msa : Msa) (st : t * World) : flow (t * World) :=
  Running st
  ;; (fun '(this, w) => Running (compute msa this, w))
  ;; (fun '(this, w) => write_file (output_lines msa this) (this, w)).

End WEntStat.

(** ** The Jensen-Shannon statistic ([jensen.cpp]) *)

Module JensenStat.

Record t : Type := mk {
  ncol : nat;
  nseq : nat;
  proba : list (list double);
  seq_weight : list double;
  col_cons : list double
}.

Definition fresh : t := mk 0 0 [] [] [].

Definition calcSeqWeight (msa : Msa) (i : nat) : double :=
  let L := getNcol msa in
  let nseq := getNseq msa in
  let w :=
    for_loop L (fun x w =>
      let k := getNtype msa x in
      let n :=
        for_loop nseq (fun seq n =>
          if Ascii.eqb (getSymbol msa i x) (getSymbol msa seq x)
          then S n else n) 0 in
      fadd w (fdiv (Fin 1) (of_int (n * k)))) (Fin 0) in
  fdiv w (of_int L).

(** [pow(10.0,-6.0)] *)
Definition pseudo : double := fpow (Fin 10) (- 6).

(** The body of the loop over the columns, on [proba]. *)
Definition adjust_column (msa : Msa) (alphabet : str) (seq_weight : list double)
    (x : nat) (proba : list (list double)) : list (list double) :=
  let '(proba, nb_abs) :=
    for_loop (length alphabet) (fun a '(proba, nb_abs) =>
      let proba :=
        update2 proba x a (add_weights msa alphabet seq_weight x a) in
      if feqb (get2 proba x a) (Fin 0)
      then (update2 proba x a (fun _ => pseudo), S nb_abs)
      else (proba, nb_abs)) (proba, 0) in
  let pseudo_counts :=
    fdiv (fmul (of_int nb_abs) pseudo) (of_int (length alphabet - nb_abs)) in
  for_loop (length alphabet) (fun a proba =>
    if fgtb (get2 proba x a) pseudo
    then update2 proba x a (fun p => fsub p pseudo_counts)
    else proba) proba.

Definition compute (msa : Msa) (this : t) : t :=
  let ncol := getNcol msa in
  let nseq := getNseq msa in
  let alphabet := getAlphabet msa in
  let proba := repeat (repeat (Fin 0) (length alphabet)) ncol in
  let seq_weight :=
    for_loop nseq (fun seq sw => sw ++ [calcSeqWeight msa seq])
      (seq_weight this) in
  let proba := for_loop ncol (adjust_column msa alphabet seq_weight) proba in
  mk ncol nseq proba seq_weight (col_cons this).

(** The two nested loops with an empty body. *)
Definition empty_loops (msa : Msa) (this : t) : t :=
  for_loop (ncol this) (fun x =>
    for_loop (length (getAlphabet msa)) (fun a this => this)) this.

Definition output_lines (msa : Msa) (this : t) : list double :=
  for_loop (ncol this) (fun col lines =>
    lines ++ [fmul (fsub (Fin 1) (nth col (col_cons this) (Fin 0)))
                   (fsub (Fin 1) (fdiv (of_int (getGap msa col))
                                       (of_int (nseq this))))]) [].

(** The whole body, the statements after [return;] included. *)
Definition calculateStatistic (msa : Msa) (st : t * World) : flow (t * World) :=
  Running st
  ;; (fun '(this, w) => Running (compute msa this, w))
  ;; (fun '(this, w) => Running (empty_loops msa this, w))
  ;; (fun st => Returned st)
  ;; (fun '(this, w) => write_file (output_lines msa this) (this, w)).

End JensenStat.

(** ** The trident statistic ([trident.cpp]) *)

Module TridStat.

Record t : Type := mk {
  ncol : nat;
  nseq : nat;
  seq_weight : list float;
  t_ : list float;
  r : list float;
  g : list float
}.

Definition fresh : t := mk 0 0 [] [] [] [].

Definition calcSeqWeight (msa : Msa) (i : nat) : float :=
  let L := getNcol msa in
  let nseq := getNseq msa in
  let w :=
    for_loop L (fun x w =>
      let k := getNtype msa x in
      let n :=
        for_loop nseq (fun seq n =>
          if Ascii.eqb (getSymbol msa i x) (getSymbol msa seq x)
          then S n else n) 0 in
      fadd w (fdiv (Fin 1) (of_int (n * k)))) (Fin 0) in
  fdiv w (of_int L).

Definition normVect (vect : list float) : float :=
  fsqrt (for_loop (length vect) (fun i score =>
           fadd score (fmul (nth i vect (Fin 0)) (nth i vect (Fin 0))))
           (Fin 0)).

(** [s.erase(s.begin()+pos)] *)
Definition erase_at (s : str) (pos : nat) : str :=
  firstn pos s ++ skipn (S pos) s.

(** The first part: the weights and the entropy term [t]. *)
Definition compute_t (msa : Msa) (this : t) : t :=
  let ncol := getNcol msa in
  let nseq := getNseq msa in
  let alphabet := getAlphabet msa in
  let seq_weight :=
    for_loop nseq (fun seq sw => sw ++ [calcSeqWeight msa seq])
      (seq_weight this) in
  let lambda := fdiv (Fin 1) (flog (of_int (MIN (length alphabet) nseq))) in
  let tt :=
    for_loop ncol (fun x tt =>
      let tt := tt ++ [Fin 0] in
      let tt :=
        for_loop (length alphabet) (fun a tt =>
          let tmp_proba := add_weights msa alphabet seq_weight x a (Fin 0) in
          if fneb tmp_proba (Fin 0)
          then update tt x (fun v => fsub v (fmul tmp_proba (flog tmp_proba)))
          else tt) tt in
      update tt x (fun v => fmul v lambda)) (t_ this) in
  mk ncol nseq seq_weight tt (r this) (g this).

(** The type list of column [x] without its first ['-'], and [ntype]
    (an [int]: it is decremented when the ['-'] is found). *)
Definition column_types (msa : Msa) (x : nat) : Z * str :=
  let ntype := Z.of_nat (getNtype msa x) in
  let type_list := getTypeList msa x in
  match find type_list gap_dash with
  | Some pos => ((ntype - 1)%Z, erase_at type_list pos)
  | None => (ntype, type_list)
  end.

(** The value pushed on [r] for column [x]. *)
Definition column_r (score_mat : ScoringMatrix) (msa : Msa) (x : nat) : float :=
  let alph_size := sm_alphabet_size score_mat in
  let sm_alph := sm_alphabet score_mat in
  let '(ntype, type_list) := column_types msa x in
  if negb (ntype =? 0)%Z then
    let mean :=
      for_loop (Z.to_nat ntype) (fun i =>
        for_loop alph_size (fun a mean =>
          update mean a (fun v =>
            fadd v (normScore score_mat (char_at sm_alph a)
                                        (char_at type_list i)))))
        (repeat (Fin 0) alph_size) in
    let mean :=
      for_loop alph_size (fun a mean =>
        update mean a (fun v => fdiv v (Fin (IZR ntype)))) mean in
    let lambda :=
      fsqrt (fmul (fmul (of_int alph_size)
                        (fsub (sm_max score_mat) (sm_min score_mat)))
                  (fsub (sm_max score_mat) (sm_min score_mat))) in
    let tmp_score :=
      for_loop (Z.to_nat ntype) (fun i tmp_score =>
        let diff_vect :=
          for_loop alph_size (fun a diff_vect =>
            diff_vect ++
            [fsub (nth a mean (Fin 0))
                  (normScore score_mat (char_at sm_alph a)
                                       (char_at type_list i))]) [] in
        fadd tmp_score (normVect diff_vect)) (Fin 0) in
    let tmp_score := fdiv tmp_score (Fin (IZR ntype)) in
    fdiv tmp_score lambda
  else Fin 1.

(** The second part, on the re-based alignment: [r] and [g]. *)
Definition compute_rg (score_mat : ScoringMatrix) (msa : Msa) (this : t) : t :=
  let rr :=
    for_loop (ncol this) (fun x rr => rr ++ [column_r score_mat msa x])
      (r this) in
  let gg :=
    for_loop (ncol this) (fun x gg =>
      gg ++ [fdiv (of_int (getGap msa x)) (of_int (nseq this))]) (g this) in
  mk (ncol this) (nseq this) (seq_weight this) (t_ this) rr gg.

Definition output_lines (opts : Options) (this : t) : list float :=
  for_loop (ncol this) (fun col lines =>
    lines ++
    [fmul (fmul (fpow (fsub (Fin 1) (nth col (t_ this) (Fin 0))) (factor_a opts))
                (fpow (fsub (Fin 1) (nth col (r this) (Fin 0))) (factor_b opts)))
          (fpow (fsub (Fin 1) (nth col (g this) (Fin 0))) (factor_c opts))]) [].

Section Rebase.

(** [Msa::fitToAlphabet] is declared in [msa.h] and its definition is not part
    of the sources at hand: the statistic is taken for any such function. *)
Variable fitToAlphabet : str -> Msa -> Msa.

(** The alignment is passed by reference: it is part of the state. *)
Definition calculateStatistic (opts : Options) (st : t * Msa * World)
  : flow (t * Msa * World) :=
  Running st
  ;; (fun '(this, msa, w) => Running (compute_t msa this, msa, w))
  ;; (fun '(this, msa, w) =>
        match matrix_file w with
        | None => Exited
        | Some score_mat =>
            let msa := fitToAlphabet (sm_alphabet score_mat) msa in
            Running (compute_rg score_mat msa this, msa, w)
        end)
  ;; (fun '(this, msa, w) =>
        write_file (output_lines opts this) (this, msa, w)).

End Rebase.

End TridStat.

(** ** The vocabulary of the statements *)

(** The symbols of column [col], first row first. *)
Definition column (m : Msa) (col : nat) : str :=
  map (fun row => getSymbol m row col) (seq 0 (nseq m)).

(** The cells of the alignment, column after column. *)
Definition cells (m : Msa) : str :=
  flat_map (column m) (seq 0 (ncol m)).

(** The number of occurrences of a symbol, and the number of distinct
    symbols, of a string. *)
Definition occurrences (c : ascii) (s : str) : nat := count_occ ascii_dec s c.
Definition distinct_symbols (s : str) : nat := length (nodup ascii_dec s).

(** The sum of the real numbers [f x] for [x] in [l]. *)
Definition Rsum {A : Type} (f : A -> R) (l : list A) : R :=
  fold_right (fun x acc => (f x + acc)%R) 0%R l.


(** [if (s.find(c) >= s.size()) s.push_back(c)], and the string of the
    first occurrences of the symbols of [l] that this builds. *)
Definition push_new (s : str) (c : ascii) : str :=
  match find s c with
  | None => s ++ [c]
  | Some _ => s
  end.
Definition first_occurrences (l : str) : str := fold_left push_new l [].

(** [tmp_freq[alphabet.find(c)]++] for a symbol of the alphabet. *)
Definition bump (alph : str) (tmp_freq : list nat) (c : ascii) : list nat :=
  match find alph c with
  | Some pos => update tmp_freq pos S
  | None => tmp_freq
  end.

Definition non_gap (c : ascii) : bool := negb (is_gap c).

(** The sum of [getFreq(s)] over the symbols [s] of the alphabet. *)
Definition freq_sum (m : Msa) : outcome float :=
  fold_left (fun acc s =>
    obind acc (fun x => obind (getFreq m s) (fun f => Done (fadd x f))))
    (alphabet m) (Done (Fin 0)).

(** The step of the counting loop of [countFreq] on a cell that holds [c]. *)
Definition cell_step (alph : str) (c : ascii)
    (st : outcome (nat * list nat)) : outcome (nat * list nat) :=
  obind st (fun '(total, tmp_freq) =>
    let total := if negb (is_gap c) then S total else total in
    match find alph c with
    | None => Exit
    | Some pos => Done (total, update tmp_freq pos S)
    end).

Definition gaps_in (s : str) : nat := length (filter is_gap s).

(** What the analyses of the constructor leave in the object, in terms of
    the cells of the alignment. *)
Record constructed (m : Msa) : Prop := mkConstructed {
  built_alphabet : alphabet m = first_occurrences (cells m);
  built_gaps :
    gap_counts m = map (fun col => gaps_in (column m col)) (seq 0 (ncol m));
  built_freq :
    aa_freq m
    = map (fun n => fdiv (of_int n)
                         (of_int (length (filter non_gap (cells m)))))
          (fold_left (bump (alphabet m)) (cells m)
             (repeat 0 (length (alphabet m))));
  built_nb_type :
    nb_type m
    = map (fun col => distinct_symbols (column m col)) (seq 0 (ncol m));
  built_type_list :
    aa_type_list m
    = map (fun col => first_occurrences (column m col)) (seq 0 (ncol m));
  built_entropy :
    entropy m
    = map (fun col => column_entropy m col (Fin 0)) (seq 0 (ncol m));
  built_nseq : nseq m <= 500
}.

(** The weight of Henikoff and Henikoff for row [i]:
    [(1/L) * sum over the columns x of 1 / (k_x * n_x_i)], with [L] the
    number of columns, [k_x] the number of distinct symbols of column [x] and
    [n_x_i] the number of rows that hold, in column [x], the symbol that row
    [i] holds there. *)
Definition henikoff_weight (m : Msa) (i : nat) : R :=
  (1 / INR (ncol m)
   * Rsum (fun x =>
       1 / (INR (distinct_symbols (column m x))
            * INR (occurrences (getSymbol m i x) (column m x))))
       (seq 0 (ncol m)))%R.

(** The weighted probability of the symbol [a] in column [x]: the sum of
    the weights of the rows that hold [a] there. *)
Definition weighted_probability (m : Msa) (x : nat) (a : ascii) : R :=
  Rsum (henikoff_weight m)
       (filter (fun j => Ascii.eqb (getSymbol m j x) a) (seq 0 (nseq m))).

(** [lambda = 1 / log(min(|alphabet|, nseq))] *)
Definition entropy_lambda (m : Msa) : R :=
  (1 / ln (INR (Nat.min (length (alphabet m)) (nseq m))))%R.

(** [H(x) = - lambda * sum of p_a * log(p_a)] over the symbols [a] of the
    alphabet whose weighted probability [p_a] is not zero. *)
Definition weighted_entropy (m : Msa) (x : nat) : R :=
  (- entropy_lambda m
   * Rsum (fun a => weighted_probability m x a * ln (weighted_probability m x a))
       (filter (fun a => negb (is_zero (weighted_probability m x a)))
               (alphabet m)))%R.


(** A row of which the first [a] cells hold [f] and the others, up to [K],
    hold [g]. *)
Definition prefix_row {A : Type} (f g : nat -> A) (K a : nat) : list A :=
  map f (seq 0 a) ++ map g (seq a (K - a)).

(** The value of [col_cons[x]] (of [t[x]] in the trident statistic) after
    the turns [0 .. a-1] of the loop over the alphabet, for the weighted
    probabilities [p]. *)
Definition entropy_acc (p : nat -> R) (a : nat) : float :=
  for_loop a (fun a c =>
    if fneb (Fin (p a)) (Fin 0)
    then fsub c (fmul (Fin (p a)) (flog (Fin (p a))))
    else c) (Fin 0).

(** The entries of a row of [proba] in the Jensen-Shannon statistic, for the
    weighted probabilities [p] of the [K] symbols of the alphabet: after the
    first loop the pseudo-count stands where the probability is zero; [nb_abs]
    counts these symbols; the second loop subtracts [pseudo_counts] from the
    entries that are greater than the pseudo-count. *)
Definition pseudo_entry (p : R) : float :=
  if feqb (Fin p) (Fin 0) then JensenStat.pseudo else Fin p.

Definition absent_count (p : nat -> R) (K : nat) : nat :=
  length (filter (fun a => feqb (Fin (p a)) (Fin 0)) (seq 0 K)).

Definition pseudo_reduction (p : nat -> R) (K : nat) : float :=
  fdiv (fmul (of_int (absent_count p K)) JensenStat.pseudo)
       (of_int (K - absent_count p K)).

Definition adjusted_entry (p : nat -> R) (K a : nat) : float :=
  if fgtb (pseudo_entry (p a)) JensenStat.pseudo
  then fsub (pseudo_entry (p a)) (pseudo_reduction p K)
  else pseudo_entry (p a).

(** The frequency of the symbol [a] in column [col], and the term
    [f * log(f)] of a frequency [f], which is counted when [f > 0]. *)
Definition column_frequency (m : Msa) (col : nat) (a : ascii) : R :=
  (INR (occurrences a (column m col)) / INR (nseq m))%R.

Definition xlogx (f : R) : R := if is_pos f then (f * ln f)%R else 0%R.

(** The Shannon entropy of column [col], not normalised: minus the sum of
    [f * log(f)] over the symbols of the alphabet. *)
Definition shannon_entropy (m : Msa) (col : nat) : R :=
  (- Rsum (fun a => xlogx (column_frequency m col a)) (alphabet m))%R.

(** A column with exactly one distinct non-gap symbol and no gap symbol. *)
Definition single_symbol_column (m : Msa) (col : nat) : Prop :=
  gaps_in (column m col) = 0
  /\ distinct_symbols (filter non_gap (column m col)) = 1.


(** *** Multi-fasta texts *)

(** A record of a multi-fasta text: the name, what follows the name on the
    header line, and the lines of the sequence. *)
Record fasta_record : Type := mkRecord {
  fr_name : str;
  fr_comment : option str;
  fr_lines : list str
}.

Definition header_line (r : fasta_record) : str :=
  ">"%char :: fr_name r
  ++ match fr_comment r with
     | Some d => gap_space :: d
     | None => []
     end.

Definition record_lines (r : fasta_record) : list str :=
  header_line r :: fr_lines r.

Definition fr_sequence (r : fasta_record) : str := concat (fr_lines r).

(** The text whose lines are [ls], each one ended by a newline. *)
Definition unlines (ls : list str) : str :=
  concat (map (fun l => l ++ [newline]) ls).

(** A multi-fasta text: the records, after lines that belong to no record. *)
Definition fasta_text (preamble : list str) (rs : list fasta_record) : str :=
  unlines (preamble ++ flat_map record_lines rs).

Definition has_char (c : ascii) (s : str) : bool := existsb (Ascii.eqb c) s.

(** A line of a sequence: no newline in it, and it is not a header. *)
Definition plain_line (l : str) : bool :=
  negb (has_char newline l) && negb (is_header l).

Definition well_formed (r : fasta_record) : bool :=
  negb (has_char newline (fr_name r))
  && negb (has_char gap_space (fr_name r))
  && match fr_comment r with
     | Some d => negb (has_char newline d)
     | None => true
     end
  && forallb plain_line (fr_lines r).

(** The push of the last sequence that follows the reading loop. *)
Definition finish (st : reader) : reader :=
  if length (rd_seq st) <? nb_seq_limits
  then mkReader (rd_name st) (rd_seq st ++ [tmp_seq st]) (tmp_seq st)
  else st.

(** [islower] in the C locale. *)
Definition islower (c : ascii) : bool :=
  (97 <=? nat_of_ascii c) && (nat_of_ascii c <=? 122).

(** *** The residue term of the trident statistic *)

(** The score of the matrix between its [a]-th symbol and the [i]-th symbol
    type of a column, the mean of these scores over the [k] types of the
    column, the distance of type [i] to the mean, and
    [r(x) = (1/k) * sum of the distances / sqrt(n * (max - min)^2)], with [n]
    the size of the alphabet of the matrix. *)
Definition type_score (sm : ScoringMatrix) (type_list : str) (a i : nat) : R :=
  to_R (normScore sm (char_at (sm_alphabet sm) a) (char_at type_list i)).

Definition mean_score (sm : ScoringMatrix) (type_list : str) (k a : nat) : R :=
  (Rsum (type_score sm type_list a) (seq 0 k) / INR k)%R.

Definition type_distance (sm : ScoringMatrix) (type_list : str) (k i : nat)
  : R :=
  sqrt (Rsum (fun a =>
          (mean_score sm type_list k a - type_score sm type_list a i)
          * (mean_score sm type_list k a - type_score sm type_list a i))%R
          (seq 0 (sm_alphabet_size sm))).

Definition matrix_spread (sm : ScoringMatrix) : R :=
  sqrt (INR (sm_alphabet_size sm)
        * (to_R (sm_max sm) - to_R (sm_min sm))
        * (to_R (sm_max sm) - to_R (sm_min sm)))%R.

Definition residue_dissimilarity (sm : ScoringMatrix) (type_list : str)
    (k : nat) : R :=
  (Rsum (type_distance sm type_list k) (seq 0 k) / INR k / matrix_spread sm)%R.

(** *** A run of the weighted entropy on an object that holds values *)


(** ** Sample inputs *)

Definition two_records : str :=
  text_of_lines [">s1 first"%string; "ACGT"%string; ">s2"%string;
                 "AC"%string; "GT"%string].

Definition no_header : str := text_of_lines ["ACGT"%string].

Definition three_rows : str :=
  text_of_lines [">s1"%string; "AAAA"%string; ">s2"%string; "AAAT"%string;
                 ">s3"%string; "AAGA"%string].

Definition two_symbols : str :=
  text_of_lines [">s1"%string; "AA"%string; ">s2"%string; "AB"%string].


Definition gap_column : str :=
  text_of_lines [">s1"%string; "A-"%string; ">s2"%string; "G-"%string].

Definition single_gap : str := text_of_lines [">s"%string; "-"%string].

Definition with_gap : str :=
  text_of_lines [">a"%string; "A-"%string; ">b"%string; "AG"%string].


(** Options with the three exponents equal to one, a scoring matrix over the
    alphabet [AG], and a world that holds it. *)
Definition unit_factors : Options := mkOptions false [] [] 1 1 1.

Definition toy_matrix : ScoringMatrix :=
  mkScoringMatrix 2 ["A"%char; "G"%char]
    (fun a b => if Ascii.eqb a b then Fin 1 else Fin 0) (Fin 1) (Fin 0).

Definition matrix_world : World := mkWorld true None (Some toy_matrix).

(** A re-basing that leaves the alignment as it is. *)
Definition keep_alignment (alph : str) (msa : Msa) : Msa := msa.

(** The model that the constructor returns for a text. *)
Definition model_of (text : str) : Msa :=
  match Msa_new (Some text) with
  | Done m => m
  | Exit => Msa_init text
  end.

(** Two records after a line that belongs to no record; the second sequence
    is written on two lines, the first one has letters in lower case. *)
Definition sample_preamble : list str :=
  [String.list_ascii_of_string "written by hand"%string].

Definition sample_records : list fasta_record :=
  [mkRecord (String.list_ascii_of_string "s1"%string)
            (Some (String.list_ascii_of_string "first sequence"%string))
            [String.list_ascii_of_string "acG-"%string];
   mkRecord (String.list_ascii_of_string "s2"%string) None
            [String.list_ascii_of_string "AC"%string;
             String.list_ascii_of_string "GT"%string]].

Definition sample_text : str := fasta_text sample_preamble sample_records.

(** * Properties *)

(** ** Lists, loops and strings *)

Lemma for_loop_S (S : Type) (n : nat) (body : nat -> S -> S) (s : S) :
  for_loop (Datatypes.S n) body s = body n (for_loop n body s).
Proof.
  unfold for_loop. rewrite seq_S, fold_left_app. reflexivity.
Qed.

Lemma for_loop_0 (S : Type) (body : nat -> S -> S) (s : S) :
  for_loop 0 body s = s.
Proof. reflexivity. Qed.

(** A loop whose body does not look at its index is a fold over any list of
    the same length. *)
Lemma for_loop_ext (S : Type) (n : nat) (f g : nat -> S -> S) (s : S) :
  (forall i x, i < n -> f i x = g i x) ->
  for_loop n f s = for_loop n g s.
Proof.
  intros H. induction n as [|n IH].
  - reflexivity.
  - rewrite !for_loop_S, IH by (intros; apply H; lia). apply H. lia.
Qed.

(** An invariant of a loop. *)
Lemma for_loop_inv (S : Type) (P : nat -> S -> Prop) (n : nat)
    (body : nat -> S -> S) (s : S) :
  P 0 s ->
  (forall i x, i < n -> P i x -> P (Datatypes.S i) (body i x)) ->
  P n (for_loop n body s).
Proof.
  intros H0 Hstep. induction n as [|n IH].
  - exact H0.
  - rewrite for_loop_S. apply Hstep; [lia|]. apply IH.
    intros i x Hi. apply Hstep. lia.
Qed.

Lemma find_None (s : str) (c : ascii) : find s c = None <-> ~ In c s.
Proof.
  induction s as [|d s IH]; simpl.
  - tauto.
  - destruct (Ascii.eqb_spec d c) as [->|Hne].
    + split; [discriminate|]. intros H. exfalso. apply H. now left.
    + destruct (find s c) eqn:E.
      * split; [discriminate|]. intros H. exfalso.
        assert (Hn : ~ In c s) by (intros Hin; apply H; now right).
        apply IH in Hn. discriminate.
      * split; [|reflexivity]. intros _ [H|H]; [congruence|].
        now apply (proj1 IH).
Qed.

Lemma find_Some (s : str) (c : ascii) (i : nat) :
  find s c = Some i -> i < length s /\ nth i s NUL = c.
Proof.
  revert i. induction s as [|d s IH]; simpl; intros i H.
  - discriminate.
  - destruct (Ascii.eqb_spec d c) as [->|Hne].
    + inversion H; subst. split; [lia|reflexivity].
    + destruct (find s c) as [j|] eqn:E; [|discriminate].
      inversion H; subst. destruct (IH j eq_refl) as [Hl Hn].
      split; [lia|exact Hn].
Qed.

Lemma find_In (s : str) (c : ascii) :
  In c s -> exists i, find s c = Some i.
Proof.
  intros H. destruct (find s c) as [i|] eqn:E.
  - now exists i.
  - apply find_None in E. contradiction.
Qed.

(** In a string without repetition, [find] is the inverse of indexing. *)
Lemma find_nth (s : str) (i : nat) :
  NoDup s -> i < length s -> find s (nth i s NUL) = Some i.
Proof.
  revert i. induction s as [|d s IH]; simpl; intros i Hnd Hi.
  - lia.
  - inversion Hnd as [|? ? Hnotin Hnd']; subst. destruct i as [|i].
    + now rewrite Ascii.eqb_refl.
    + destruct (Ascii.eqb_spec d (nth i s NUL)) as [->|Hne].
      * exfalso. apply Hnotin. apply nth_In. lia.
      * rewrite IH by (auto; lia). reflexivity.
Qed.

Lemma update_length (A : Type) (l : list A) (i : nat) (f : A -> A) :
  length (update l i f) = length l.
Proof.
  revert i. induction l as [|a l IH]; intros [|i]; simpl; auto.
Qed.

Lemma nth_update_eq (A : Type) (l : list A) (i : nat) (f : A -> A) (d : A) :
  i < length l -> nth i (update l i f) d = f (nth i l d).
Proof.
  revert i. induction l as [|a l IH]; intros [|i]; simpl; intros H;
    try lia; auto. apply IH. lia.
Qed.

Lemma nth_update_neq (A : Type) (l : list A) (i j : nat) (f : A -> A) (d : A) :
  i <> j -> nth j (update l i f) d = nth j l d.
Proof.
  revert i j. induction l as [|a l IH]; intros [|i] [|j]; simpl; intros H;
    try lia; auto.
Qed.

Lemma update_out_of_range (A : Type) (l : list A) (i : nat) (f : A -> A) :
  length l <= i -> update l i f = l.
Proof.
  revert i. induction l as [|a l IH]; intros [|i]; simpl; intros H;
    try lia; auto. f_equal. apply IH. lia.
Qed.

(** ** The reading loop *)

(** The lengths of the two vectors at the head of the reading loop: both are
    empty, or there is one name more than sequences, or the limit is reached
    by both. *)
Definition reader_inv (st : reader) : Prop :=
  (rd_name st = [] /\ rd_seq st = [])
  \/ (length (rd_name st) = Datatypes.S (length (rd_seq st))
      /\ length (rd_seq st) < nb_seq_limits)
  \/ (length (rd_name st) = nb_seq_limits
      /\ length (rd_seq st) = nb_seq_limits).

Lemma read_line_inv (s : str) (st : reader) :
  length (rd_seq st) < nb_seq_limits ->
  reader_inv st -> reader_inv (read_line s st).
Proof.
  intros Hlt Hinv. unfold read_line.
  destruct (is_header s); [|exact Hinv].
  destruct Hinv as [[Hn Hs]|[[Hn Hs]|[Hn Hs]]].
  - rewrite Hn, Hs. simpl. right; left. simpl. unfold nb_seq_limits. lia.
  - assert (Hne : (length (rd_name st) =? 0) = false)
      by (apply Nat.eqb_neq; lia).
    rewrite Hne. simpl negb. cbv iota.
    rewrite length_app. simpl length.
    destruct (Nat.ltb_spec (length (rd_seq st) + 1) nb_seq_limits) as [H|H].
    + right; left. simpl. rewrite !length_app. simpl. lia.
    + right; right. simpl. rewrite length_app. simpl. lia.
  - lia.
Qed.

Lemma read_loop_inv (ls : list str) (st : reader) :
  reader_inv st -> reader_inv (read_loop ls st).
Proof.
  revert st. induction ls as [|s ls IH]; simpl; intros st Hinv.
  - exact Hinv.
  - destruct (Nat.ltb_spec (length (rd_seq st)) nb_seq_limits) as [H|H].
    + apply IH. now apply read_line_inv.
    + exact Hinv.
Qed.

(** A header line leaves a name behind it. *)
Lemma read_line_header (s : str) (st : reader) :
  reader_inv st -> is_header s = true -> rd_name (read_line s st) <> [].
Proof.
  intros Hinv Hh. unfold read_line. rewrite Hh. simpl.
  destruct Hinv as [[Hn Hs]|[[Hn Hs]|[Hn Hs]]].
  - rewrite Hn, Hs. simpl. discriminate.
  - destruct (_ <? _); [|destruct (rd_name st); [discriminate Hn|discriminate]].
    destruct (rd_name st); discriminate.
  - destruct (_ <? _);
      destruct (rd_name st); try discriminate; simpl in Hn;
      unfold nb_seq_limits in Hn; discriminate.
Qed.

Lemma read_line_keeps_names (s : str) (st : reader) :
  rd_name st <> [] -> rd_name (read_line s st) <> [].
Proof.
  intros Hne. unfold read_line.
  destruct (is_header s); simpl; [|exact Hne].
  destruct (_ <? _); [|exact Hne].
  destruct (rd_name st); [contradiction|discriminate].
Qed.

Lemma read_loop_keeps_names (ls : list str) (st : reader) :
  rd_name st <> [] -> rd_name (read_loop ls st) <> [].
Proof.
  revert st. induction ls as [|s ls IH]; simpl; intros st Hne.
  - exact Hne.
  - destruct (_ <? _); [|exact Hne]. apply IH. now apply read_line_keeps_names.
Qed.

Lemma read_loop_header (ls : list str) (st : reader) :
  reader_inv st -> existsb is_header ls = true ->
  rd_name (read_loop ls st) <> [].
Proof.
  revert st. induction ls as [|s ls IH]; simpl; intros st Hinv Hex.
  - discriminate.
  - destruct (Nat.ltb_spec (length (rd_seq st)) nb_seq_limits) as [H|H].
    + destruct (is_header s) eqn:Hs.
      * apply read_loop_keeps_names. now apply read_line_header.
      * simpl in Hex. apply IH; [now apply read_line_inv|exact Hex].
    + destruct Hinv as [[Hn Hs]|[[Hn Hs]|[Hn Hs]]].
      * rewrite Hs in H. simpl in H. unfold nb_seq_limits in H. lia.
      * lia.
      * intros E. rewrite E in Hn. discriminate.
Qed.

Lemma read_loop_no_header (ls : list str) (st : reader) :
  rd_name st = [] -> rd_seq st = [] -> existsb is_header ls = false ->
  rd_name (read_loop ls st) = [] /\ rd_seq (read_loop ls st) = [].
Proof.
  revert st. induction ls as [|s ls IH]; simpl; intros st Hn Hs Hex.
  - now split.
  - apply orb_false_iff in Hex. destruct Hex as [Hh Hex].
    rewrite Hs. simpl. apply IH; auto; unfold read_line; rewrite Hh; auto.
Qed.

Lemma reader_inv_init : reader_inv (mkReader [] [] []).
Proof. left. now split. Qed.

Lemma read_file_lengths (text : str) :
  (rd_name (read_file text) = [] /\ length (rd_seq (read_file text)) = 1)
  \/ (length (rd_name (read_file text)) = length (rd_seq (read_file text))
      /\ 1 <= length (rd_name (read_file text)) <= nb_seq_limits).
Proof.
  unfold read_file.
  pose proof (read_loop_inv (getlines text) reader_inv_init) as Hinv.
  set (st := read_loop (getlines text) (mkReader [] [] [])) in *.
  destruct (Nat.ltb_spec (length (rd_seq st)) nb_seq_limits) as [Hlt|Hge];
    simpl; destruct Hinv as [[Hn Hs]|[[Hn Hs]|[Hn Hs]]].
  - left. rewrite Hn, Hs. now split.
  - right. rewrite length_app. simpl. lia.
  - lia.
  - rewrite Hs in Hge. simpl in Hge. unfold nb_seq_limits in Hge. lia.
  - lia.
  - right. unfold nb_seq_limits in *. lia.
Qed.

Lemma read_file_names (text : str) :
  rd_name (read_file text) = rd_name (read_loop (getlines text) (mkReader [] [] [])).
Proof. unfold read_file. now destruct (_ <? _). Qed.

Lemma read_file_bounded (text : str) :
  length (rd_name (read_file text)) <= 500
  /\ length (rd_seq (read_file text)) <= 500.
Proof.
  destruct (read_file_lengths text) as [[Hn Hs]|[He Hb]].
  - rewrite Hn, Hs. simpl. lia.
  - unfold nb_seq_limits in Hb. lia.
Qed.

(** C9, as amended: for every text that has a header line (a line whose
    first character is ['>']), the reading part of the constructor leaves as
    many names as sequences, and at most 500 of each. *)
Theorem read_file_names_match_sequences (text : str) :
  existsb is_header (getlines text) = true ->
  length (rd_name (read_file text)) = length (rd_seq (read_file text))
  /\ length (rd_name (read_file text)) <= 500
  /\ length (rd_seq (read_file text)) <= 500.
Proof.
  intros Hh.
  pose proof (read_loop_header (getlines text) reader_inv_init Hh) as Hne.
  rewrite <- read_file_names in Hne.
  destruct (read_file_lengths text) as [[Hn Hs]|[He Hb]].
  - contradiction.
  - unfold nb_seq_limits in Hb. lia.
Qed.

Lemma read_file_names_match_sequences_witness :
  length (rd_name (read_file two_records))
  = length (rd_seq (read_file two_records))
  /\ length (rd_name (read_file two_records)) <= 500
  /\ length (rd_seq (read_file two_records)) <= 500.
Proof.
  apply (read_file_names_match_sequences two_records).
  reflexivity.
Defined.

(** C9 fails as stated: a text without a header line (here the one line
    [ACGT]) leaves no name and one sequence. *)
Lemma read_file_without_header :
  length (rd_name (read_file no_header)) = 0
  /\ length (rd_seq (read_file no_header)) = 1
  /\ length (rd_name (read_file no_header))
     <> length (rd_seq (read_file no_header)).
Proof.
  repeat split; try reflexivity. vm_compute. discriminate.
Qed.

(** Without a header line there is no name and one sequence, whatever the
    text. *)
Lemma read_file_no_header (text : str) :
  existsb is_header (getlines text) = false ->
  rd_name (read_file text) = [] /\ length (rd_seq (read_file text)) = 1.
Proof.
  intros Hh.
  destruct (@read_loop_no_header (getlines text) (mkReader [] [] [])
              eq_refl eq_refl Hh) as [Hn Hs].
  unfold read_file.
  set (st := read_loop (getlines text) (mkReader [] [] [])) in *.
  rewrite Hs. simpl. rewrite Hn. now split.
Qed.

(** ** The loops over the cells *)

Lemma fold_left_flat_map (A B S : Type) (F : S -> B -> S) (h : A -> list B)
    (l : list A) (s : S) :
  fold_left F (flat_map h l) s = fold_left (fun s x => fold_left F (h x) s) l s.
Proof.
  revert s. induction l as [|a l IH]; simpl; intros s.
  - reflexivity.
  - rewrite fold_left_app. apply IH.
Qed.

Lemma fold_left_map (A B S : Type) (F : S -> B -> S) (h : A -> B)
    (l : list A) (s : S) :
  fold_left F (map h l) s = fold_left (fun s x => F s (h x)) l s.
Proof.
  revert s. induction l as [|a l IH]; simpl; intros s; auto.
Qed.

(** The loop over the rows of a column is a fold over the column. *)
Lemma rows_loop_column (S : Type) (m : Msa) (col : nat)
    (f : ascii -> S -> S) (s : S) :
  for_loop (nseq m) (fun row s => f (getSymbol m row col) s) s
  = fold_left (fun s c => f c s) (column m col) s.
Proof.
  unfold for_loop, column. now rewrite fold_left_map.
Qed.

(** The two nested loops, columns outside and rows inside, are a fold over
    the cells. *)
Lemma nested_loops_cells (S : Type) (m : Msa) (f : ascii -> S -> S) (s : S) :
  for_loop (ncol m) (fun col =>
    for_loop (nseq m) (fun row s => f (getSymbol m row col) s)) s
  = fold_left (fun s c => f c s) (cells m) s.
Proof.
  unfold cells. rewrite fold_left_flat_map. unfold for_loop at 1.
  revert s. induction (seq 0 (ncol m)) as [|col l IH]; simpl; intros s.
  - reflexivity.
  - rewrite rows_loop_column. apply IH.
Qed.

Lemma In_column (m : Msa) (row col : nat) :
  row < nseq m -> In (getSymbol m row col) (column m col).
Proof.
  intros H. unfold column. apply in_map_iff. exists row. split; auto.
  apply in_seq. lia.
Qed.

Lemma In_cells (m : Msa) (row col : nat) :
  row < nseq m -> col < ncol m -> In (getSymbol m row col) (cells m).
Proof.
  intros Hr Hc. unfold cells. apply in_flat_map. exists col. split.
  - apply in_seq. lia.
  - now apply In_column.
Qed.

Lemma column_length (m : Msa) (col : nat) : length (column m col) = nseq m.
Proof. unfold column. now rewrite length_map, length_seq. Qed.

Lemma nth_map_seq (A : Type) (f : nat -> A) (n i : nat) (d : A) :
  i < n -> nth i (map f (seq 0 n)) d = f i.
Proof.
  intros H. rewrite nth_indep with (d' := f 0)
    by (now rewrite length_map, length_seq).
  rewrite map_nth. now rewrite seq_nth.
Qed.

Lemma nth_column (m : Msa) (row col : nat) :
  row < nseq m -> nth row (column m col) NUL = getSymbol m row col.
Proof.
  intros H. unfold column. now rewrite nth_map_seq.
Qed.

Lemma cells_length (m : Msa) : length (cells m) = nseq m * ncol m.
Proof.
  assert (H : forall l, length (flat_map (column m) l) = nseq m * length l).
  { induction l as [|c l IH]; simpl.
    - lia.
    - rewrite length_app, column_length, IH. lia. }
  unfold cells. now rewrite H, length_seq.
Qed.

(** ** First occurrences *)

Lemma push_new_In (s : str) (c d : ascii) :
  In d (push_new s c) <-> In d s \/ d = c.
Proof.
  unfold push_new. destruct (find s c) as [i|] eqn:E.
  - split; [tauto|]. intros [H| ->]; auto.
    apply find_Some in E. destruct E as [Hi <-]. apply nth_In. exact Hi.
  - rewrite in_app_iff. simpl. intuition.
Qed.

Lemma push_new_NoDup (s : str) (c : ascii) : NoDup s -> NoDup (push_new s c).
Proof.
  intros H. unfold push_new. destruct (find s c) eqn:E; auto.
  apply find_None in E.
  apply NoDup_app; auto.
  - constructor; [simpl; tauto|constructor].
  - intros x Hx [<-|[]]. contradiction.
Qed.

Lemma fold_push_new_In (l s : str) (d : ascii) :
  In d (fold_left push_new l s) <-> In d s \/ In d l.
Proof.
  revert s. induction l as [|c l IH]; simpl; intros s.
  - tauto.
  - rewrite IH, push_new_In. intuition.
Qed.

Lemma fold_push_new_NoDup (l s : str) :
  NoDup s -> NoDup (fold_left push_new l s).
Proof.
  revert s. induction l as [|c l IH]; simpl; intros s H; auto.
  apply IH. now apply push_new_NoDup.
Qed.

Lemma first_occurrences_In (l : str) (d : ascii) :
  In d (first_occurrences l) <-> In d l.
Proof. unfold first_occurrences. rewrite fold_push_new_In. simpl. tauto. Qed.

Lemma first_occurrences_NoDup (l : str) : NoDup (first_occurrences l).
Proof. apply fold_push_new_NoDup. constructor. Qed.

(** The string built by pushing the new symbols has as many symbols as the
    string has distinct ones. *)
Lemma first_occurrences_length (l : str) :
  length (first_occurrences l) = distinct_symbols l.
Proof.
  unfold distinct_symbols. apply Nat.le_antisymm.
  - apply NoDup_incl_length; [apply first_occurrences_NoDup|].
    intros d Hd. apply nodup_In. now apply first_occurrences_In.
  - apply NoDup_incl_length; [apply NoDup_nodup|].
    intros d Hd. apply first_occurrences_In. now apply nodup_In in Hd.
Qed.

(** *** What [defineAlphabet] and [countType] compute *)

Lemma defineAlphabet_alphabet (m : Msa) :
  alphabet (defineAlphabet m) = first_occurrences (cells m).
Proof.
  unfold defineAlphabet, first_occurrences. simpl.
  exact (nested_loops_cells m (fun c alph => push_new alph c) []).
Qed.

Lemma countType_loop (m : Msa) (n : nat) (types : list str) (nbs : list nat) :
  for_loop n (fun col '(aa_type_list, nb_type) =>
      let aa_types :=
        for_loop (nseq m) (fun row aa_types =>
          match find aa_types (getSymbol m row col) with
          | None => aa_types ++ [getSymbol m row col]
          | Some _ => aa_types
          end) [] in
      (aa_type_list ++ [aa_types], nb_type ++ [length aa_types]))
      (types, nbs)
  = (types ++ map (fun col => first_occurrences (column m col)) (seq 0 n),
     nbs ++ map (fun col => distinct_symbols (column m col)) (seq 0 n)).
Proof.
  induction n as [|n IH].
  - simpl. now rewrite !app_nil_r.
  - rewrite for_loop_S, IH. rewrite !seq_S, !map_app, !app_assoc. simpl.
    rewrite <- first_occurrences_length.
    pose proof (rows_loop_column m n (fun c alph => push_new alph c) []) as E.
    unfold push_new in E at 1. rewrite E. reflexivity.
Qed.

Lemma countType_nb_type (m : Msa) :
  nb_type (countType m)
  = nb_type m ++ map (fun col => distinct_symbols (column m col)) (seq 0 (ncol m)).
Proof.
  unfold countType. simpl. rewrite countType_loop. reflexivity.
Qed.

Lemma countType_aa_type_list (m : Msa) :
  aa_type_list (countType m)
  = aa_type_list m
    ++ map (fun col => first_occurrences (column m col)) (seq 0 (ncol m)).
Proof.
  unfold countType. simpl. rewrite countType_loop. reflexivity.
Qed.

(** ** [countFreq] *)

Lemma count_symbols_cells (m : Msa) :
  count_symbols m
  = fold_left (fun st c => cell_step (alphabet m) c st) (cells m)
      (Done (0, repeat 0 (length (alphabet m)))).
Proof.
  unfold count_symbols.
  exact (nested_loops_cells m (cell_step (alphabet m)) _).
Qed.

Lemma cell_step_fold (alph l : str) (total : nat) (tmp : list nat) :
  (forall c, In c l -> In c alph) ->
  fold_left (fun st c => cell_step alph c st) l (Done (total, tmp))
  = Done (total + length (filter non_gap l), fold_left (bump alph) l tmp).
Proof.
  revert total tmp. induction l as [|c l IH]; simpl; intros total tmp Hin.
  - f_equal. f_equal. lia.
  - destruct (find_In alph c) as [pos E]; [apply Hin; now left|].
    unfold bump at 2. rewrite E. unfold non_gap at 1.
    destruct (negb (is_gap c)); simpl length;
      rewrite IH by (intros; apply Hin; now right);
      f_equal; f_equal; lia.
Qed.

Lemma bump_length (alph : str) (tmp : list nat) (c : ascii) :
  length (bump alph tmp c) = length tmp.
Proof. unfold bump. destruct (find alph c); auto using update_length. Qed.

Lemma fold_bump_length (alph l : str) (tmp : list nat) :
  length (fold_left (bump alph) l tmp) = length tmp.
Proof.
  revert tmp. induction l as [|c l IH]; simpl; intros tmp; auto.
  now rewrite IH, bump_length.
Qed.

(** The counter of the [i]-th symbol of the alphabet counts its occurrences. *)
Lemma fold_bump_nth (alph l : str) (tmp : list nat) (i : nat) :
  NoDup alph -> length tmp = length alph -> i < length alph ->
  nth i (fold_left (bump alph) l tmp) 0
  = nth i tmp 0 + occurrences (nth i alph NUL) l.
Proof.
  intros Hnd. revert tmp. induction l as [|c l IH]; simpl; intros tmp Hl Hi.
  - unfold occurrences. simpl. lia.
  - rewrite IH by (rewrite ?bump_length; auto).
    unfold occurrences. simpl count_occ. unfold bump.
    destruct (find alph c) as [pos|] eqn:E.
    + destruct (find_Some _ _ E) as [Hpos Hc].
      destruct (Nat.eq_dec pos i) as [->|Hne].
      * rewrite nth_update_eq by lia.
        destruct (ascii_dec c (nth i alph NUL)); [lia|congruence].
      * rewrite nth_update_neq by auto.
        destruct (ascii_dec c (nth i alph NUL)) as [Heq|]; [|lia].
        exfalso. apply Hne. rewrite <- Hc in Heq.
        now apply (proj1 (NoDup_nth alph NUL) Hnd).
    + apply find_None in E.
      destruct (ascii_dec c (nth i alph NUL)) as [Heq|]; [|lia].
      exfalso. apply E. rewrite Heq. now apply nth_In.
Qed.

Lemma nth_repeat_0 (i n : nat) : nth i (repeat 0 n) 0 = 0.
Proof.
  revert i. induction n as [|n IH]; intros [|i]; simpl; auto.
Qed.

(** The alignment on which the constructor calls [countFreq]. *)
Lemma cells_defineAlphabet (m : Msa) :
  cells (countGap (defineAlphabet m)) = cells m.
Proof. reflexivity. Qed.

Lemma alphabet_countGap (m : Msa) :
  alphabet (countGap (defineAlphabet m)) = first_occurrences (cells m).
Proof. apply defineAlphabet_alphabet. Qed.

Lemma count_symbols_constructor (m : Msa) :
  count_symbols (countGap (defineAlphabet m))
  = Done (length (filter non_gap (cells m)),
          fold_left (bump (first_occurrences (cells m))) (cells m)
            (repeat 0 (length (first_occurrences (cells m))))).
Proof.
  rewrite count_symbols_cells, alphabet_countGap, cells_defineAlphabet.
  rewrite cell_step_fold; [reflexivity|].
  intros c Hc. now apply first_occurrences_In.
Qed.

Lemma Msa_new_returns (text : str) : exists msa, Msa_new (Some text) = Done msa.
Proof.
  unfold Msa_new, countFreq. rewrite count_symbols_constructor.
  simpl. eauto.
Qed.


(** ** Floating-point values *)

Local Open Scope R_scope.

Lemma is_zero_true (r : R) : r = 0 -> is_zero r = true.
Proof. intros H. unfold is_zero. destruct (Req_dec_T r 0); tauto. Qed.

Lemma is_zero_false (r : R) : r <> 0 -> is_zero r = false.
Proof. intros H. unfold is_zero. destruct (Req_dec_T r 0); tauto. Qed.

Lemma is_pos_true (r : R) : 0 < r -> is_pos r = true.
Proof. intros H. unfold is_pos. destruct (Rlt_dec 0 r); tauto. Qed.

Lemma is_pos_false (r : R) : r <= 0 -> is_pos r = false.
Proof. intros H. unfold is_pos. destruct (Rlt_dec 0 r); auto. lra. Qed.

Lemma fdiv_Fin (a b : R) : b <> 0 -> fdiv (Fin a) (Fin b) = Fin (a / b).
Proof. intros H. simpl. now rewrite is_zero_false. Qed.

Lemma fdiv_pos_zero (a : R) : 0 < a -> fdiv (Fin a) (Fin 0) = PInf.
Proof.
  intros H. simpl. rewrite (@is_zero_true 0 eq_refl).
  rewrite is_zero_false by lra. unfold inf_of_sign. now rewrite is_pos_true.
Qed.

Lemma fdiv_zero_zero : fdiv (Fin 0) (Fin 0) = NaN.
Proof. simpl. now rewrite (@is_zero_true 0 eq_refl). Qed.

Lemma flog_Fin (a : R) : 0 < a -> flog (Fin a) = Fin (ln a).
Proof. intros H. simpl. now rewrite is_pos_true. Qed.

Lemma flog_zero : flog (Fin 0) = NInf.
Proof.
  simpl. rewrite is_pos_false by lra. now rewrite (@is_zero_true 0 eq_refl).
Qed.

Lemma feqb_Fin_true (a b : R) : a = b -> feqb (Fin a) (Fin b) = true.
Proof. intros H. simpl. destruct (Req_dec_T a b); tauto. Qed.

Lemma feqb_Fin_false (a b : R) : a <> b -> feqb (Fin a) (Fin b) = false.
Proof. intros H. simpl. destruct (Req_dec_T a b); tauto. Qed.

Lemma fgtb_Fin_true (a b : R) : b < a -> fgtb (Fin a) (Fin b) = true.
Proof. intros H. unfold fgtb. simpl. destruct (Rlt_dec b a); tauto. Qed.

Lemma fgtb_Fin_false (a b : R) : a <= b -> fgtb (Fin a) (Fin b) = false.
Proof.
  intros H. unfold fgtb. simpl. destruct (Rlt_dec b a); auto. lra.
Qed.

Lemma INR_pos (n : nat) : (0 < n)%nat -> 0 < INR n.
Proof. intros H. apply lt_0_INR. exact H. Qed.

Lemma INR_nonzero (n : nat) : (0 < n)%nat -> INR n <> 0.
Proof. intros H. apply not_0_INR. lia. Qed.

(** A sum of finite values is the finite value of the sum. *)
Lemma fsum_Fin (A : Type) (f : A -> R) (l : list A) (a : R) :
  fold_left fadd (map (fun x => Fin (f x)) l) (Fin a) = Fin (a + Rsum f l).
Proof.
  revert a. induction l as [|x l IH]; simpl; intros a.
  - f_equal. lra.
  - rewrite IH. f_equal. lra.
Qed.

Lemma fsum_PInf (l : list float) :
  (forall x, In x l -> x = PInf) -> fold_left fadd l PInf = PInf.
Proof.
  induction l as [|x l IH]; simpl; intros H; auto.
  rewrite (H x) by now left. simpl. apply IH. intros; apply H; now right.
Qed.

Lemma Rsum_ext (A : Type) (f g : A -> R) (l : list A) :
  (forall x, In x l -> f x = g x) -> Rsum f l = Rsum g l.
Proof.
  induction l as [|x l IH]; simpl; intros H; auto.
  rewrite H by now left. f_equal. apply IH. intros; apply H; now right.
Qed.

Lemma Rsum_scal (A : Type) (f : A -> R) (c : R) (l : list A) :
  Rsum (fun x => f x * c) l = Rsum f l * c.
Proof. induction l as [|x l IH]; simpl; [lra|rewrite IH; lra]. Qed.

Lemma Rsum_app (A : Type) (f : A -> R) (l1 l2 : list A) :
  Rsum f (l1 ++ l2) = Rsum f l1 + Rsum f l2.
Proof. induction l1 as [|x l IH]; simpl; [lra|rewrite IH; lra]. Qed.

Lemma Rsum_nonneg (A : Type) (f : A -> R) (l : list A) :
  (forall x, In x l -> 0 <= f x) -> 0 <= Rsum f l.
Proof.
  induction l as [|x l IH]; simpl; intros H; [lra|].
  assert (0 <= f x) by (apply H; now left).
  assert (0 <= Rsum f l) by (apply IH; intros; apply H; now right). lra.
Qed.

Lemma Rsum_INR (A : Type) (f : A -> nat) (l : list A) :
  Rsum (fun x => INR (f x)) l = INR (list_sum (map f l)).
Proof.
  induction l as [|x l IH]; simpl; [reflexivity|].
  now rewrite plus_INR, IH.
Qed.

Local Close Scope R_scope.

(** ** What the constructor builds *)

(** A loop that pushes one value per turn. *)
Lemma push_back_loop (A : Type) (F : nat -> A) (n : nat) (init : list A) :
  for_loop n (fun i v => v ++ [F i]) init = init ++ map F (seq 0 n).
Proof.
  induction n as [|n IH].
  - simpl. now rewrite app_nil_r.
  - rewrite for_loop_S, IH, seq_S, map_app, app_assoc. reflexivity.
Qed.

Lemma update_app_head (A : Type) (l1 l2 : list A) (a : A) (f : A -> A) :
  update (l1 ++ a :: l2) (length l1) f = l1 ++ f a :: l2.
Proof.
  induction l1 as [|x l1 IH]; simpl; [reflexivity|]. now rewrite IH.
Qed.

(** A loop that rewrites the element of its index in a vector of [n + k]
    elements. *)
Lemma update_loop (A : Type) (F : nat -> A -> A) (d : A) (n k : nat) :
  for_loop n (fun i v => update v i (F i)) (repeat d (n + k))
  = map (fun i => F i d) (seq 0 n) ++ repeat d k.
Proof.
  revert k. induction n as [|n IH]; intros k.
  - reflexivity.
  - rewrite for_loop_S.
    replace (Datatypes.S n + k) with (n + Datatypes.S k) by lia.
    rewrite IH, seq_S, map_app. simpl repeat. simpl map.
    pose proof (@update_app_head A (map (fun i => F i d) (seq 0 n))
                  (repeat d k) d (F n)) as E.
    rewrite length_map, length_seq in E. rewrite E.
    now rewrite <- app_assoc.
Qed.

Lemma gap_loop_column (m : Msa) (col : nat) :
  for_loop (nseq m) (fun row gap =>
    if is_gap (getSymbol m row col) then S gap else gap) 0
  = gaps_in (column m col).
Proof.
  rewrite (rows_loop_column m col (fun c gap => if is_gap c then S gap else gap)).
  unfold gaps_in.
  assert (H : forall l n,
    fold_left (fun gap c => if is_gap c then S gap else gap) l n
    = n + length (filter is_gap l)).
  { induction l as [|c l IH]; simpl; intros n; [lia|].
    rewrite IH. destruct (is_gap c); simpl; lia. }
  now rewrite H.
Qed.

Lemma countGap_gap_counts (m : Msa) :
  gap_counts (countGap m)
  = gap_counts m ++ map (fun col => gaps_in (column m col)) (seq 0 (ncol m)).
Proof.
  unfold countGap. simpl.
  rewrite <- (push_back_loop (fun col => gaps_in (column m col))).
  apply for_loop_ext. intros col gc _. now rewrite gap_loop_column.
Qed.

Lemma countEntropy_entropy (m : Msa) :
  entropy (countEntropy m)
  = map (fun col => column_entropy m col (Fin 0)) (seq 0 (ncol m)).
Proof.
  unfold countEntropy. simpl.
  pose proof (update_loop (column_entropy m) (Fin 0) (ncol m) 0) as E.
  rewrite Nat.add_0_r in E. rewrite E. simpl. now rewrite app_nil_r.
Qed.

Lemma Msa_init_nseq (text : str) : nseq (Msa_init text) <= 500.
Proof. simpl. apply read_file_bounded. Qed.

(** Every object that the constructor returns is [constructed]. *)
Lemma Msa_new_constructed (text : str) (m : Msa) :
  Msa_new (Some text) = Done m -> constructed m.
Proof.
  unfold Msa_new, countFreq. rewrite count_symbols_constructor.
  unfold obind. intros H. injection H as <-.
  set (m0 := Msa_init text).
  match goal with
  | |- constructed (countEntropy (countType ?Y)) => set (m4 := Y)
  end.
  constructor.
  - apply (defineAlphabet_alphabet m0).
  - apply (countGap_gap_counts (defineAlphabet m0)).
  - change (alphabet (countEntropy (countType m4)))
      with (alphabet (defineAlphabet m0)).
    rewrite (defineAlphabet_alphabet m0). reflexivity.
  - change (nb_type (countEntropy (countType m4)))
      with (nb_type (countType m4)).
    rewrite countType_nb_type. reflexivity.
  - change (aa_type_list (countEntropy (countType m4)))
      with (aa_type_list (countType m4)).
    rewrite countType_aa_type_list. reflexivity.
  - rewrite countEntropy_entropy. reflexivity.
  - apply Msa_init_nseq.
Qed.

(** ** The frequencies *)

Lemma sum_indicator (D : str) (c : ascii) :
  NoDup D -> In c D ->
  list_sum (map (fun d => if ascii_dec c d then 1 else 0) D) = 1.
Proof.
  induction D as [|d D IH]; simpl; intros Hnd Hin; [contradiction|].
  inversion Hnd as [|? ? Hnotin Hnd']; subst.
  destruct (ascii_dec c d) as [->|Hne].
  - assert (E : list_sum (map (fun d0 => if ascii_dec d d0 then 1 else 0) D) = 0).
    { clear IH Hnd Hnd' Hin. induction D as [|e D IH]; simpl; auto.
      destruct (ascii_dec d e) as [->|_].
      - exfalso. apply Hnotin. now left.
      - apply IH. intros H. apply Hnotin. now right. }
    lia.
  - destruct Hin as [->|Hin]; [congruence|]. now rewrite IH.
Qed.

(** The occurrences of the symbols of a string without repetition that
    covers [l] add up to the length of [l]. *)
Lemma occurrences_sum (D l : str) :
  NoDup D -> (forall c, In c l -> In c D) ->
  list_sum (map (fun d => occurrences d l) D) = length l.
Proof.
  intros Hnd. induction l as [|c l IH]; intros Hin.
  - clear. induction D as [|d D IHD]; simpl; auto.
  - assert (E : forall D',
      list_sum (map (fun d => occurrences d (c :: l)) D')
      = list_sum (map (fun d => if ascii_dec c d then 1 else 0) D')
        + list_sum (map (fun d => occurrences d l) D')).
    { clear. unfold list_sum. induction D' as [|d D' IHD]; [reflexivity|].
      cbn [map fold_right]. rewrite IHD. unfold occurrences.
      cbn [count_occ]. destruct (ascii_dec c d); lia. }
    rewrite E, (@sum_indicator D c Hnd (Hin c (or_introl eq_refl))).
    rewrite IH by (intros; apply Hin; now right). reflexivity.
Qed.

Lemma occurrences_pos (c : ascii) (l : str) :
  In c l -> 0 < occurrences c l.
Proof. intros H. unfold occurrences. now apply count_occ_In. Qed.

Lemma constructed_alphabet_NoDup (m : Msa) :
  constructed m -> NoDup (alphabet m).
Proof.
  intros C. rewrite (built_alphabet C). apply first_occurrences_NoDup.
Qed.

Lemma constructed_alphabet_In (m : Msa) (c : ascii) :
  constructed m -> (In c (alphabet m) <-> In c (cells m)).
Proof.
  intros C. rewrite (built_alphabet C). apply first_occurrences_In.
Qed.

(** The frequency stored for the symbol at position [pos] of the alphabet. *)
Lemma constructed_aa_freq (m : Msa) (pos : nat) :
  constructed m -> pos < length (alphabet m) ->
  nth pos (aa_freq m) (Fin 0)
  = fdiv (of_int (occurrences (nth pos (alphabet m) NUL) (cells m)))
         (of_int (length (filter non_gap (cells m)))).
Proof.
  intros C Hpos. rewrite (built_freq C).
  set (F := fun n => fdiv (of_int n) (of_int (length (filter non_gap (cells m))))).
  rewrite nth_indep with (d' := F 0)
    by (now rewrite length_map, fold_bump_length, repeat_length).
  rewrite map_nth. unfold F. f_equal. f_equal.
  rewrite fold_bump_nth;
    [|now apply constructed_alphabet_NoDup|now rewrite repeat_length|exact Hpos].
  now rewrite nth_repeat_0.
Qed.

Lemma constructed_getFreq (m : Msa) (s : ascii) :
  constructed m -> In s (alphabet m) ->
  getFreq m s
  = Done (fdiv (of_int (occurrences s (cells m)))
               (of_int (length (filter non_gap (cells m))))).
Proof.
  intros C Hin. unfold getFreq, getAaPos.
  destruct (find_In _ _ Hin) as [pos E]. rewrite E.
  destruct (find_Some _ _ E) as [Hpos Hs].
  rewrite constructed_aa_freq by assumption. now rewrite Hs.
Qed.

Lemma freq_sum_fold (m : Msa) (F : ascii -> float) (l : str) (x : float) :
  (forall s, In s l -> getFreq m s = Done (F s)) ->
  fold_left (fun acc s =>
    obind acc (fun x => obind (getFreq m s) (fun f => Done (fadd x f))))
    l (Done x)
  = Done (fold_left fadd (map F l) x).
Proof.
  revert x. induction l as [|s l IH]; simpl; intros x H; [reflexivity|].
  rewrite H by now left. simpl. apply IH. intros; apply H; now right.
Qed.

Local Open Scope R_scope.

(** The sum of the quotients [n / total] over counters [n] that are all
    positive is the quotient of their sum, also when [total] is zero and
    every quotient is infinite. *)
Lemma fsum_quotients (A : Type) (f : A -> nat) (l : list A) (total : nat) :
  l <> [] -> (forall x, In x l -> (0 < f x)%nat) ->
  fold_left fadd (map (fun x => fdiv (of_int (f x)) (of_int total)) l) (Fin 0)
  = fdiv (of_int (list_sum (map f l))) (of_int total).
Proof.
  intros Hne Hpos. unfold of_int. destruct total as [|total].
  - simpl INR.
    assert (E : forall x, In x l -> fdiv (Fin (INR (f x))) (Fin 0) = PInf).
    { intros x Hx. apply fdiv_pos_zero. apply INR_pos. now apply Hpos. }
    destruct l as [|a l]; [contradiction|]. cbn [map fold_left].
    rewrite E by now left. cbn [fadd].
    rewrite fsum_PInf.
    + symmetry. apply fdiv_pos_zero. apply INR_pos.
      assert (0 < f a)%nat by (apply Hpos; now left). simpl. lia.
    + intros y Hy. apply in_map_iff in Hy. destruct Hy as [x [<- Hx]].
      apply E. now right.
  - assert (Ht : INR (S total) <> 0) by (apply INR_nonzero; lia).
    rewrite (map_ext _ (fun x => Fin (INR (f x) / INR (S total))))
      by (intros; now apply fdiv_Fin).
    rewrite fsum_Fin, fdiv_Fin by exact Ht. f_equal.
    unfold Rdiv. rewrite Rsum_scal, Rsum_INR. lra.
Qed.

Local Close Scope R_scope.

(** C8: for every model that the constructor returns and every symbol [s] of
    its alphabet (the gap symbols included), [getFreq(s)] is the number of
    cells that hold [s] divided by the number of cells that hold no gap
    symbol; so the frequencies of the symbols of the alphabet add up to the
    number of cells, [nseq * ncol], divided by the number of non-gap cells. *)
Theorem getFreq_counts_over_non_gap_total (text : str) (m : Msa) (s : ascii) :
  Msa_new (Some text) = Done m ->
  In s (alphabet m) ->
  getFreq m s
  = Done (fdiv (of_int (occurrences s (cells m)))
               (of_int (length (filter non_gap (cells m)))))
  /\ freq_sum m
     = Done (fdiv (of_int (nseq m * ncol m))
                  (of_int (length (filter non_gap (cells m))))).
Proof.
  intros Hnew Hin. pose proof (Msa_new_constructed _ Hnew) as C.
  split; [now apply constructed_getFreq|].
  unfold freq_sum.
  rewrite (@freq_sum_fold m (fun s =>
             fdiv (of_int (occurrences s (cells m)))
                  (of_int (length (filter non_gap (cells m))))))
    by (intros; now apply constructed_getFreq).
  rewrite (fsum_quotients (fun s => occurrences s (cells m))).
  - rewrite occurrences_sum, cells_length; auto.
    + now apply constructed_alphabet_NoDup.
    + intros c Hc. now apply constructed_alphabet_In.
  - intros E. rewrite E in Hin. contradiction.
  - intros c Hc. apply occurrences_pos. now apply constructed_alphabet_In.
Qed.

Lemma model_of_Done (text : str) : Msa_new (Some text) = Done (model_of text).
Proof.
  unfold model_of.
  destruct (Msa_new_returns text) as [m E]. now rewrite E.
Qed.

Lemma getFreq_counts_over_non_gap_total_witness :
  getFreq (model_of with_gap) "-"%char
  = Done (fdiv (of_int (occurrences "-"%char (cells (model_of with_gap))))
               (of_int (length (filter non_gap (cells (model_of with_gap))))))
  /\ freq_sum (model_of with_gap)
     = Done (fdiv (of_int (nseq (model_of with_gap) * ncol (model_of with_gap)))
                  (of_int (length (filter non_gap (cells (model_of with_gap)))))).
Proof.
  apply (@getFreq_counts_over_non_gap_total with_gap (model_of with_gap) "-"%char).
  - vm_compute. reflexivity.
  - vm_compute. tauto.
Defined.

(** ** The sequence weights *)

(** The inner loop of [calcSeqWeight] counts the rows that hold the symbol
    [c] in column [x]. *)
Lemma count_loop_occurrences (m : Msa) (c : ascii) (x : nat) :
  for_loop (nseq m) (fun seq n =>
    if Ascii.eqb c (getSymbol m seq x) then S n else n) 0
  = occurrences c (column m x).
Proof.
  rewrite (rows_loop_column m x (fun d n => if Ascii.eqb c d then S n else n)).
  unfold occurrences.
  assert (H : forall l n,
    fold_left (fun n d => if Ascii.eqb c d then S n else n) l n
    = n + count_occ ascii_dec l c).
  { induction l as [|d l IH]; simpl; intros n; [lia|].
    rewrite IH. destruct (Ascii.eqb_spec c d) as [->|Hne].
    - destruct (ascii_dec d d); [lia|congruence].
    - destruct (ascii_dec d c); [congruence|lia]. }
  now rewrite H.
Qed.

Lemma constructed_getNtype (m : Msa) (x : nat) :
  constructed m -> x < ncol m ->
  getNtype m x = distinct_symbols (column m x).
Proof.
  intros C Hx. unfold getNtype. rewrite (built_nb_type C).
  now rewrite nth_map_seq.
Qed.

Lemma distinct_symbols_pos (s : str) : s <> [] -> 0 < distinct_symbols s.
Proof.
  intros H. destruct s as [|c s]; [contradiction|].
  unfold distinct_symbols.
  assert (Hin : In c (nodup ascii_dec (c :: s))) by (apply nodup_In; now left).
  destruct (nodup ascii_dec (c :: s)); [contradiction|simpl; lia].
Qed.

Lemma column_nonempty (m : Msa) (x : nat) : 0 < nseq m -> column m x <> [].
Proof.
  intros H E. pose proof (column_length m x) as L. rewrite E in L.
  simpl in L. lia.
Qed.

(** A loop that adds one finite value per turn. *)
Lemma add_loop_Fin (g : nat -> R) (n : nat) (a : R) :
  for_loop n (fun x w => fadd w (Fin (g x))) (Fin a)
  = Fin (a + Rsum g (seq 0 n)).
Proof.
  unfold for_loop. rewrite <- fsum_Fin. now rewrite fold_left_map.
Qed.

Local Open Scope R_scope.

(** The term that [calcSeqWeight] adds for column [x]. *)
Lemma weight_term (m : Msa) (i x : nat) :
  constructed m -> (i < nseq m)%nat -> (x < ncol m)%nat ->
  fdiv (Fin 1)
       (of_int (occurrences (getSymbol m i x) (column m x) * getNtype m x))
  = Fin (1 / (INR (distinct_symbols (column m x))
              * INR (occurrences (getSymbol m i x) (column m x)))).
Proof.
  intros C Hi Hx. rewrite constructed_getNtype by assumption.
  unfold of_int. rewrite mult_INR.
  assert (Hn : 0 < INR (occurrences (getSymbol m i x) (column m x))).
  { apply INR_pos, occurrences_pos. now apply In_column. }
  assert (Hk : 0 < INR (distinct_symbols (column m x))).
  { apply INR_pos, distinct_symbols_pos, column_nonempty. lia. }
  rewrite fdiv_Fin by nra. f_equal. f_equal. lra.
Qed.

Lemma weight_term_pos (m : Msa) (i x : nat) :
  (i < nseq m)%nat ->
  0 < 1 / (INR (distinct_symbols (column m x))
           * INR (occurrences (getSymbol m i x) (column m x))).
Proof.
  intros Hi.
  assert (Hn : 0 < INR (occurrences (getSymbol m i x) (column m x))).
  { apply INR_pos, occurrences_pos. now apply In_column. }
  assert (Hk : 0 < INR (distinct_symbols (column m x))).
  { apply INR_pos, distinct_symbols_pos, column_nonempty. lia. }
  apply Rdiv_lt_0_compat; nra.
Qed.

(** The weight that the code computes is the weight of the formula. *)
Lemma calcSeqWeight_formula (m : Msa) (i : nat) :
  constructed m -> (1 <= ncol m)%nat -> (i < nseq m)%nat ->
  WEntStat.calcSeqWeight m i = Fin (henikoff_weight m i).
Proof.
  intros C Hc Hi. unfold WEntStat.calcSeqWeight, getNcol, getNseq.
  rewrite for_loop_ext with
    (g := fun x w =>
       fadd w (Fin (1 / (INR (distinct_symbols (column m x))
                         * INR (occurrences (getSymbol m i x) (column m x)))))).
  - rewrite add_loop_Fin. unfold of_int.
    rewrite fdiv_Fin by (apply INR_nonzero; lia).
    unfold henikoff_weight. f_equal. lra.
  - intros x w Hx. rewrite count_loop_occurrences.
    now rewrite weight_term.
Qed.

Local Close Scope R_scope.



(** ** Updates of a vector and of an array of rows *)

Lemma update_update (A : Type) (l : list A) (i : nat) (f g : A -> A) :
  update (update l i f) i g = update l i (fun v => g (f v)).
Proof.
  revert i. induction l as [|a l IH]; intros [|i]; simpl; auto.
  now rewrite IH.
Qed.

Lemma update_same (A : Type) (l : list A) (i : nat) (f g : A -> A) (d : A) :
  f (nth i l d) = g (nth i l d) -> update l i f = update l i g.
Proof.
  revert i. induction l as [|a l IH]; intros [|i]; simpl; intros H; auto.
  - now rewrite H.
  - now rewrite (IH i H).
Qed.

Lemma update_last (A : Type) (pre : list A) (v : A) (f : A -> A) :
  update (pre ++ [v]) (length pre) f = pre ++ [f v].
Proof. apply update_app_head. Qed.

Lemma prefix_row_length (A : Type) (f g : nat -> A) (K a : nat) :
  a <= K -> length (prefix_row f g K a) = K.
Proof.
  intros H. unfold prefix_row.
  rewrite length_app, !length_map, !length_seq. lia.
Qed.

Lemma prefix_row_0 (A : Type) (f g : nat -> A) (K : nat) :
  prefix_row f g K 0 = map g (seq 0 K).
Proof. unfold prefix_row. simpl. now rewrite Nat.sub_0_r. Qed.

Lemma prefix_row_full (A : Type) (f g : nat -> A) (K : nat) :
  prefix_row f g K K = map f (seq 0 K).
Proof. unfold prefix_row. rewrite Nat.sub_diag. simpl. now rewrite app_nil_r. Qed.

Lemma prefix_row_nth_next (A : Type) (f g : nat -> A) (K a : nat) (d : A) :
  a < K -> nth a (prefix_row f g K a) d = g a.
Proof.
  intros H. unfold prefix_row.
  rewrite app_nth2 by (rewrite length_map, length_seq; lia).
  rewrite length_map, length_seq, Nat.sub_diag.
  destruct (K - a) eqn:E; [lia|]. reflexivity.
Qed.

Lemma prefix_row_nth_done (A : Type) (f g : nat -> A) (K a i : nat) (d : A) :
  i < a -> nth i (prefix_row f g K a) d = f i.
Proof.
  intros H. unfold prefix_row.
  rewrite app_nth1 by (rewrite length_map, length_seq; lia).
  now apply nth_map_seq.
Qed.

(** Writing the next cell of the row. *)
Lemma prefix_row_step (A : Type) (f g : nat -> A) (K a : nat) (h : A -> A) :
  a < K -> h (g a) = f a ->
  update (prefix_row f g K a) a h = prefix_row f g K (S a).
Proof.
  intros Ha Hh. unfold prefix_row.
  destruct (K - a) as [|k] eqn:E; [lia|].
  replace (K - S a) with k by lia. simpl map at 2.
  pose proof (@update_app_head A (map f (seq 0 a)) (map g (seq (S a) k))
                (g a) h) as U.
  rewrite length_map, length_seq in U. rewrite U, Hh.
  rewrite seq_S, map_app. simpl. now rewrite <- app_assoc.
Qed.

Lemma map_const_repeat (A : Type) (d : A) (n k : nat) :
  map (fun _ => d) (seq k n) = repeat d n.
Proof.
  revert k. induction n as [|n IH]; simpl; intros k; auto. now rewrite IH.
Qed.

Lemma get2_update_row (v : list (list float)) (x a : nat) (row : list float) :
  x < length v ->
  get2 (update v x (fun _ => row)) x a = nth a row (Fin 0).
Proof.
  intros H. unfold get2. now rewrite nth_update_eq.
Qed.

Lemma update2_update_row (A : Type) (v : list (list A)) (x a : nat)
    (row : list A) (h : A -> A) :
  update2 (update v x (fun _ => row)) x a h
  = update v x (fun _ => update row a h).
Proof. unfold update2. now rewrite update_update. Qed.

Lemma update_row_self (A : Type) (v : list (list A)) (x : nat) :
  update v x (fun _ => nth x v []) = v.
Proof.
  revert x. induction v as [|r v IH]; intros [|x]; simpl; auto.
  now rewrite IH.
Qed.

(** ** The weighted probabilities *)

(** A loop that adds the values of the indices that pass a test. *)
Lemma add_if_loop_Fin (test : nat -> bool) (g : nat -> R) (n : nat) (a : R) :
  for_loop n (fun j p => if test j then fadd p (Fin (g j)) else p) (Fin a)
  = Fin (a + Rsum g (filter test (seq 0 n))).
Proof.
  induction n as [|n IH].
  - rewrite for_loop_0. simpl. f_equal. lra.
  - rewrite for_loop_S, IH, seq_S, filter_app, Rsum_app. simpl.
    destruct (test n); simpl; f_equal; lra.
Qed.

Lemma seq_weight_loop (m : Msa) :
  for_loop (nseq m) (fun seq sw => sw ++ [WEntStat.calcSeqWeight m seq]) []
  = map (WEntStat.calcSeqWeight m) (seq 0 (nseq m)).
Proof. now rewrite push_back_loop. Qed.

(** [add_weights], started on zero, is the weighted probability of the
    symbol at position [a] of the alphabet. *)
Lemma add_weights_probability (m : Msa) (x a : nat) :
  constructed m -> 1 <= ncol m ->
  add_weights m (alphabet m)
    (map (WEntStat.calcSeqWeight m) (seq 0 (nseq m))) x a (Fin 0)
  = Fin (weighted_probability m x (char_at (alphabet m) a)).
Proof.
  intros C Hc. unfold add_weights, getNseq.
  rewrite for_loop_ext with
    (g := fun j p =>
       if Ascii.eqb (getSymbol m j x) (char_at (alphabet m) a)
       then fadd p (Fin (henikoff_weight m j)) else p).
  - rewrite add_if_loop_Fin. unfold weighted_probability. f_equal. lra.
  - intros j p Hj.
    rewrite nth_map_seq by exact Hj.
    now rewrite calcSeqWeight_formula.
Qed.

Local Open Scope R_scope.

Lemma henikoff_weight_pos (m : Msa) (i : nat) :
  (1 <= ncol m)%nat -> (i < nseq m)%nat -> 0 < henikoff_weight m i.
Proof.
  intros Hc Hi. unfold henikoff_weight.
  assert (HL : 0 < INR (ncol m)) by (apply INR_pos; lia).
  apply Rmult_lt_0_compat.
  - apply Rdiv_lt_0_compat; lra.
  - destruct (ncol m) as [|n]; [lia|]. rewrite seq_S, Rsum_app. simpl.
    pose proof (@weight_term_pos m i n Hi).
    assert (0 <= Rsum (fun x =>
              1 / (INR (distinct_symbols (column m x))
                   * INR (occurrences (getSymbol m i x) (column m x))))
              (seq 0 n)).
    { apply Rsum_nonneg. intros x _. left. now apply weight_term_pos. }
    lra.
Qed.

Lemma weighted_probability_nonneg (m : Msa) (x : nat) (a : ascii) :
  (1 <= ncol m)%nat -> 0 <= weighted_probability m x a.
Proof.
  intros Hc. unfold weighted_probability. apply Rsum_nonneg.
  intros j Hj. apply filter_In in Hj. destruct Hj as [Hj _].
  apply in_seq in Hj. left. apply henikoff_weight_pos; lia.
Qed.

Local Close Scope R_scope.

(** ** The weighted entropy of a column *)

Local Open Scope R_scope.

Lemma entropy_acc_Fin (p : nat -> R) (a : nat) :
  (forall i, 0 <= p i) ->
  entropy_acc p a
  = Fin (- Rsum (fun i => p i * ln (p i))
             (filter (fun i => negb (is_zero (p i))) (seq 0 a))).
Proof.
  intros Hp. unfold entropy_acc. induction a as [|a IH].
  - rewrite for_loop_0. simpl. f_equal. lra.
  - rewrite for_loop_S, IH, seq_S, filter_app, Rsum_app. simpl filter.
    unfold fneb. destruct (Req_dec_T (p a) 0) as [E|E].
    + rewrite feqb_Fin_true, is_zero_true by exact E. simpl. f_equal. lra.
    + rewrite feqb_Fin_false, is_zero_false by exact E. simpl negb. cbv iota.
      rewrite flog_Fin by (specialize (Hp a); lra).
      simpl. f_equal. lra.
Qed.

Lemma Rsum_map (A B : Type) (f : B -> R) (h : A -> B) (l : list A) :
  Rsum f (map h l) = Rsum (fun x => f (h x)) l.
Proof. induction l as [|x l IH]; simpl; [reflexivity|now rewrite IH]. Qed.

Lemma filter_map_comm (A B : Type) (t : B -> bool) (h : A -> B) (l : list A) :
  filter t (map h l) = map h (filter (fun x => t (h x)) l).
Proof.
  induction l as [|x l IH]; simpl; [reflexivity|].
  destruct (t (h x)); simpl; now rewrite IH.
Qed.

Lemma str_as_map (s : str) : s = map (char_at s) (seq 0 (length s)).
Proof.
  induction s as [|c s IH]; [reflexivity|].
  simpl length. rewrite <- cons_seq, <- seq_shift. simpl map.
  rewrite map_map. f_equal. exact IH.
Qed.

(** A sum over the positions of a string is a sum over its symbols. *)
Lemma Rsum_positions (s : str) (f : ascii -> R) (t : ascii -> bool) :
  Rsum (fun i => f (char_at s i))
    (filter (fun i => t (char_at s i)) (seq 0 (length s)))
  = Rsum f (filter t s).
Proof.
  replace (filter t s) with (filter t (map (char_at s) (seq 0 (length s))))
    by (now rewrite <- str_as_map).
  now rewrite filter_map_comm, Rsum_map.
Qed.

Lemma MIN_min (x y : nat) : MIN x y = Nat.min x y.
Proof. unfold MIN. destruct (Nat.ltb_spec x y); lia. Qed.

Lemma ln_ge_2_pos (n : nat) : (2 <= n)%nat -> 0 < ln (INR n).
Proof.
  intros H. rewrite <- ln_1. apply ln_increasing; [lra|].
  apply le_INR in H. simpl in H. lra.
Qed.

(** [lambda] is a finite number when the smaller of the two sizes is at
    least two. *)
Lemma lambda_Fin (m : Msa) :
  (2 <= Nat.min (length (alphabet m)) (nseq m))%nat ->
  fdiv (Fin 1) (flog (of_int (MIN (length (alphabet m)) (nseq m))))
  = Fin (entropy_lambda m).
Proof.
  intros H. rewrite MIN_min. unfold of_int, entropy_lambda.
  pose proof (ln_ge_2_pos H) as Hln.
  rewrite flog_Fin.
  - apply fdiv_Fin. lra.
  - apply INR_pos. lia.
Qed.

Local Close Scope R_scope.

(** ** The loops of [WEntStat::calculateStatistic] *)

Lemma entropy_acc_S (p : nat -> R) (a : nat) :
  entropy_acc p (S a)
  = if fneb (Fin (p a)) (Fin 0)
    then fsub (entropy_acc p a) (fmul (Fin (p a)) (flog (Fin (p a))))
    else entropy_acc p a.
Proof. unfold entropy_acc. now rewrite for_loop_S. Qed.

Section WEntLoops.

Variable m : Msa.
Hypothesis built : constructed m.
Hypothesis one_column : 1 <= ncol m.

Let K : nat := length (alphabet m).
Let sw : list float := map (WEntStat.calcSeqWeight m) (seq 0 (nseq m)).
Let p (x a : nat) : R := weighted_probability m x (char_at (alphabet m) a).
Let zero_row : list float := repeat (Fin 0) K.
Let full_row (x : nat) : list float := map (fun a => Fin (p x a)) (seq 0 K).

(** The loop over the alphabet, for column [x]: it fills row [x] of [proba],
    which holds zeros, and accumulates [col_cons[x]], the last element. *)
Lemma wentropy_alphabet_loop (x : nat) (proba : list (list float))
    (pre : list float) :
  x < length proba -> nth x proba [] = zero_row -> length pre = x ->
  for_loop K (fun a '(proba, col_cons) =>
      let proba := update2 proba x a (add_weights m (alphabet m) sw x a) in
      let col_cons :=
        if fneb (get2 proba x a) (Fin 0)
        then update col_cons x (fun c =>
               fsub c (fmul (get2 proba x a) (flog (get2 proba x a))))
        else col_cons in
      (proba, col_cons)) (proba, pre ++ [Fin 0])
  = (update proba x (fun _ => full_row x), pre ++ [entropy_acc (p x) K]).
Proof.
  intros Hx Hrow Hpre.
  set (body := fun a '(proba, col_cons) => _).
  assert (Inv : forall a, a <= K ->
    for_loop a body (proba, pre ++ [Fin 0])
    = (update proba x (fun _ =>
         prefix_row (fun a => Fin (p x a)) (fun _ => Fin 0) K a),
       pre ++ [entropy_acc (p x) a])).
  { induction a as [|a IH]; intros Ha.
    - rewrite for_loop_0, prefix_row_0, map_const_repeat.
      fold zero_row. rewrite <- Hrow, update_row_self. reflexivity.
    - rewrite for_loop_S, IH by lia. unfold body at 1.
      rewrite update2_update_row.
      rewrite (@prefix_row_step _ _ _ K a _ Ha
                 (add_weights_probability x a built one_column)).
      rewrite get2_update_row by exact Hx.
      rewrite prefix_row_nth_done by lia.
      rewrite entropy_acc_S. fold (p x a).
      destruct (fneb (Fin (p x a)) (Fin 0)); [|reflexivity].
      rewrite <- Hpre, update_last. reflexivity. }
  rewrite Inv by lia. now rewrite prefix_row_full.
Qed.

(** The loop over the columns. *)
Lemma wentropy_column_loop (lambda : float) :
  for_loop (ncol m) (fun x '(proba, col_cons) =>
      let col_cons := col_cons ++ [Fin 0] in
      let '(proba, col_cons) :=
        for_loop K (fun a '(proba, col_cons) =>
          let proba := update2 proba x a (add_weights m (alphabet m) sw x a) in
          let col_cons :=
            if fneb (get2 proba x a) (Fin 0)
            then update col_cons x (fun c =>
                   fsub c (fmul (get2 proba x a) (flog (get2 proba x a))))
            else col_cons in
          (proba, col_cons)) (proba, col_cons) in
      (proba, update col_cons x (fun c => fmul c lambda)))
    (repeat zero_row (ncol m), [])
  = (map full_row (seq 0 (ncol m)),
     map (fun x => fmul (entropy_acc (p x) K) lambda) (seq 0 (ncol m))).
Proof.
  set (body := fun x '(proba, col_cons) => _).
  assert (Inv : forall x, x <= ncol m ->
    for_loop x body (repeat zero_row (ncol m), [])
    = (prefix_row full_row (fun _ => zero_row) (ncol m) x,
       map (fun x => fmul (entropy_acc (p x) K) lambda) (seq 0 x))).
  { induction x as [|x IH]; intros Hx.
    - rewrite for_loop_0, prefix_row_0, map_const_repeat. reflexivity.
    - rewrite for_loop_S, IH by lia. unfold body at 1.
      rewrite wentropy_alphabet_loop.
      + rewrite (@prefix_row_step _ full_row (fun _ => zero_row) (ncol m) x
                   (fun _ => full_row x) Hx eq_refl).
        pose proof (@update_last _
          (map (fun x => fmul (entropy_acc (p x) K) lambda) (seq 0 x))
          (entropy_acc (p x) K) (fun c => fmul c lambda)) as U.
        rewrite length_map, length_seq in U. rewrite U.
        rewrite seq_S, map_app. reflexivity.
      + rewrite prefix_row_length; lia.
      + now rewrite prefix_row_nth_next.
      + now rewrite length_map, length_seq. }
  rewrite Inv by lia. now rewrite prefix_row_full.
Qed.

(** What [compute] leaves in a new object. *)
Lemma wentropy_compute :
  WEntStat.compute m WEntStat.fresh
  = WEntStat.mk (ncol m) (nseq m) (map full_row (seq 0 (ncol m))) sw
      (map (fun x =>
         fmul (entropy_acc (p x) K)
              (fdiv (Fin 1) (flog (of_int (MIN K (nseq m))))))
         (seq 0 (ncol m))).
Proof.
  unfold WEntStat.compute, getNcol, getNseq, getAlphabet.
  cbn [WEntStat.seq_weight WEntStat.col_cons WEntStat.fresh].
  rewrite seq_weight_loop. fold sw. fold K. fold zero_row.
  rewrite wentropy_column_loop. reflexivity.
Qed.

End WEntLoops.

Lemma constructed_getGap (m : Msa) (x : nat) :
  constructed m -> x < ncol m -> getGap m x = gaps_in (column m x).
Proof.
  intros C Hx. unfold getGap. rewrite (built_gaps C). now rewrite nth_map_seq.
Qed.

Local Open Scope R_scope.

(** The value of [col_cons[x]] once multiplied by [lambda]. *)
Lemma wentropy_col_cons (m : Msa) (x : nat) :
  (1 <= ncol m)%nat ->
  (2 <= Nat.min (length (alphabet m)) (nseq m))%nat ->
  fmul (entropy_acc
          (fun a => weighted_probability m x (char_at (alphabet m) a))
          (length (alphabet m)))
       (fdiv (Fin 1) (flog (of_int (MIN (length (alphabet m)) (nseq m)))))
  = Fin (weighted_entropy m x).
Proof.
  intros Hc Hmin. rewrite lambda_Fin by exact Hmin.
  rewrite entropy_acc_Fin by (intros; now apply weighted_probability_nonneg).
  rewrite (Rsum_positions (alphabet m)
             (fun c => weighted_probability m x c
                       * ln (weighted_probability m x c))
             (fun c => negb (is_zero (weighted_probability m x c)))).
  simpl. unfold weighted_entropy. f_equal. lra.
Qed.


Local Close Scope R_scope.



(** ** The Jensen-Shannon statistic returns before it writes *)

(** C4: for every alignment model, every object and every state of the
    output destination, [JensenStat::calculateStatistic] returns at its
    [return;] statement: the statements that open and write the output file
    are not reached, and the world is left as it was. *)
Theorem jensen_leaves_output_unchanged (m : Msa) (this : JensenStat.t)
    (w : World) :
  JensenStat.calculateStatistic m (this, w)
  = Returned (JensenStat.empty_loops m (JensenStat.compute m this), w)
  /\ exists this',
       result (JensenStat.calculateStatistic m (this, w)) = Done (this', w).
Proof.
  split.
  - reflexivity.
  - eexists. reflexivity.
Qed.

(** ** Sums of real numbers *)

Local Open Scope R_scope.

Lemma Rsum_filter (A : Type) (f : A -> R) (t : A -> bool) (l : list A) :
  Rsum f (filter t l) = Rsum (fun x => if t x then f x else 0) l.
Proof.
  induction l as [|x l IH]; simpl; [reflexivity|].
  destruct (t x); simpl; rewrite IH; lra.
Qed.

Lemma Rsum_plus (A : Type) (f g : A -> R) (l : list A) :
  Rsum (fun x => f x + g x) l = Rsum f l + Rsum g l.
Proof. induction l as [|x l IH]; simpl; [lra|rewrite IH; lra]. Qed.

Lemma Rsum_zero (A : Type) (l : list A) : Rsum (fun _ => 0) l = 0.
Proof. induction l as [|x l IH]; simpl; [lra|rewrite IH; lra]. Qed.

Lemma Rsum_const (A : Type) (c : R) (l : list A) :
  Rsum (fun _ => c) l = INR (length l) * c.
Proof.
  induction l as [|x l IH]; [simpl; lra|].
  cbn [Rsum fold_right length]. rewrite S_INR. fold (Rsum (fun _ : A => c) l).
  rewrite IH. lra.
Qed.

Lemma Rsum_scal_l (A : Type) (f : A -> R) (c : R) (l : list A) :
  Rsum (fun x => c * f x) l = c * Rsum f l.
Proof. induction l as [|x l IH]; simpl; [lra|rewrite IH; lra]. Qed.

Lemma Rsum_swap (A B : Type) (f : A -> B -> R) (la : list A) (lb : list B) :
  Rsum (fun x => Rsum (fun y => f x y) lb) la
  = Rsum (fun y => Rsum (fun x => f x y) la) lb.
Proof.
  induction la as [|x la IH]; simpl.
  - now rewrite Rsum_zero.
  - rewrite IH. now rewrite <- Rsum_plus.
Qed.

Lemma Rsum_le (A : Type) (f g : A -> R) (l : list A) :
  (forall x, In x l -> f x <= g x) -> Rsum f l <= Rsum g l.
Proof.
  induction l as [|x l IH]; simpl; intros H; [lra|].
  assert (f x <= g x) by (apply H; now left).
  assert (Rsum f l <= Rsum g l) by (apply IH; intros; apply H; now right).
  lra.
Qed.

(** In a string without repetition exactly one symbol is equal to [c]. *)
Lemma Rsum_indicator (D : str) (c : ascii) (v : R) :
  NoDup D -> In c D ->
  Rsum (fun d => if Ascii.eqb c d then v else 0) D = v.
Proof.
  induction D as [|d D IH]; simpl; intros Hnd Hin; [contradiction|].
  inversion Hnd as [|? ? Hnotin Hnd']; subst.
  destruct (Ascii.eqb_spec c d) as [->|Hne].
  - rewrite (Rsum_ext _ (fun _ => 0)); [rewrite Rsum_zero; lra|].
    intros e He. destruct (Ascii.eqb_spec d e) as [->|]; [contradiction|auto].
  - destruct Hin as [->|Hin]; [congruence|]. rewrite IH by assumption. lra.
Qed.

(** A sum over a string, grouped by symbol. *)
Lemma Rsum_group (D l : str) (g : ascii -> R) :
  NoDup D -> (forall c, In c l -> In c D) ->
  Rsum g l = Rsum (fun d => INR (occurrences d l) * g d) D.
Proof.
  intros Hnd. induction l as [|c l IH]; intros Hin.
  - unfold occurrences. simpl.
    rewrite (Rsum_ext _ (fun _ => 0)); [now rewrite Rsum_zero|].
    intros; lra.
  - cbn [Rsum fold_right]. fold (Rsum g l).
    rewrite IH by (intros; apply Hin; now right).
    rewrite <- (@Rsum_indicator D c (g c) Hnd (Hin c (or_introl eq_refl))).
    rewrite <- Rsum_plus. apply Rsum_ext. intros d _.
    unfold occurrences. cbn [count_occ].
    destruct (Ascii.eqb_spec c d) as [->|Hne].
    + destruct (ascii_dec d d); [|congruence]. rewrite S_INR. lra.
    + destruct (ascii_dec c d); [congruence|]. lra.
Qed.

(** ** The weights add up to one *)

Lemma column_as_map (m : Msa) (x : nat) (g : ascii -> R) :
  Rsum (fun j => g (getSymbol m j x)) (seq 0 (nseq m)) = Rsum g (column m x).
Proof. unfold column. now rewrite Rsum_map. Qed.

(** In a column, the inverses of the numbers of occurrences add up to the
    number of distinct symbols. *)
Lemma inverse_occurrences_sum (l : str) :
  Rsum (fun c => 1 / INR (occurrences c l)) l = INR (distinct_symbols l).
Proof.
  rewrite (@Rsum_group (nodup ascii_dec l) l).
  - rewrite (Rsum_ext _ (fun _ => 1)).
    + rewrite Rsum_const. unfold distinct_symbols. lra.
    + intros d Hd. apply nodup_In in Hd.
      assert (0 < INR (occurrences d l)) by (apply INR_pos, occurrences_pos, Hd).
      field. lra.
  - apply NoDup_nodup.
  - intros c Hc. now apply nodup_In.
Qed.

Lemma henikoff_weights_sum (m : Msa) :
  (1 <= nseq m)%nat -> (1 <= ncol m)%nat ->
  Rsum (henikoff_weight m) (seq 0 (nseq m)) = 1.
Proof.
  intros Hs Hc. unfold henikoff_weight.
  rewrite Rsum_scal_l, Rsum_swap.
  rewrite (Rsum_ext _ (fun _ => 1)).
  - rewrite Rsum_const, length_seq.
    assert (0 < INR (ncol m)) by (apply INR_pos; lia). field. lra.
  - intros x _.
    assert (Hk : 0 < INR (distinct_symbols (column m x))).
    { apply INR_pos, distinct_symbols_pos, column_nonempty. lia. }
    rewrite (Rsum_ext _ (fun j =>
               / INR (distinct_symbols (column m x))
               * (1 / INR (occurrences (getSymbol m j x) (column m x))))).
    + rewrite Rsum_scal_l.
      rewrite (column_as_map m x
                 (fun c => 1 / INR (occurrences c (column m x)))).
      rewrite inverse_occurrences_sum. field. lra.
    + intros j Hj. apply in_seq in Hj.
      assert (0 < INR (occurrences (getSymbol m j x) (column m x))).
      { apply INR_pos, occurrences_pos, In_column. lia. }
      field. lra.
Qed.

(** The weighted probabilities of the symbols of the alphabet add up to the
    sum of the weights, that is to one. *)
Lemma weighted_probabilities_sum (m : Msa) (x : nat) :
  constructed m -> (1 <= nseq m)%nat -> (x < ncol m)%nat ->
  Rsum (weighted_probability m x) (alphabet m) = 1.
Proof.
  intros C Hs Hx. unfold weighted_probability.
  rewrite (Rsum_ext _ (fun a =>
             Rsum (fun j => if Ascii.eqb (getSymbol m j x) a
                            then henikoff_weight m j else 0)
                  (seq 0 (nseq m))))
    by (intros; apply Rsum_filter).
  rewrite Rsum_swap.
  rewrite (Rsum_ext _ (henikoff_weight m)).
  - apply henikoff_weights_sum; lia.
  - intros j Hj. apply in_seq in Hj. apply Rsum_indicator.
    + now apply constructed_alphabet_NoDup.
    + apply constructed_alphabet_In; [exact C|]. apply In_cells; lia.
Qed.

Local Close Scope R_scope.

(** ** A lower bound of the weights *)

Lemma distinct_symbols_le (s : str) : distinct_symbols s <= length s.
Proof.
  unfold distinct_symbols. apply NoDup_incl_length; [apply NoDup_nodup|].
  intros c Hc. now apply nodup_In in Hc.
Qed.

Lemma occurrences_le (c : ascii) (s : str) : occurrences c s <= length s.
Proof. unfold occurrences. apply count_occ_bound. Qed.

Local Open Scope R_scope.

Lemma Rsum_member_le (A : Type) (f : A -> R) (l : list A) (y : A) :
  (forall x, In x l -> 0 <= f x) -> In y l -> f y <= Rsum f l.
Proof.
  induction l as [|x l IH]; simpl; intros Hpos Hin; [contradiction|].
  assert (0 <= f x) by (apply Hpos; now left).
  assert (0 <= Rsum f l) by (apply Rsum_nonneg; intros; apply Hpos; now right).
  destruct Hin as [->|Hin]; [lra|].
  assert (f y <= Rsum f l) by (apply IH; auto). lra.
Qed.

Lemma weight_term_lower (m : Msa) (i x : nat) :
  (i < nseq m)%nat ->
  1 / (INR (nseq m) * INR (nseq m))
  <= 1 / (INR (distinct_symbols (column m x))
          * INR (occurrences (getSymbol m i x) (column m x))).
Proof.
  intros Hi.
  assert (Hn : 0 < INR (occurrences (getSymbol m i x) (column m x))).
  { apply INR_pos, occurrences_pos. now apply In_column. }
  assert (Hk : 0 < INR (distinct_symbols (column m x))).
  { apply INR_pos, distinct_symbols_pos, column_nonempty. lia. }
  assert (Hn' : INR (occurrences (getSymbol m i x) (column m x)) <= INR (nseq m)).
  { apply le_INR.
    pose proof (occurrences_le (getSymbol m i x) (column m x)) as Ho.
    now rewrite column_length in Ho. }
  assert (Hk' : INR (distinct_symbols (column m x)) <= INR (nseq m)).
  { apply le_INR. pose proof (distinct_symbols_le (column m x)) as Hd.
    now rewrite column_length in Hd. }
  unfold Rdiv. rewrite !Rmult_1_l. apply Rinv_le_contravar; nra.
Qed.

Lemma henikoff_weight_lower (m : Msa) (i : nat) :
  (1 <= ncol m)%nat -> (i < nseq m)%nat ->
  1 / (INR (nseq m) * INR (nseq m)) <= henikoff_weight m i.
Proof.
  intros Hc Hi. unfold henikoff_weight.
  assert (HL : 0 < INR (ncol m)) by (apply INR_pos; lia).
  set (c := 1 / (INR (nseq m) * INR (nseq m))).
  assert (H : INR (ncol m) * c
              <= Rsum (fun x =>
                   1 / (INR (distinct_symbols (column m x))
                        * INR (occurrences (getSymbol m i x) (column m x))))
                   (seq 0 (ncol m))).
  { pose proof (Rsum_const c (seq 0 (ncol m))) as E.
    rewrite length_seq in E. rewrite <- E.
    apply Rsum_le. intros x _. now apply weight_term_lower. }
  apply Rmult_le_compat_l with (r := 1 / INR (ncol m)) in H.
  - replace (1 / INR (ncol m) * (INR (ncol m) * c)) with c in H
      by (field; lra).
    exact H.
  - left. apply Rdiv_lt_0_compat; lra.
Qed.

(** A weighted probability that is not zero is at least [1 / nseq^2]. *)
Lemma weighted_probability_lower (m : Msa) (x : nat) (a : ascii) :
  (1 <= ncol m)%nat -> weighted_probability m x a <> 0 ->
  1 / (INR (nseq m) * INR (nseq m)) <= weighted_probability m x a.
Proof.
  intros Hc Hne. unfold weighted_probability in *.
  destruct (filter (fun j => Ascii.eqb (getSymbol m j x) a) (seq 0 (nseq m)))
    as [|j l] eqn:E.
  - simpl in Hne. congruence.
  - assert (Hj : In j (filter (fun j => Ascii.eqb (getSymbol m j x) a)
                         (seq 0 (nseq m)))) by (rewrite E; now left).
    rewrite <- E.
    apply Rle_trans with (henikoff_weight m j).
    + apply henikoff_weight_lower; [exact Hc|].
      apply filter_In in Hj. destruct Hj as [Hj _]. apply in_seq in Hj. lia.
    + apply Rsum_member_le; [|exact Hj].
      intros k Hk. apply filter_In in Hk. destruct Hk as [Hk _].
      apply in_seq in Hk. left. apply henikoff_weight_pos; lia.
Qed.

(** [pow(10.0,-6.0)] is one millionth. *)
Lemma pseudo_value : JensenStat.pseudo = Fin (/ 1000000).
Proof.
  unfold JensenStat.pseudo, fpow.
  rewrite is_zero_false by lra. rewrite is_pos_true by lra. f_equal.
  replace (-6) with (- INR 6) by (simpl; lra).
  rewrite Rpower_Ropp, Rpower_pow by lra. f_equal. lra.
Qed.

(** With at most 500 rows, a weighted probability that is not zero is
    greater than the pseudo-count. *)
Lemma weighted_probability_above_pseudo (m : Msa) (x : nat) (a : ascii) :
  (1 <= nseq m <= 500)%nat -> (1 <= ncol m)%nat ->
  weighted_probability m x a <> 0 ->
  / 1000000 < weighted_probability m x a.
Proof.
  intros [Hs1 Hs2] Hc Hne.
  pose proof (@weighted_probability_lower m x a Hc Hne) as H.
  assert (H1 : 1 <= INR (nseq m)) by (apply le_INR in Hs1; simpl in Hs1; lra).
  assert (H2 : INR (nseq m) <= 500).
  { apply le_INR in Hs2.
    assert (E : INR 500 = 500) by (rewrite INR_IZR_INZ; reflexivity).
    lra. }
  assert (H3 : / 250000 <= 1 / (INR (nseq m) * INR (nseq m))).
  { unfold Rdiv. rewrite Rmult_1_l. apply Rinv_le_contravar; nra. }
  lra.
Qed.

Local Close Scope R_scope.

(** ** The loops of [JensenStat::calculateStatistic] *)

Lemma update_id (A : Type) (l : list A) (i : nat) :
  update l i (fun v => v) = l.
Proof.
  revert i. induction l as [|a l IH]; intros [|i]; simpl; auto.
  now rewrite IH.
Qed.

Lemma prefix_row_same (A : Type) (f g : nat -> A) (K a : nat) :
  a < K -> g a = f a -> prefix_row f g K (S a) = prefix_row f g K a.
Proof.
  intros Ha E.
  rewrite <- (@prefix_row_step A f g K a (fun v => v) Ha E).
  now rewrite update_id.
Qed.

Lemma count_seq_S (t : nat -> bool) (a : nat) :
  length (filter t (seq 0 (S a)))
  = length (filter t (seq 0 a)) + (if t a then 1 else 0).
Proof.
  rewrite seq_S, filter_app, length_app. simpl. now destruct (t a).
Qed.

Section JensenLoops.

Variable m : Msa.
Hypothesis built : constructed m.
Hypothesis one_column : 1 <= ncol m.

Let K : nat := length (alphabet m).
Let sw : list float := map (WEntStat.calcSeqWeight m) (seq 0 (nseq m)).
Let p (x a : nat) : R := weighted_probability m x (char_at (alphabet m) a).
Let zero_row : list float := repeat (Fin 0) K.

Let q (x a : nat) : float := pseudo_entry (p x a).
Let nb (x a : nat) : nat := absent_count (p x) a.
Let pseudo_counts (x : nat) : float := pseudo_reduction (p x) K.
Let r (x a : nat) : float := adjusted_entry (p x) K a.

Lemma jensen_first_loop (x : nat) (proba : list (list float)) :
  x < length proba -> nth x proba [] = zero_row ->
  for_loop K (fun a '(proba, nb_abs) =>
      let proba :=
        update2 proba x a (add_weights m (alphabet m) sw x a) in
      if feqb (get2 proba x a) (Fin 0)
      then (update2 proba x a (fun _ => JensenStat.pseudo), S nb_abs)
      else (proba, nb_abs)) (proba, 0)
  = (update proba x (fun _ => map (q x) (seq 0 K)), nb x K).
Proof.
  intros Hx Hrow.
  set (body := fun a '(proba, nb_abs) => _).
  assert (Inv : forall a, a <= K ->
    for_loop a body (proba, 0)
    = (update proba x (fun _ => prefix_row (q x) (fun _ => Fin 0) K a),
       nb x a)).
  { induction a as [|a IH]; intros Ha.
    - rewrite for_loop_0, prefix_row_0, map_const_repeat.
      fold zero_row. rewrite <- Hrow, update_row_self. reflexivity.
    - rewrite for_loop_S, IH by lia. unfold body at 1.
      rewrite update2_update_row, get2_update_row by exact Hx.
      rewrite nth_update_eq by (rewrite prefix_row_length; lia).
      rewrite prefix_row_nth_next by exact Ha.
      pose proof (add_weights_probability x a built one_column) as Hp.
      fold sw in Hp. fold (p x a) in Hp. rewrite Hp.
      rewrite update2_update_row, update_update.
      destruct (feqb (Fin (p x a)) (Fin 0)) eqn:E.
      + rewrite (@prefix_row_step _ (q x) (fun _ => Fin 0) K a _ Ha)
          by (unfold q, pseudo_entry; now rewrite E).
        f_equal. unfold nb, absent_count. rewrite count_seq_S, E. lia.
      + rewrite (@prefix_row_step _ (q x) (fun _ => Fin 0) K a _ Ha)
          by (rewrite Hp; unfold q, pseudo_entry; now rewrite E).
        f_equal. unfold nb, absent_count. rewrite count_seq_S, E. lia. }
  rewrite Inv by lia. now rewrite prefix_row_full.
Qed.

Lemma jensen_second_loop (x : nat) (proba : list (list float)) (pc : float) :
  x < length proba -> nth x proba [] = map (q x) (seq 0 K) ->
  pc = pseudo_counts x ->
  for_loop K (fun a proba =>
      if fgtb (get2 proba x a) JensenStat.pseudo
      then update2 proba x a (fun p => fsub p pc)
      else proba) proba
  = update proba x (fun _ => map (r x) (seq 0 K)).
Proof.
  intros Hx Hrow ->.
  set (body := fun a proba => _).
  assert (Inv : forall a, a <= K ->
    for_loop a body proba
    = update proba x (fun _ => prefix_row (r x) (q x) K a)).
  { induction a as [|a IH]; intros Ha.
    - rewrite for_loop_0, prefix_row_0, <- Hrow, update_row_self. reflexivity.
    - rewrite for_loop_S, IH by lia. unfold body at 1.
      rewrite get2_update_row by exact Hx.
      rewrite prefix_row_nth_next by exact Ha.
      destruct (fgtb (q x a) JensenStat.pseudo) eqn:E.
      + rewrite update2_update_row.
        rewrite (@prefix_row_step _ (r x) (q x) K a _ Ha)
          by (unfold r, adjusted_entry; fold (q x a); now rewrite E).
        reflexivity.
      + rewrite prefix_row_same; [reflexivity|exact Ha|].
        unfold r, adjusted_entry. fold (q x a). now rewrite E. }
  rewrite Inv by lia. now rewrite prefix_row_full.
Qed.

Lemma jensen_adjust_column (x : nat) (proba : list (list float)) :
  x < length proba -> nth x proba [] = zero_row ->
  JensenStat.adjust_column m (alphabet m) sw x proba
  = update proba x (fun _ => map (r x) (seq 0 K)).
Proof.
  intros Hx Hrow. unfold JensenStat.adjust_column. fold K.
  rewrite jensen_first_loop by assumption.
  rewrite (@jensen_second_loop x _ (pseudo_counts x)).
  - now rewrite update_update.
  - now rewrite update_length.
  - now rewrite nth_update_eq.
  - reflexivity.
Qed.

Lemma jensen_proba :
  JensenStat.proba (JensenStat.compute m JensenStat.fresh)
  = map (fun x => map (r x) (seq 0 K)) (seq 0 (ncol m)).
Proof.
  unfold JensenStat.compute, getNcol, getNseq, getAlphabet.
  cbn [JensenStat.proba JensenStat.seq_weight JensenStat.fresh].
  change JensenStat.calcSeqWeight with WEntStat.calcSeqWeight.
  rewrite seq_weight_loop. fold sw. fold K. fold zero_row.
  assert (Inv : forall x, x <= ncol m ->
    for_loop x (JensenStat.adjust_column m (alphabet m) sw)
      (repeat zero_row (ncol m))
    = prefix_row (fun x => map (r x) (seq 0 K)) (fun _ => zero_row)
        (ncol m) x).
  { induction x as [|x IH]; intros Hx.
    - rewrite for_loop_0, prefix_row_0, map_const_repeat. reflexivity.
    - rewrite for_loop_S, IH by lia.
      rewrite jensen_adjust_column.
      + now apply prefix_row_step.
      + rewrite prefix_row_length; lia.
      + now rewrite prefix_row_nth_next. }
  rewrite Inv by lia. now rewrite prefix_row_full.
Qed.

End JensenLoops.

(** ** The adjusted probabilities add up to one *)

Local Open Scope R_scope.

Lemma count_split (A : Type) (t : A -> bool) (l : list A) :
  (length (filter t l) + length (filter (fun x => negb (t x)) l))%nat
  = length l.
Proof.
  induction l as [|x l IH]; simpl; [reflexivity|].
  destruct (t x); simpl; lia.
Qed.



(** One of the probabilities at least is not zero when they add up to
    one. *)
Lemma absent_count_lt (p : nat -> R) (K : nat) :
  Rsum p (seq 0 K) = 1 -> (absent_count p K < K)%nat.
Proof.
  intros Hsum.
  pose proof (count_split (fun a => is_zero (p a)) (seq 0 K)) as Hsplit.
  rewrite length_seq in Hsplit.
  unfold absent_count.
  change (fun a => feqb (Fin (p a)) (Fin 0)) with (fun a => is_zero (p a)).
  destruct (Nat.eq_dec
              (length (filter (fun a => negb (is_zero (p a))) (seq 0 K))) 0)
    as [E|E]; [|lia].
  exfalso. apply length_zero_iff_nil in E.
  assert (Hz : Rsum p (seq 0 K) = 0).
  { rewrite (Rsum_ext _ (fun _ => 0)); [apply Rsum_zero|].
    intros a Ha. destruct (Req_dec_T (p a) 0) as [E0|E0]; [exact E0|].
    exfalso.
    assert (Hin : In a (filter (fun a => negb (is_zero (p a))) (seq 0 K))).
    { apply filter_In. split; [exact Ha|]. now rewrite is_zero_false. }
    rewrite E in Hin. contradiction. }
  lra.
Qed.

(** The value of an adjusted entry, when the probabilities that are not
    zero are greater than the pseudo-count and one of them at least is not
    zero. *)
Lemma adjusted_entry_value (p : nat -> R) (K a : nat) :
  (forall i, p i <> 0 -> / 1000000 < p i) ->
  (absent_count p K < K)%nat ->
  adjusted_entry p K a
  = Fin (if is_zero (p a) then / 1000000
         else p a - INR (absent_count p K) * / 1000000
                    / INR (K - absent_count p K)).
Proof.
  intros Hp Hnb. unfold adjusted_entry, pseudo_entry, pseudo_reduction.
  rewrite pseudo_value. unfold of_int. cbn [fmul].
  rewrite fdiv_Fin by (apply INR_nonzero; lia).
  unfold is_zero. cbn [feqb].
  destruct (Req_dec_T (p a) 0) as [E|E].
  - rewrite fgtb_Fin_false by lra. reflexivity.
  - rewrite fgtb_Fin_true by (now apply Hp). reflexivity.
Qed.


Local Close Scope R_scope.



(** ** The entropy of a column *)

Lemma nth_map_in_range (A B : Type) (f : A -> B) (l : list A) (i : nat)
    (d : B) (d' : A) :
  i < length l -> nth i (map f l) d = f (nth i l d').
Proof.
  revert i. induction l as [|a l IH]; intros [|i]; simpl; intros H;
    try lia; auto. apply IH. lia.
Qed.

Lemma fold_bump_counts (alph l : str) :
  NoDup alph ->
  fold_left (bump alph) l (repeat 0 (length alph))
  = map (fun a => occurrences a l) alph.
Proof.
  intros Hnd. apply nth_ext with (d := 0) (d' := 0).
  - now rewrite fold_bump_length, repeat_length, length_map.
  - intros i Hi. rewrite fold_bump_length, repeat_length in Hi.
    rewrite fold_bump_nth by (auto; now rewrite repeat_length).
    rewrite nth_repeat_0.
    now rewrite nth_map_in_range with (d' := NUL).
Qed.

Lemma map_update (A B : Type) (F : A -> B) (l : list A) (i : nat)
    (f : A -> A) (g : B -> B) :
  (forall a, F (f a) = g (F a)) ->
  map F (update l i f) = update (map F l) i g.
Proof.
  intros H. revert i. induction l as [|a l IH]; intros [|i]; simpl; auto.
  - now rewrite H.
  - now rewrite IH.
Qed.

Lemma lfreq_fold (alph l : str) (counts : list nat) :
  fold_left (fun lfreq c =>
      match find alph c with
      | Some pos => update lfreq pos (fun f => fadd f (Fin 1))
      | None => lfreq
      end) l (map of_int counts)
  = map of_int (fold_left (bump alph) l counts).
Proof.
  revert counts. induction l as [|c l IH]; intros counts; [reflexivity|].
  cbn [fold_left]. unfold bump at 2.
  destruct (find alph c) as [pos|]; [|apply IH].
  rewrite <- IH. f_equal. symmetry. apply map_update.
  intros n. unfold of_int. rewrite S_INR. reflexivity.
Qed.

(** [lfreq] holds, for each symbol of the alphabet, the number of its
    occurrences in the column. *)
Lemma column_lfreq_counts (m : Msa) (col : nat) :
  NoDup (alphabet m) ->
  column_lfreq m col
  = map (fun a => of_int (occurrences a (column m col))) (alphabet m).
Proof.
  intros Hnd. unfold column_lfreq, getAaPos.
  rewrite (rows_loop_column m col
    (fun c lfreq =>
       match find (alphabet m) c with
       | Some pos => update lfreq pos (fun f => fadd f (Fin 1))
       | None => lfreq
       end)).
  rewrite <- (map_map (fun a => occurrences a (column m col)) of_int).
  rewrite <- fold_bump_counts by exact Hnd.
  rewrite <- lfreq_fold. now rewrite map_repeat.
Qed.

Local Open Scope R_scope.

(** One turn of the loop over [lfreq], on a counter [n]. *)
Lemma entropy_step_Fin (nseq n : nat) (e : R) :
  (1 <= nseq)%nat ->
  entropy_step nseq (of_int n) (Fin e)
  = Fin (e - xlogx (INR n / INR nseq)).
Proof.
  intros Hs. unfold entropy_step, of_int.
  rewrite fdiv_Fin by (apply INR_nonzero; lia).
  set (f := INR n / INR nseq). unfold xlogx, is_pos.
  destruct (Rlt_dec 0 f) as [Hf|Hf].
  - rewrite fgtb_Fin_true by exact Hf.
    destruct (Req_dec_T f 1) as [E|E].
    + rewrite feqb_Fin_true by exact E. f_equal. rewrite E, ln_1. lra.
    + rewrite feqb_Fin_false by exact E. rewrite flog_Fin by exact Hf.
      reflexivity.
  - rewrite fgtb_Fin_false by lra. f_equal. lra.
Qed.

Lemma entropy_fold_Fin (nseq : nat) (counts : list nat) (e : R) :
  (1 <= nseq)%nat ->
  fold_left (fun e f => entropy_step nseq f e) (map of_int counts) (Fin e)
  = Fin (e - Rsum (fun n => xlogx (INR n / INR nseq)) counts).
Proof.
  intros Hs. revert e. induction counts as [|n counts IH]; intros e.
  - simpl. f_equal. lra.
  - cbn [map fold_left]. rewrite entropy_step_Fin by exact Hs.
    rewrite IH. f_equal. simpl. lra.
Qed.

(** The entropy that the constructor stores for a column: the Shannon
    entropy divided by [log(|alphabet| - 1)]. *)
Lemma constructed_entropy (m : Msa) (col : nat) :
  constructed m -> (1 <= nseq m)%nat -> (col < ncol m)%nat ->
  nth col (entropy m) NaN
  = fdiv (Fin (shannon_entropy m col))
         (flog (Fin (size_minus_one (length (alphabet m))))).
Proof.
  intros C Hs Hc. rewrite (built_entropy C), nth_map_seq by exact Hc.
  unfold column_entropy.
  rewrite column_lfreq_counts by (now apply constructed_alphabet_NoDup).
  rewrite <- (map_map (fun a => occurrences a (column m col)) of_int).
  rewrite entropy_fold_Fin by exact Hs.
  rewrite Rsum_map. unfold shannon_entropy, column_frequency.
  do 2 f_equal. lra.
Qed.

Local Close Scope R_scope.

(** ** A column with one symbol *)

Lemma filter_none (A : Type) (t : A -> bool) (l : list A) :
  length (filter t l) = 0 -> filter (fun x => negb (t x)) l = l.
Proof.
  induction l as [|x l IH]; simpl; intros H; [reflexivity|].
  destruct (t x); simpl in *; [discriminate|]. now rewrite IH.
Qed.

Lemma one_distinct_symbol (l : str) :
  distinct_symbols l = 1 -> exists s, forall c, In c l -> c = s.
Proof.
  unfold distinct_symbols. intros H.
  destruct (nodup ascii_dec l) as [|s [|s' l']] eqn:E; try discriminate.
  exists s. intros c Hc. apply (nodup_In ascii_dec) in Hc.
  rewrite E in Hc. destruct Hc as [->|[]]. reflexivity.
Qed.

Lemma single_symbol_column_all (m : Msa) (col : nat) :
  single_symbol_column m col ->
  exists s, forall c, In c (column m col) -> c = s.
Proof.
  intros [Hg Hd]. unfold gaps_in in Hg.
  unfold non_gap in Hd. rewrite (filter_none _ _ Hg) in Hd.
  now apply one_distinct_symbol.
Qed.

(** In a string of one symbol, a symbol occurs everywhere or nowhere. *)
Lemma occurrences_all_or_none (l : str) (s a : ascii) :
  (forall c, In c l -> c = s) ->
  occurrences a l = 0 \/ occurrences a l = length l.
Proof.
  intros H. unfold occurrences. destruct (ascii_dec a s) as [->|Hne].
  - right. induction l as [|c l IH]; [reflexivity|].
    simpl. rewrite (H c) by now left.
    destruct (ascii_dec s s); [|congruence].
    rewrite IH; auto. intros; apply H; now right.
  - left. apply count_occ_not_In. intros Hin. apply Hne. now apply H.
Qed.

Local Open Scope R_scope.

Lemma xlogx_0 : xlogx 0 = 0.
Proof. unfold xlogx. now rewrite is_pos_false by lra. Qed.

Lemma xlogx_1 : xlogx 1 = 0.
Proof. unfold xlogx. rewrite is_pos_true by lra. rewrite ln_1. lra. Qed.

Lemma single_symbol_shannon (m : Msa) (col : nat) :
  (1 <= nseq m)%nat -> single_symbol_column m col ->
  shannon_entropy m col = 0.
Proof.
  intros Hs Hsingle. destruct (single_symbol_column_all Hsingle) as [s Hall].
  unfold shannon_entropy.
  rewrite (Rsum_ext _ (fun _ => 0)); [rewrite Rsum_zero; lra|].
  intros a _. unfold column_frequency.
  destruct (@occurrences_all_or_none (column m col) s a Hall) as [E|E];
    rewrite E.
  - simpl INR. unfold Rdiv. rewrite Rmult_0_l. apply xlogx_0.
  - rewrite column_length.
    replace (INR (nseq m) / INR (nseq m)) with 1
      by (field; apply INR_nonzero; lia).
    apply xlogx_1.
Qed.

Lemma constructed_alphabet_nonempty (m : Msa) (col : nat) :
  constructed m -> (1 <= nseq m)%nat -> (col < ncol m)%nat ->
  (1 <= length (alphabet m))%nat.
Proof.
  intros C Hs Hc.
  assert (Hin : In (getSymbol m 0 col) (alphabet m)).
  { apply constructed_alphabet_In; [exact C|]. apply In_cells; lia. }
  destruct (alphabet m); [contradiction|simpl; lia].
Qed.

(** The entropy stored for a column with one symbol: zero, except with an
    alphabet of two symbols, where the normaliser is [log 1 = 0] and the
    quotient [0/0] is NaN. *)
Lemma single_symbol_entropy (m : Msa) (col : nat) :
  constructed m -> (1 <= nseq m)%nat -> (col < ncol m)%nat ->
  single_symbol_column m col ->
  nth col (entropy m) NaN
  = if (length (alphabet m) =? 2)%nat then NaN else Fin 0.
Proof.
  intros C Hs Hc Hsingle.
  rewrite constructed_entropy by assumption.
  rewrite single_symbol_shannon by assumption.
  pose proof (constructed_alphabet_nonempty C Hs Hc) as HK.
  unfold size_minus_one.
  destruct (length (alphabet m)) as [|[|[|K]]] eqn:EK; try lia.
  - cbn [Nat.eqb]. change (INR (1 - 1)) with 0.
    rewrite flog_zero. reflexivity.
  - cbn [Nat.eqb]. change (INR (2 - 1)) with 1.
    rewrite flog_Fin by lra. rewrite ln_1. apply fdiv_zero_zero.
  - cbn [Nat.eqb].
    assert (H2 : 2 <= INR (S (S (S K)) - 1)).
    { replace (S (S (S K)) - 1)%nat with (S (S K)) by lia.
      rewrite !S_INR. pose proof (pos_INR K). lra. }
    assert (Hln : 0 < ln (INR (S (S (S K)) - 1))).
    { rewrite <- ln_1. apply ln_increasing; lra. }
    rewrite flog_Fin by lra. rewrite fdiv_Fin by lra. f_equal.
    unfold Rdiv. apply Rmult_0_l.
Qed.

Local Close Scope R_scope.

(** C6, away from the alphabets of two symbols: for every model that the
    constructor returns and every column that holds exactly one distinct
    non-gap symbol and no gap symbol, the entropy stored for the column is
    exactly 0 when the alphabet does not have exactly two symbols. *)
Theorem single_symbol_column_entropy_zero (text : str) (m : Msa) (col : nat) :
  Msa_new (Some text) = Done m ->
  col < ncol m ->
  single_symbol_column m col ->
  length (alphabet m) <> 2 ->
  nth col (entropy m) NaN = Fin 0.
Proof.
  intros Hnew Hc Hsingle HK. pose proof (Msa_new_constructed _ Hnew) as C.
  assert (Hs : 1 <= nseq m).
  { destruct Hsingle as [_ Hd]. destruct (nseq m) eqn:E; [|lia].
    unfold column in Hd. rewrite E in Hd. discriminate. }
  rewrite single_symbol_entropy by assumption.
  destruct (Nat.eqb_spec (length (alphabet m)) 2); [contradiction|reflexivity].
Qed.

Lemma single_symbol_column_entropy_zero_witness :
  nth 0 (entropy (model_of three_rows)) NaN = Fin 0.
Proof.
  apply (@single_symbol_column_entropy_zero three_rows (model_of three_rows) 0).
  - vm_compute. reflexivity.
  - vm_compute. lia.
  - vm_compute. split; reflexivity.
  - vm_compute. lia.
Defined.

(** C6 fails with an alphabet of two symbols: in the alignment of the rows
    [AA] and [AB], column 0 holds the one symbol [A] and no gap, and the
    entropy stored for it is [0.0 / log(1)], that is NaN. *)
Lemma two_symbols_entropy_is_nan :
  single_symbol_column (model_of two_symbols) 0
  /\ nth 0 (entropy (model_of two_symbols)) NaN = NaN.
Proof.
  assert (H : single_symbol_column (model_of two_symbols) 0)
    by (vm_compute; split; reflexivity).
  split; [exact H|].
  rewrite single_symbol_entropy.
  - reflexivity.
  - apply (Msa_new_constructed two_symbols). apply model_of_Done.
  - vm_compute. lia.
  - vm_compute. lia.
  - exact H.
Qed.

(** ** The range of the entropy *)

Local Open Scope R_scope.











Local Close Scope R_scope.

Local Open Scope R_scope.



Local Close Scope R_scope.





(** ** The loops of [TridStat::calculateStatistic] *)

Section TridentLoops.

Variable m : Msa.
Hypothesis built : constructed m.
Hypothesis one_column : 1 <= ncol m.

Let K : nat := length (alphabet m).
Let sw : list float := map (WEntStat.calcSeqWeight m) (seq 0 (nseq m)).
Let p (x a : nat) : R := weighted_probability m x (char_at (alphabet m) a).

Lemma trident_alphabet_loop (x : nat) (pre : list float) :
  length pre = x ->
  for_loop K (fun a tt =>
      let tmp_proba := add_weights m (alphabet m) sw x a (Fin 0) in
      if fneb tmp_proba (Fin 0)
      then update tt x (fun v => fsub v (fmul tmp_proba (flog tmp_proba)))
      else tt) (pre ++ [Fin 0])
  = pre ++ [entropy_acc (p x) K].
Proof.
  intros Hpre.
  set (body := fun a tt => _).
  assert (Inv : forall a,
    for_loop a body (pre ++ [Fin 0]) = pre ++ [entropy_acc (p x) a]).
  { induction a as [|a IH].
    - reflexivity.
    - rewrite for_loop_S, IH. unfold body at 1.
      pose proof (add_weights_probability x a built one_column) as Hp.
      fold sw in Hp. fold (p x a) in Hp. rewrite Hp.
      rewrite entropy_acc_S.
      destruct (fneb (Fin (p x a)) (Fin 0)); [|reflexivity].
      rewrite <- Hpre, update_last. reflexivity. }
  apply Inv.
Qed.

Lemma trident_t :
  TridStat.t_ (TridStat.compute_t m TridStat.fresh)
  = map (fun x =>
      fmul (entropy_acc (p x) K)
           (fdiv (Fin 1) (flog (of_int (MIN K (nseq m))))))
      (seq 0 (ncol m)).
Proof.
  unfold TridStat.compute_t, getNcol, getNseq, getAlphabet.
  cbn [TridStat.t_ TridStat.seq_weight TridStat.fresh].
  change TridStat.calcSeqWeight with WEntStat.calcSeqWeight.
  rewrite seq_weight_loop. fold sw. fold K.
  set (lambda := fdiv (Fin 1) (flog (of_int (MIN K (nseq m))))).
  assert (Inv : forall n,
    for_loop n (fun x tt =>
      let tt := tt ++ [Fin 0] in
      let tt :=
        for_loop K (fun a tt =>
          let tmp_proba := add_weights m (alphabet m) sw x a (Fin 0) in
          if fneb tmp_proba (Fin 0)
          then update tt x (fun v => fsub v (fmul tmp_proba (flog tmp_proba)))
          else tt) tt in
      update tt x (fun v => fmul v lambda)) []
    = map (fun x => fmul (entropy_acc (p x) K) lambda) (seq 0 n)).
  { induction n as [|n IH].
    - reflexivity.
    - rewrite for_loop_S, IH. cbv zeta.
      rewrite trident_alphabet_loop by (now rewrite length_map, length_seq).
      pose proof (@update_last _
        (map (fun x => fmul (entropy_acc (p x) K) lambda) (seq 0 n))
        (entropy_acc (p n) K) (fun v => fmul v lambda)) as U.
      rewrite length_map, length_seq in U. rewrite U.
      now rewrite seq_S, map_app. }
  apply Inv.
Qed.

End TridentLoops.

(** The value of [t[x]] when the smaller of the two sizes is at least two. *)
Lemma trident_t_value (m : Msa) (x : nat) :
  constructed m -> x < ncol m ->
  2 <= Nat.min (length (alphabet m)) (nseq m) ->
  nth x (TridStat.t_ (TridStat.compute_t m TridStat.fresh)) NaN
  = Fin (weighted_entropy m x).
Proof.
  intros C Hx Hmin. rewrite trident_t by (auto; lia).
  rewrite nth_map_seq by exact Hx.
  apply wentropy_col_cons; [lia|exact Hmin].
Qed.

(** What the second part of the computation leaves in [r] and [g]. *)
Lemma trident_rg (sm : ScoringMatrix) (msa : Msa) (this : TridStat.t) :
  TridStat.r this = [] -> TridStat.g this = [] ->
  TridStat.r (TridStat.compute_rg sm msa this)
  = map (TridStat.column_r sm msa) (seq 0 (TridStat.ncol this))
  /\ TridStat.g (TridStat.compute_rg sm msa this)
     = map (fun x => fdiv (of_int (getGap msa x)) (of_int (TridStat.nseq this)))
         (seq 0 (TridStat.ncol this))
  /\ TridStat.t_ (TridStat.compute_rg sm msa this) = TridStat.t_ this
  /\ TridStat.ncol (TridStat.compute_rg sm msa this) = TridStat.ncol this.
Proof.
  intros Hr Hg. unfold TridStat.compute_rg.
  cbn [TridStat.r TridStat.g TridStat.t_ TridStat.ncol].
  rewrite Hr, Hg, !push_back_loop. auto.
Qed.

Lemma trident_output_lines (opts : Options) (this : TridStat.t) :
  TridStat.output_lines opts this
  = map (fun col =>
      fmul (fmul (fpow (fsub (Fin 1) (nth col (TridStat.t_ this) (Fin 0)))
                       (factor_a opts))
                 (fpow (fsub (Fin 1) (nth col (TridStat.r this) (Fin 0)))
                       (factor_b opts)))
           (fpow (fsub (Fin 1) (nth col (TridStat.g this) (Fin 0)))
                 (factor_c opts)))
      (seq 0 (TridStat.ncol this)).
Proof. unfold TridStat.output_lines. now rewrite push_back_loop. Qed.

(** A column without a symbol other than ['-'] gets [r = 1.0]. *)
Lemma column_r_no_type (sm : ScoringMatrix) (msa : Msa) (x : nat) :
  fst (TridStat.column_types msa x) = 0%Z ->
  TridStat.column_r sm msa x = Fin 1.
Proof.
  intros H. unfold TridStat.column_r.
  destruct (TridStat.column_types msa x) as [ntype type_list].
  simpl in H. subst ntype. reflexivity.
Qed.

(** ** A column without residue type in the trident statistic *)

Local Open Scope R_scope.

Lemma fpow_zero_base (b : R) : 0 < b -> fpow (fsub (Fin 1) (Fin 1)) b = Fin 0.
Proof.
  intros Hb. unfold fpow. cbn [fsub fopp fadd].
  rewrite is_zero_false by lra.
  rewrite is_pos_false by lra. rewrite is_zero_true by lra.
  now rewrite is_pos_true.
Qed.

Lemma fmul_zero_finite (A C : R) :
  fmul (fmul (Fin A) (Fin 0)) (Fin C) = Fin 0.
Proof. cbn [fmul]. f_equal. lra. Qed.

(** What the call leaves, for a column of which the re-based type list holds
    no symbol other than ['-']. *)
Lemma trident_no_type (fitToAlphabet : str -> Msa -> Msa) (opts : Options)
    (m : Msa) (w : World) (sm : ScoringMatrix) (x : nat) :
  matrix_file w = Some sm -> writable w = true -> (x < ncol m)%nat ->
  fst (TridStat.column_types (fitToAlphabet (sm_alphabet sm) m) x) = 0%Z ->
  0 < factor_b opts ->
  exists this lines,
    result (TridStat.calculateStatistic fitToAlphabet opts
              (TridStat.fresh, m, w))
    = Done (this, fitToAlphabet (sm_alphabet sm) m,
            mkWorld true (Some lines) (Some sm))
    /\ TridStat.t_ this = TridStat.t_ (TridStat.compute_t m TridStat.fresh)
    /\ nth x (TridStat.g this) (Fin 0)
       = fdiv (of_int (getGap (fitToAlphabet (sm_alphabet sm) m) x))
              (of_int (nseq m))
    /\ length lines = ncol m
    /\ nth x (TridStat.r this) (Fin 0) = Fin 1
    /\ nth x lines NaN
       = fmul (fmul (fpow (fsub (Fin 1) (nth x (TridStat.t_ this) (Fin 0)))
                          (factor_a opts))
                    (Fin 0))
              (fpow (fsub (Fin 1) (nth x (TridStat.g this) (Fin 0)))
                    (factor_c opts)).
Proof.
  intros Hm Hw Hx Hntype Hb.
  set (msa := fitToAlphabet (sm_alphabet sm) m).
  set (this := TridStat.compute_rg sm msa (TridStat.compute_t m TridStat.fresh)).
  exists this, (TridStat.output_lines opts this).
  destruct (@trident_rg sm msa (TridStat.compute_t m TridStat.fresh)
              eq_refl eq_refl) as [Hr [Hg [Ht Hn]]].
  fold this in Hr, Hg, Ht, Hn.
  change (TridStat.ncol (TridStat.compute_t m TridStat.fresh))
    with (ncol m) in Hr, Hg, Hn.
  change (TridStat.nseq (TridStat.compute_t m TridStat.fresh))
    with (nseq m) in Hg.
  assert (Hrx : nth x (TridStat.r this) (Fin 0) = Fin 1).
  { rewrite Hr, nth_map_seq by exact Hx. now apply column_r_no_type. }
  split; [|split; [|split; [|split; [|split]]]].
  - unfold TridStat.calculateStatistic. cbn [andthen]. rewrite Hm.
    cbn [andthen]. fold msa. fold this. unfold write_file.
    rewrite Hw, Hm. reflexivity.
  - exact Ht.
  - rewrite Hg, nth_map_seq by exact Hx. reflexivity.
  - rewrite trident_output_lines, length_map, length_seq. exact Hn.
  - exact Hrx.
  - rewrite trident_output_lines, Hn, nth_map_seq by exact Hx.
    rewrite Hrx, fpow_zero_base by exact Hb. reflexivity.
Qed.

Local Close Scope R_scope.

(** C3, as amended: for every alignment model re-based onto the alphabet of
    the substitution matrix, whatever the re-basing function, and every
    column of which the re-based type list holds no symbol other than ['-']
    ([ntype = 0] once the gap entry is removed), the trident statistic sets
    [r(x)] to exactly 1.0, and for every exponent [factor_b > 0] the score
    written for the column is 0 whenever the two other factors,
    [(1-t(x))^a] and [(1-g(x))^c], are finite numbers.  Here [t] is the
    entropy term of the alignment as it was before the re-basing, and [g(x)]
    the re-based gap count over the number of rows. *)
Theorem trident_no_type_column_scores_zero
    (fitToAlphabet : str -> Msa -> Msa) (opts : Options) (m : Msa)
    (w : World) (sm : ScoringMatrix) (x : nat) :
  matrix_file w = Some sm -> writable w = true -> x < ncol m ->
  fst (TridStat.column_types (fitToAlphabet (sm_alphabet sm) m) x) = 0%Z ->
  (0 < factor_b opts)%R ->
  exists this lines,
    result (TridStat.calculateStatistic fitToAlphabet opts
              (TridStat.fresh, m, w))
    = Done (this, fitToAlphabet (sm_alphabet sm) m,
            mkWorld true (Some lines) (Some sm))
    /\ nth x (TridStat.r this) (Fin 0) = Fin 1
    /\ TridStat.t_ this = TridStat.t_ (TridStat.compute_t m TridStat.fresh)
    /\ nth x (TridStat.g this) (Fin 0)
       = fdiv (of_int (getGap (fitToAlphabet (sm_alphabet sm) m) x))
              (of_int (nseq m))
    /\ (finite (fpow (fsub (Fin 1) (nth x (TridStat.t_ this) (Fin 0)))
                     (factor_a opts)) ->
        finite (fpow (fsub (Fin 1) (nth x (TridStat.g this) (Fin 0)))
                     (factor_c opts)) ->
        nth x lines NaN = Fin 0).
Proof.
  intros Hm Hw Hx Hntype Hb.
  destruct (@trident_no_type fitToAlphabet opts m w sm x Hm Hw Hx Hntype Hb)
    as [this [lines [Hres [Ht [Hg [_ [Hr Hline]]]]]]].
  exists this, lines. split; [exact Hres|]. split; [exact Hr|].
  split; [exact Ht|]. split; [exact Hg|].
  intros [A HA] [C HC]. rewrite Hline, HA, HC. apply fmul_zero_finite.
Qed.

Local Open Scope R_scope.

Lemma is_integer_1 : is_integer 1 = true.
Proof.
  unfold is_integer.
  assert (E : 1%Z = Int_part 1) by (apply Int_part_spec; simpl; lra).
  rewrite <- E. destruct (Req_dec_T (IZR 1) 1); tauto.
Qed.

(** With the exponent 1 every finite base has a finite power. *)
Lemma fpow_one_finite (v : R) : finite (fpow (Fin v) 1).
Proof.
  unfold fpow. rewrite is_zero_false by lra.
  destruct (is_pos v); [eexists; reflexivity|].
  destruct (is_zero v).
  - rewrite is_pos_true by lra. eexists; reflexivity.
  - rewrite is_integer_1. eexists; reflexivity.
Qed.

Lemma gap_column_constructed : constructed (model_of gap_column).
Proof. apply (Msa_new_constructed gap_column), model_of_Done. Qed.

Lemma gap_column_t_finite :
  finite (fpow (fsub (Fin 1)
                  (nth 1 (TridStat.t_ (TridStat.compute_t (model_of gap_column)
                                         TridStat.fresh)) (Fin 0)))
               (factor_a unit_factors)).
Proof.
  rewrite nth_indep with (d' := NaN)
    by (rewrite trident_t by (try apply gap_column_constructed;
                              vm_compute; lia);
        rewrite length_map, length_seq; vm_compute; lia).
  rewrite trident_t_value
    by (try apply gap_column_constructed; vm_compute; lia).
  cbn [fsub fopp fadd]. apply fpow_one_finite.
Qed.

Lemma gap_column_g_finite :
  finite (fpow (fsub (Fin 1)
                  (fdiv (of_int (getGap (keep_alignment (sm_alphabet toy_matrix)
                                           (model_of gap_column)) 1))
                        (of_int (nseq (model_of gap_column)))))
               (factor_c unit_factors)).
Proof.
  assert (E : nseq (model_of gap_column) = 2%nat) by (vm_compute; reflexivity).
  rewrite E. unfold of_int. rewrite fdiv_Fin by (apply INR_nonzero; lia).
  cbn [fsub fopp fadd]. apply fpow_one_finite.
Qed.

Lemma trident_no_type_column_scores_zero_witness :
  exists this lines,
    result (TridStat.calculateStatistic keep_alignment unit_factors
              (TridStat.fresh, model_of gap_column, matrix_world))
    = Done (this, keep_alignment (sm_alphabet toy_matrix) (model_of gap_column),
            mkWorld true (Some lines) (Some toy_matrix))
    /\ nth 1 (TridStat.r this) (Fin 0) = Fin 1
    /\ nth 1 lines NaN = Fin 0.
Proof.
  destruct (@trident_no_type_column_scores_zero keep_alignment unit_factors
              (model_of gap_column) matrix_world toy_matrix 1)
    as [this [lines [Hres [Hr [Ht [Hg Hzero]]]]]].
  - reflexivity.
  - reflexivity.
  - vm_compute. lia.
  - vm_compute. reflexivity.
  - simpl. lra.
  - exists this, lines. split; [exact Hres|]. split; [exact Hr|].
    apply Hzero.
    + rewrite Ht. apply gap_column_t_finite.
    + rewrite Hg. apply gap_column_g_finite.
Defined.

(** When [min(|alphabet|, nseq)] is 1, [lambda] is [1 / log(1)], infinite,
    and the product of the three factors is NaN whatever the third one. *)
Lemma score_nan_infinite_lambda (v a : R) (C' : float) :
  0 < a ->
  fmul (fmul (fpow (fsub (Fin 1) (fmul (Fin v) PInf)) a) (Fin 0)) C' = NaN.
Proof.
  intros Ha. cbn [fmul]. destruct (is_zero v) eqn:Ez.
  - cbn [fsub fopp fadd]. unfold fpow. rewrite is_zero_false by lra.
    reflexivity.
  - unfold inf_of_sign. destruct (is_pos v).
    + cbn [fsub fopp fadd]. unfold fpow. rewrite is_zero_false by lra.
      rewrite is_pos_true by exact Ha.
      destruct (is_odd_integer a); cbn [fmul fopp inf_of_sign];
        rewrite (@is_zero_true 0 eq_refl); reflexivity.
    + cbn [fsub fopp fadd]. unfold fpow. rewrite is_zero_false by lra.
      rewrite is_pos_true by exact Ha. cbn [fmul].
      rewrite (@is_zero_true 0 eq_refl). reflexivity.
Qed.

Lemma lambda_infinite (K n : nat) :
  MIN K n = 1%nat -> fdiv (Fin 1) (flog (of_int (MIN K n))) = PInf.
Proof.
  intros E. rewrite E. unfold of_int. simpl INR.
  rewrite flog_Fin by lra. rewrite ln_1. apply fdiv_pos_zero. lra.
Qed.

(** The score of a column without residue type when
    [min(|alphabet|, nseq) = 1], for positive exponents: NaN. *)
Lemma trident_no_type_nan (fitToAlphabet : str -> Msa -> Msa) (opts : Options)
    (m : Msa) (w : World) (sm : ScoringMatrix) (x : nat) :
  constructed m ->
  matrix_file w = Some sm -> writable w = true -> (x < ncol m)%nat ->
  fst (TridStat.column_types (fitToAlphabet (sm_alphabet sm) m) x) = 0%Z ->
  0 < factor_a opts -> 0 < factor_b opts ->
  MIN (length (alphabet m)) (nseq m) = 1%nat ->
  exists this lines,
    result (TridStat.calculateStatistic fitToAlphabet opts
              (TridStat.fresh, m, w))
    = Done (this, fitToAlphabet (sm_alphabet sm) m,
            mkWorld true (Some lines) (Some sm))
    /\ nth x (TridStat.r this) (Fin 0) = Fin 1
    /\ nth x lines (Fin 0) = NaN.
Proof.
  intros C Hm Hw Hx Hntype Ha Hb Hmin.
  destruct (@trident_no_type fitToAlphabet opts m w sm x Hm Hw Hx Hntype Hb)
    as [this [lines [Hres [Ht [_ [Hlen [Hr Hline]]]]]]].
  exists this, lines. split; [exact Hres|]. split; [exact Hr|].
  rewrite nth_indep with (d' := NaN) by lia.
  rewrite Hline, Ht, trident_t by (auto; lia).
  rewrite nth_indep with (d' := NaN) by (rewrite length_map, length_seq; lia).
  rewrite nth_map_seq by exact Hx.
  rewrite lambda_infinite by exact Hmin.
  rewrite entropy_acc_Fin by (intros; apply weighted_probability_nonneg; lia).
  now apply score_nan_infinite_lambda.
Qed.

Local Close Scope R_scope.

(** C3 fails as stated: for the alignment of the one row [-], re-based by a
    function that leaves it as it is, with the three exponents equal to 1,
    the one column has [ntype = 0] and [r = 1.0], and the score written for
    it is NaN, not 0: [lambda] is [1 / log(min(1,1))], infinite, so
    [(1-t)^a] is not a finite number. *)
Lemma single_row_trident_score_is_nan :
  exists this lines,
    result (TridStat.calculateStatistic keep_alignment unit_factors
              (TridStat.fresh, model_of single_gap, matrix_world))
    = Done (this, model_of single_gap,
            mkWorld true (Some lines) (Some toy_matrix))
    /\ fst (TridStat.column_types (model_of single_gap) 0) = 0%Z
    /\ nth 0 (TridStat.r this) (Fin 0) = Fin 1
    /\ nth 0 lines (Fin 0) = NaN.
Proof.
  assert (Hn : fst (TridStat.column_types (model_of single_gap) 0) = 0%Z)
    by (vm_compute; reflexivity).
  destruct (@trident_no_type_nan keep_alignment unit_factors
              (model_of single_gap) matrix_world toy_matrix 0)
    as [this [lines [Hres [Hr Hline]]]].
  - apply (Msa_new_constructed single_gap), model_of_Done.
  - reflexivity.
  - reflexivity.
  - vm_compute. lia.
  - exact Hn.
  - simpl. lra.
  - simpl. lra.
  - vm_compute. reflexivity.
  - exists this, lines. auto.
Qed.

(** ** The weighted entropy lies between 0 and 1 *)

Local Open Scope R_scope.


(** A symbol with a weighted probability that is not zero occurs in the
    column. *)
Lemma weighted_probability_In (m : Msa) (x : nat) (a : ascii) :
  weighted_probability m x a <> 0 -> In a (column m x).
Proof.
  intros Hne. unfold weighted_probability in Hne.
  destruct (filter (fun j => Ascii.eqb (getSymbol m j x) a) (seq 0 (nseq m)))
    as [|j l] eqn:E; [simpl in Hne; congruence|].
  assert (Hj : In j (filter (fun j => Ascii.eqb (getSymbol m j x) a)
                       (seq 0 (nseq m)))) by (rewrite E; now left).
  apply filter_In in Hj. destruct Hj as [Hj Heq].
  apply in_seq in Hj. apply Ascii.eqb_eq in Heq. rewrite <- Heq.
  apply In_column. lia.
Qed.




Local Close Scope R_scope.

(** ** Further properties of the statistics *)

(** After the reading part of the constructor there are at most 500 names
    and at most 500 sequences, whatever the text. *)
Theorem read_file_keeps_at_most_500 (text : str) :
  length (rd_name (read_file text)) <= nb_seq_limits
  /\ length (rd_seq (read_file text)) <= nb_seq_limits
  /\ nb_seq_limits = 500.
Proof.
  destruct (read_file_bounded text) as [Hn Hs].
  unfold nb_seq_limits. auto.
Qed.

Lemma gaps_in_le (s : str) : gaps_in s <= length s.
Proof. unfold gaps_in. apply filter_length_le. Qed.

Lemma list_sum_bounded (A : Type) (f : A -> nat) (l : list A) (b : nat) :
  (forall x, In x l -> f x <= b) -> list_sum (map f l) <= b * length l.
Proof.
  induction l as [|x l IH]; simpl; intros H; [lia|].
  assert (f x <= b) by (apply H; now left).
  assert (list_sum (map f l) <= b * length l)
    by (apply IH; intros; apply H; now right).
  lia.
Qed.

(** The gap counts: one per column, each at most the number of rows, so that
    they add up to at most [nseq * ncol]. *)
Theorem gap_counts_bounded (text : str) (m : Msa) :
  Msa_new (Some text) = Done m ->
  length (gap_counts m) = ncol m
  /\ (forall col, col < ncol m -> getGap m col <= nseq m)
  /\ list_sum (gap_counts m) <= nseq m * ncol m.
Proof.
  intros Hnew. pose proof (Msa_new_constructed _ Hnew) as C.
  split; [|split].
  - now rewrite (built_gaps C), length_map, length_seq.
  - intros col Hc. rewrite constructed_getGap by assumption.
    rewrite <- (column_length m col). apply gaps_in_le.
  - rewrite (built_gaps C).
    pose proof (@list_sum_bounded _ (fun col => gaps_in (column m col))
                  (seq 0 (ncol m)) (nseq m)) as H.
    rewrite length_seq in H. apply H. intros col _.
    rewrite <- (column_length m col). apply gaps_in_le.
Qed.

Lemma gap_counts_bounded_witness :
  length (gap_counts (model_of with_gap)) = ncol (model_of with_gap)
  /\ (forall col, col < ncol (model_of with_gap) ->
        getGap (model_of with_gap) col <= nseq (model_of with_gap))
  /\ list_sum (gap_counts (model_of with_gap))
     <= nseq (model_of with_gap) * ncol (model_of with_gap).
Proof.
  apply (@gap_counts_bounded with_gap (model_of with_gap)).
  vm_compute. reflexivity.
Defined.







(** * Further properties of the alignment model *)

(** ** Reading a multi-fasta text *)

Lemma has_char_false (c : ascii) (s : str) :
  has_char c s = false <-> ~ In c s.
Proof.
  unfold has_char. split.
  - intros H Hin. assert (E : existsb (Ascii.eqb c) s = true).
    { apply existsb_exists. exists c. split; [exact Hin|apply Ascii.eqb_refl]. }
    congruence.
  - intros H. destruct (existsb (Ascii.eqb c) s) eqn:E; [|reflexivity].
    apply existsb_exists in E. destruct E as [d [Hd E]].
    apply Ascii.eqb_eq in E. subst d. contradiction.
Qed.

Lemma getlines_line (l : str) (text : str) :
  has_char newline l = false ->
  getlines (l ++ newline :: text) = l :: getlines text.
Proof.
  induction l as [|c l IH]; intros H.
  - simpl. reflexivity.
  - unfold has_char in H. cbn [existsb] in H. apply orb_false_elim in H.
    destruct H as [Hc Hl].
    change ((c :: l) ++ newline :: text) with (c :: (l ++ newline :: text)).
    cbn [getlines]. rewrite Ascii.eqb_sym, Hc. rewrite (IH Hl). reflexivity.
Qed.

Lemma getlines_unlines (ls : list str) :
  forallb (fun l => negb (has_char newline l)) ls = true ->
  getlines (unlines ls) = ls ++ [[]].
Proof.
  induction ls as [|l ls IH]; intros H.
  - reflexivity.
  - simpl in H. apply andb_true_iff in H. destruct H as [Hl Hls].
    unfold unlines. cbn [map concat]. rewrite <- app_assoc.
    change ([newline] ++ concat (map (fun l0 => l0 ++ [newline]) ls))
      with (newline :: unlines ls).
    rewrite getlines_line by (now apply negb_true_iff).
    now rewrite (IH Hls).
Qed.

Lemma plain_line_spec (l : str) :
  plain_line l = true -> has_char newline l = false /\ is_header l = false.
Proof.
  unfold plain_line. intros H. apply andb_true_iff in H.
  destruct H as [H1 H2]. split; now apply negb_true_iff.
Qed.

(** The lines of a sequence are appended to [tmp_seq]. *)
Lemma read_loop_plain (bl rest : list str) (st : reader) :
  forallb plain_line bl = true ->
  length (rd_seq st) < nb_seq_limits ->
  read_loop (bl ++ rest) st
  = read_loop rest (mkReader (rd_name st) (rd_seq st) (tmp_seq st ++ concat bl)).
Proof.
  revert st. induction bl as [|l bl IH]; intros st H Hs.
  - simpl. rewrite app_nil_r. now destruct st.
  - simpl in H. apply andb_true_iff in H. destruct H as [Hl Hbl].
    destruct (plain_line_spec _ Hl) as [_ Hh].
    cbn [app read_loop].
    apply Nat.ltb_lt in Hs. rewrite Hs. apply Nat.ltb_lt in Hs.
    unfold read_line at 1. rewrite Hh.
    rewrite IH by (cbn [rd_seq]; assumption).
    cbn [rd_name rd_seq tmp_seq concat]. now rewrite app_assoc.
Qed.

Lemma find_app_absent (s t : str) (c : ascii) :
  ~ In c s ->
  find (s ++ t) c = match find t c with
                    | Some i => Some (length s + i)
                    | None => None
                    end.
Proof.
  induction s as [|d s IH]; intros H.
  - simpl. now destruct (find t c).
  - cbn [app find].
    destruct (Ascii.eqb d c) eqn:E.
    + apply Ascii.eqb_eq in E. subst d. exfalso. apply H. now left.
    + rewrite IH by (intros Hin; apply H; now right).
      now destruct (find t c).
Qed.

Lemma header_line_is_header (r : fasta_record) : is_header (header_line r) = true.
Proof. reflexivity. Qed.

Lemma header_name_header_line (r : fasta_record) :
  has_char gap_space (fr_name r) = false ->
  header_name (header_line r) = fr_name r.
Proof.
  intros H. apply has_char_false in H.
  unfold header_name, header_line.
  cbn [find]. change (Ascii.eqb ">"%char gap_space) with false. cbv iota.
  rewrite find_app_absent by exact H.
  destruct (fr_comment r) as [d|].
  - cbn [find]. rewrite Ascii.eqb_refl. rewrite Nat.add_0_r.
    cbn [skipn]. replace (S (length (fr_name r)) - 1) with (length (fr_name r)) by lia.
    rewrite firstn_app, Nat.sub_diag, firstn_all. simpl. now rewrite app_nil_r.
  - cbn [find skipn]. now rewrite app_nil_r.
Qed.

(** The header of a record, read when at least one name is held. *)
Lemma read_loop_header_line (r : fasta_record) (rest : list str) (st : reader) :
  has_char gap_space (fr_name r) = false ->
  rd_name st <> [] ->
  length (rd_seq st) < nb_seq_limits ->
  read_loop (header_line r :: rest) st
  = if S (length (rd_seq st)) <? nb_seq_limits
    then read_loop rest (mkReader (rd_name st ++ [fr_name r])
                                  (rd_seq st ++ [tmp_seq st]) [])
    else mkReader (rd_name st) (rd_seq st ++ [tmp_seq st]) [].
Proof.
  intros Hn Hne Hs.
  cbn [read_loop]. apply Nat.ltb_lt in Hs. rewrite Hs. apply Nat.ltb_lt in Hs.
  unfold read_line. rewrite header_line_is_header.
  assert (E : negb (length (rd_name st) =? 0) = true).
  { destruct (rd_name st); [congruence|reflexivity]. }
  rewrite E. rewrite length_app. cbn [length]. rewrite Nat.add_1_r.
  rewrite header_name_header_line by exact Hn.
  destruct (S (length (rd_seq st)) <? nb_seq_limits) eqn:El; [reflexivity|].
  destruct rest as [|l rest]; [reflexivity|].
  cbn [read_loop rd_seq]. rewrite length_app. cbn [length]. rewrite Nat.add_1_r.
  now rewrite El.
Qed.

Lemma well_formed_spec (r : fasta_record) :
  well_formed r = true ->
  has_char gap_space (fr_name r) = false
  /\ forallb plain_line (fr_lines r) = true.
Proof.
  unfold well_formed. intros H.
  repeat (apply andb_true_iff in H; destruct H as [H ?]).
  split; [now apply negb_true_iff|assumption].
Qed.

Lemma firstn_app_exact (A : Type) (l1 l2 : list A) (n : nat) :
  length l1 = n -> firstn n (l1 ++ l2) = l1.
Proof.
  intros <-. rewrite firstn_app, Nat.sub_diag, firstn_all. simpl.
  now rewrite app_nil_r.
Qed.

Lemma firstn_short (A : Type) (l : list A) (n : nat) :
  length l <= n -> firstn n l = l.
Proof. intros H. now apply firstn_all2. Qed.

(** The records that follow, from a state that holds a name. *)
Lemma read_loop_records (rs : list fasta_record) (st : reader) :
  forallb well_formed rs = true ->
  rd_name st <> [] ->
  length (rd_name st) = S (length (rd_seq st)) ->
  length (rd_seq st) < nb_seq_limits ->
  let fin := finish (read_loop (flat_map record_lines rs ++ [[]]) st) in
  rd_name fin = firstn nb_seq_limits (rd_name st ++ map fr_name rs)
  /\ rd_seq fin
     = firstn nb_seq_limits (rd_seq st ++ tmp_seq st :: map fr_sequence rs).
Proof.
  revert st. induction rs as [|r rs IH]; intros st Hwf Hne Hlen Hs.
  - cbn [flat_map app map read_loop].
    apply Nat.ltb_lt in Hs. rewrite Hs.
    unfold read_line. change (is_header []) with false. cbv iota.
    unfold finish. cbn [rd_seq rd_name tmp_seq]. rewrite Hs.
    apply Nat.ltb_lt in Hs. cbn [rd_seq rd_name]. rewrite !app_nil_r.
    split; symmetry; apply firstn_short.
    + lia.
    + rewrite length_app. simpl. lia.
  - cbn [forallb] in Hwf. apply andb_true_iff in Hwf. destruct Hwf as [Hr Hrs].
    destruct (well_formed_spec _ Hr) as [Hn Hb].
    cbn [flat_map]. change (record_lines r) with (header_line r :: fr_lines r).
    cbn [app]. rewrite <- app_assoc.
    rewrite read_loop_header_line by assumption.
    destruct (S (length (rd_seq st)) <? nb_seq_limits) eqn:El.
    + apply Nat.ltb_lt in El.
      rewrite read_loop_plain
        by (try assumption; cbn [rd_seq]; rewrite length_app; simpl; lia).
      cbn [rd_name rd_seq tmp_seq]. rewrite app_nil_l.
      fold (fr_sequence r).
      match goal with
      | |- context [read_loop _ ?S] =>
          specialize (IH S Hrs)
      end.
      cbn [rd_name rd_seq tmp_seq] in IH.
      destruct IH as [IH1 IH2].
      * now destruct (rd_name st).
      * rewrite !length_app. simpl. lia.
      * rewrite length_app. simpl. lia.
      * rewrite IH1, IH2. cbn [map].
        rewrite <- !app_assoc. split; reflexivity.
    + apply Nat.ltb_ge in El.
      assert (E : length (rd_seq st ++ [tmp_seq st]) = nb_seq_limits)
        by (rewrite length_app; simpl; lia).
      cbv zeta. unfold finish. cbn [rd_seq rd_name].
      rewrite E, Nat.ltb_irrefl. cbn [rd_seq rd_name map].
      split; symmetry.
      * apply firstn_app_exact. lia.
      * change (rd_seq st ++ tmp_seq st :: fr_sequence r :: map fr_sequence rs)
          with (rd_seq st ++ [tmp_seq st] ++ fr_sequence r :: map fr_sequence rs).
        rewrite app_assoc. now apply firstn_app_exact.
Qed.

Lemma read_file_finish (text : str) :
  read_file text = finish (read_loop (getlines text) (mkReader [] [] [])).
Proof. reflexivity. Qed.

Lemma header_line_no_newline (r : fasta_record) :
  well_formed r = true -> has_char newline (header_line r) = false.
Proof.
  unfold well_formed. intros H.
  repeat (apply andb_true_iff in H; destruct H as [H ?]).
  apply negb_true_iff in H. apply has_char_false in H.
  apply has_char_false. unfold header_line. intros [E|Hin].
  - discriminate E.
  - apply in_app_or in Hin. destruct Hin as [Hin|Hin]; [now apply H|].
    destruct (fr_comment r) as [d|]; [|exact Hin].
    destruct Hin as [E|Hin]; [discriminate E|].
    match goal with
    | Hd : negb (has_char newline d) = true |- _ =>
        apply negb_true_iff in Hd; apply has_char_false in Hd; now apply Hd
    end.
Qed.

Lemma fasta_lines_no_newline (preamble : list str) (rs : list fasta_record) :
  forallb plain_line preamble = true -> forallb well_formed rs = true ->
  forallb (fun l => negb (has_char newline l))
    (preamble ++ flat_map record_lines rs) = true.
Proof.
  intros Hp Hr. rewrite forallb_app. apply andb_true_iff. split.
  - rewrite forallb_forall in *. intros l Hl.
    destruct (plain_line_spec _ (Hp l Hl)) as [E _]. now rewrite E.
  - induction rs as [|r rs IH]; [reflexivity|].
    cbn [forallb] in Hr. apply andb_true_iff in Hr. destruct Hr as [Hr Hrs].
    cbn [flat_map]. rewrite forallb_app. apply andb_true_iff. split; [|auto].
    unfold record_lines. cbn [forallb]. apply andb_true_iff. split.
    + now rewrite header_line_no_newline.
    + destruct (well_formed_spec _ Hr) as [_ Hb].
      rewrite forallb_forall in *. intros l Hl.
      destruct (plain_line_spec _ (Hb l Hl)) as [E _]. now rewrite E.
Qed.

Lemma read_loop_first_record (preamble : list str) (r : fasta_record)
    (rs : list fasta_record) :
  forallb plain_line preamble = true ->
  forallb well_formed (r :: rs) = true ->
  read_loop (getlines (fasta_text preamble (r :: rs))) (mkReader [] [] [])
  = read_loop (flat_map record_lines rs ++ [[]])
      (mkReader [fr_name r] [] (fr_sequence r)).
Proof.
  intros Hp Hr. unfold fasta_text.
  rewrite getlines_unlines by now apply fasta_lines_no_newline.
  rewrite <- app_assoc.
  rewrite read_loop_plain by (try assumption; simpl; unfold nb_seq_limits; lia).
  cbn [rd_name rd_seq tmp_seq flat_map].
  change (record_lines r) with (header_line r :: fr_lines r).
  cbn [app].
  cbn [forallb] in Hr. apply andb_true_iff in Hr. destruct Hr as [Hr Hrs].
  destruct (well_formed_spec _ Hr) as [Hn Hb].
  cbn [read_loop rd_seq length].
  change (0 <? nb_seq_limits) with true. cbv iota.
  unfold read_line at 1. rewrite header_line_is_header.
  cbn [rd_name rd_seq length Nat.eqb negb].
  change (0 <? nb_seq_limits) with true. cbv iota.
  rewrite header_name_header_line by exact Hn.
  rewrite <- app_assoc.
  rewrite read_loop_plain by (try assumption; simpl; unfold nb_seq_limits; lia).
  reflexivity.
Qed.

(** What the reading part of the constructor returns for the text of a
    list of records. *)
Lemma read_file_fasta_text (preamble : list str) (r : fasta_record)
    (rs : list fasta_record) :
  forallb plain_line preamble = true ->
  forallb well_formed (r :: rs) = true ->
  rd_name (read_file (fasta_text preamble (r :: rs)))
  = firstn nb_seq_limits (map fr_name (r :: rs))
  /\ rd_seq (read_file (fasta_text preamble (r :: rs)))
     = firstn nb_seq_limits (map fr_sequence (r :: rs)).
Proof.
  intros Hp Hr.
  rewrite read_file_finish, read_loop_first_record by assumption.
  cbn [forallb] in Hr. apply andb_true_iff in Hr. destruct Hr as [Hr Hrs].
  pose proof (@read_loop_records rs (mkReader [fr_name r] [] (fr_sequence r))
                Hrs) as H.
  cbn [rd_name rd_seq tmp_seq length app] in H.
  apply H; [discriminate|reflexivity|unfold nb_seq_limits; lia].
Qed.

(** Reading back a multi-fasta text: for records whose names hold neither a
    space nor a newline and whose sequence lines are not headers, written one
    line after the other (after any lines that belong to no record), the
    reading part of the constructor returns the names of the first 500
    records and, for each of them, its sequence lines joined; the rest of a
    header line after the first space and the lines before the first header
    are dropped. *)
Theorem read_file_round_trip (preamble : list str) (rs : list fasta_record) :
  forallb plain_line preamble = true ->
  forallb well_formed rs = true ->
  rs <> [] ->
  rd_name (read_file (fasta_text preamble rs)) = firstn 500 (map fr_name rs)
  /\ rd_seq (read_file (fasta_text preamble rs))
     = firstn 500 (map fr_sequence rs).
Proof.
  intros Hp Hr Hne.
  destruct rs as [|r rs]; [congruence|].
  now apply read_file_fasta_text.
Qed.

Lemma read_file_round_trip_witness :
  rd_name (read_file (fasta_text sample_preamble sample_records))
  = firstn 500 (map fr_name sample_records)
  /\ rd_seq (read_file (fasta_text sample_preamble sample_records))
     = firstn 500 (map fr_sequence sample_records).
Proof.
  apply (@read_file_round_trip sample_preamble sample_records).
  - reflexivity.
  - reflexivity.
  - discriminate.
Defined.

(** ** The matrix of the model *)

Lemma countFreq_matrix (m m' : Msa) :
  countFreq m = Done m' ->
  mali_name m' = mali_name m /\ mali_seq m' = mali_seq m
  /\ nseq m' = nseq m /\ ncol m' = ncol m.
Proof.
  unfold countFreq. destruct (count_symbols m) as [[total tmp]|]; simpl.
  - intros H. injection H as <-. simpl. auto.
  - discriminate.
Qed.

Lemma Msa_new_matrix (text : str) (m : Msa) :
  Msa_new (Some text) = Done m ->
  mali_name m = rd_name (read_file text)
  /\ mali_seq m
     = upper_rows (length (rd_name (read_file text)))
         (length (nth 0 (rd_seq (read_file text)) []))
         (rd_seq (read_file text))
  /\ nseq m = length (rd_name (read_file text))
  /\ ncol m = length (nth 0 (rd_seq (read_file text)) []).
Proof.
  unfold Msa_new, obind.
  destruct (countFreq (countGap (defineAlphabet (Msa_init text)))) as [m'|] eqn:E;
    [|discriminate].
  intros H. injection H as <-.
  destruct (countFreq_matrix _ E) as [H1 [H2 [H3 H4]]].
  cbn [countEntropy countType mali_name mali_seq nseq ncol].
  rewrite H1, H2, H3, H4. cbn. auto.
Qed.

Lemma islower_toupper (c : ascii) : islower (toupper c) = false.
Proof. destruct c as [[] [] [] [] [] [] [] []]; reflexivity. Qed.

Lemma toupper_fixed (c : ascii) : islower c = false -> toupper c = c.
Proof. unfold toupper, islower. cbv zeta. intros H. now rewrite H. Qed.

Lemma nth_upper_rows (n c i : nat) (rows : list str) :
  i < n -> nth i (upper_rows n c rows) [] = upper_row c (nth i rows []).
Proof.
  unfold upper_rows. revert n i.
  induction rows as [|r rows IH]; intros n i H.
  - rewrite firstn_nil, skipn_nil. unfold upper_row.
    destruct i; simpl; now rewrite firstn_nil, skipn_nil.
  - destruct n as [|n]; [lia|]. cbn [firstn skipn map app].
    destruct i as [|i]; [reflexivity|]. cbn [nth]. apply IH. lia.
Qed.

Lemma char_at_upper_row (c j : nat) (row : str) :
  j < c -> char_at (upper_row c row) j = toupper (char_at row j).
Proof.
  unfold upper_row, char_at. revert c j.
  induction row as [|a row IH]; intros c j H.
  - rewrite firstn_nil, skipn_nil. simpl. now destruct j.
  - destruct c as [|c]; [lia|]. cbn [firstn skipn map app].
    destruct j as [|j]; [reflexivity|]. cbn [nth]. apply IH. lia.
Qed.

(** The cell of the model is the upper case of the character read. *)
Lemma getSymbol_read (text : str) (m : Msa) (row col : nat) :
  Msa_new (Some text) = Done m ->
  row < nseq m -> col < ncol m ->
  getSymbol m row col
  = toupper (char_at (nth row (rd_seq (read_file text)) []) col).
Proof.
  intros Hnew Hr Hc.
  destruct (Msa_new_matrix _ Hnew) as [_ [Hs [Hn Hl]]].
  unfold getSymbol. rewrite Hs.
  rewrite nth_upper_rows by lia.
  apply char_at_upper_row. lia.
Qed.

(** No cell of a model that the constructor returns is a lower-case letter,
    so that no symbol of its alphabet is one. *)
Theorem cells_are_upper_case (text : str) (m : Msa) :
  Msa_new (Some text) = Done m ->
  (forall row col, row < nseq m -> col < ncol m ->
     islower (getSymbol m row col) = false
     /\ toupper (getSymbol m row col) = getSymbol m row col)
  /\ (forall c, In c (alphabet m) -> islower c = false).
Proof.
  intros Hnew.
  assert (Hcell : forall row col, row < nseq m -> col < ncol m ->
                    islower (getSymbol m row col) = false).
  { intros row col Hr Hc. rewrite (getSymbol_read _ Hnew Hr Hc).
    apply islower_toupper. }
  split.
  - intros row col Hr Hc. split; [now apply Hcell|].
    apply toupper_fixed. now apply Hcell.
  - intros c Hin.
    pose proof (Msa_new_constructed _ Hnew) as C.
    apply (constructed_alphabet_In c C) in Hin.
    unfold cells in Hin. apply in_flat_map in Hin.
    destruct Hin as [col [Hcol Hin]]. apply in_seq in Hcol.
    unfold column in Hin. apply in_map_iff in Hin.
    destruct Hin as [row [<- Hrow]]. apply in_seq in Hrow.
    apply Hcell; lia.
Qed.

Lemma cells_are_upper_case_witness :
  (forall row col, row < nseq (model_of sample_text) ->
     col < ncol (model_of sample_text) ->
     islower (getSymbol (model_of sample_text) row col) = false
     /\ toupper (getSymbol (model_of sample_text) row col)
        = getSymbol (model_of sample_text) row col)
  /\ (forall c, In c (alphabet (model_of sample_text)) -> islower c = false).
Proof.
  apply (@cells_are_upper_case sample_text (model_of sample_text)).
  apply model_of_Done.
Defined.

Lemma in_cells_inv (m : Msa) (c : ascii) :
  In c (cells m) <->
  exists row col, row < nseq m /\ col < ncol m /\ getSymbol m row col = c.
Proof.
  split.
  - intros Hin. unfold cells in Hin. apply in_flat_map in Hin.
    destruct Hin as [col [Hcol Hin]]. apply in_seq in Hcol.
    unfold column in Hin. apply in_map_iff in Hin.
    destruct Hin as [row [E Hrow]]. apply in_seq in Hrow.
    exists row, col. repeat split; [lia|lia|exact E].
  - intros [row [col [Hr [Hc <-]]]]. now apply In_cells.
Qed.

Lemma nth_firstn_lt (A : Type) (l : list A) (n i : nat) (d : A) :
  i < n -> nth i (firstn n l) d = nth i l d.
Proof.
  revert n i. induction l as [|a l IH]; intros n i H.
  - now rewrite firstn_nil.
  - destruct n as [|n]; [lia|]. destruct i as [|i]; [reflexivity|].
    cbn [firstn nth]. apply IH. lia.
Qed.

(** The model of a multi-fasta text: it has one row per record (500 at
    most), as many columns as the first sequence has characters, and the
    cell of row [i] and column [j] is the upper case of the [j]-th character
    of the [i]-th sequence. *)
Theorem constructor_holds_upper_cased_text (preamble : list str)
    (rs : list fasta_record) (m : Msa) :
  forallb plain_line preamble = true ->
  forallb well_formed rs = true ->
  rs <> [] ->
  Msa_new (Some (fasta_text preamble rs)) = Done m ->
  mali_name m = firstn 500 (map fr_name rs)
  /\ nseq m = Nat.min 500 (length rs)
  /\ ncol m = length (nth 0 (map fr_sequence rs) [])
  /\ forall i j, i < nseq m -> j < ncol m ->
       j < length (nth i (map fr_sequence rs) []) ->
       getSymbol m i j = toupper (char_at (nth i (map fr_sequence rs) []) j).
Proof.
  intros Hp Hr Hne Hnew.
  assert (Hread :
    rd_name (read_file (fasta_text preamble rs)) = firstn 500 (map fr_name rs)
    /\ rd_seq (read_file (fasta_text preamble rs))
       = firstn 500 (map fr_sequence rs)).
  { destruct rs as [|r rs']; [congruence|]. now apply read_file_fasta_text. }
  destruct Hread as [Hn Hs].
  destruct (Msa_new_matrix _ Hnew) as [H1 [H2 [H3 H4]]].
  assert (En : nseq m = Nat.min 500 (length rs)).
  { rewrite H3, Hn, length_firstn, length_map. reflexivity. }
  split; [now rewrite H1|]. split; [exact En|]. split.
  - rewrite H4, Hs. rewrite nth_firstn_lt by lia. reflexivity.
  - intros i j Hi Hj _. rewrite (getSymbol_read _ Hnew Hi Hj).
    rewrite Hs. rewrite nth_firstn_lt by lia. reflexivity.
Qed.

Lemma constructor_holds_upper_cased_text_witness :
  mali_name (model_of sample_text) = firstn 500 (map fr_name sample_records)
  /\ nseq (model_of sample_text) = Nat.min 500 (length sample_records)
  /\ ncol (model_of sample_text)
     = length (nth 0 (map fr_sequence sample_records) [])
  /\ forall i j, i < nseq (model_of sample_text) ->
       j < ncol (model_of sample_text) ->
       j < length (nth i (map fr_sequence sample_records) []) ->
       getSymbol (model_of sample_text) i j
       = toupper (char_at (nth i (map fr_sequence sample_records) []) j).
Proof.
  apply (@constructor_holds_upper_cased_text sample_preamble sample_records
           (model_of sample_text)).
  - reflexivity.
  - reflexivity.
  - discriminate.
  - apply model_of_Done.
Defined.

(** ** The alphabet and the positions of its symbols *)

(** The alphabet of a model holds each symbol once; its symbols are the
    symbols of the cells; [getAaPos] returns, for the symbol at position [i]
    of the alphabet, the position [i]; for a symbol that is not in the
    alphabet [getAaPos] finds no position and [getFreq] ends the program. *)
Theorem alphabet_positions (text : str) (m : Msa) :
  Msa_new (Some text) = Done m ->
  NoDup (alphabet m)
  /\ (forall c, In c (alphabet m) <->
        exists row col, row < nseq m /\ col < ncol m /\ getSymbol m row col = c)
  /\ (forall i, i < length (alphabet m) ->
        getAaPos m (char_at (alphabet m) i) = Some i)
  /\ (forall c, ~ In c (alphabet m) ->
        getAaPos m c = None /\ getFreq m c = Exit).
Proof.
  intros Hnew. pose proof (Msa_new_constructed _ Hnew) as C.
  pose proof (constructed_alphabet_NoDup C) as Hnd.
  split; [exact Hnd|]. split; [|split].
  - intros c. rewrite (constructed_alphabet_In c C). apply in_cells_inv.
  - intros i Hi. unfold getAaPos, char_at. now apply find_nth.
  - intros c Hc. apply find_None in Hc.
    unfold getFreq, getAaPos. rewrite Hc. auto.
Qed.

Lemma alphabet_positions_witness :
  NoDup (alphabet (model_of three_rows))
  /\ (forall c, In c (alphabet (model_of three_rows)) <->
        exists row col, row < nseq (model_of three_rows)
                        /\ col < ncol (model_of three_rows)
                        /\ getSymbol (model_of three_rows) row col = c)
  /\ (forall i, i < length (alphabet (model_of three_rows)) ->
        getAaPos (model_of three_rows)
          (char_at (alphabet (model_of three_rows)) i) = Some i)
  /\ (forall c, ~ In c (alphabet (model_of three_rows)) ->
        getAaPos (model_of three_rows) c = None
        /\ getFreq (model_of three_rows) c = Exit).
Proof.
  apply (@alphabet_positions three_rows (model_of three_rows)).
  apply model_of_Done.
Defined.

(** ** The symbol types of a column *)

Lemma getCol_column (m : Msa) (col : nat) : getCol m col = column m col.
Proof. unfold getCol, column. now rewrite push_back_loop. Qed.

Lemma constructed_getTypeList (m : Msa) (x : nat) :
  constructed m -> x < ncol m ->
  getTypeList m x = first_occurrences (column m x).
Proof.
  intros C Hx. unfold getTypeList. rewrite (built_type_list C).
  now rewrite nth_map_seq.
Qed.

(** [getCol] returns the [nseq] symbols of a column, first row first; the
    type list that [countType] stores for the column holds each of these
    symbols once, and the number of types is its length: at most the number
    of rows and the size of the alphabet, and at least 1 when there is a
    row. *)
Theorem column_type_list (text : str) (m : Msa) (x : nat) :
  Msa_new (Some text) = Done m -> x < ncol m ->
  length (getCol m x) = nseq m
  /\ (forall i, i < nseq m -> char_at (getCol m x) i = getSymbol m i x)
  /\ NoDup (getTypeList m x)
  /\ (forall c, In c (getTypeList m x) <-> In c (getCol m x))
  /\ getNtype m x = length (getTypeList m x)
  /\ getNtype m x <= nseq m
  /\ getNtype m x <= length (alphabet m)
  /\ (1 <= nseq m -> 1 <= getNtype m x).
Proof.
  intros Hnew Hx. pose proof (Msa_new_constructed _ Hnew) as C.
  rewrite getCol_column, (constructed_getTypeList C Hx),
    (constructed_getNtype C Hx), first_occurrences_length.
  split; [apply column_length|]. split; [|split; [|split; [|split]]].
  - intros i Hi. unfold char_at. now apply nth_column.
  - apply first_occurrences_NoDup.
  - intros c. apply first_occurrences_In.
  - reflexivity.
  - split; [|split].
    + rewrite <- (column_length m x). apply distinct_symbols_le.
    + rewrite <- first_occurrences_length.
      apply NoDup_incl_length; [apply first_occurrences_NoDup|].
      intros c Hc. rewrite first_occurrences_In in Hc.
      apply (constructed_alphabet_In c C).
      unfold cells. apply in_flat_map. exists x. split; [|exact Hc].
      apply in_seq. lia.
    + intros Hs. apply distinct_symbols_pos. apply column_nonempty. lia.
Qed.

Lemma column_type_list_witness :
  length (getCol (model_of three_rows) 2) = nseq (model_of three_rows)
  /\ NoDup (getTypeList (model_of three_rows) 2)
  /\ getNtype (model_of three_rows) 2 = 2.
Proof.
  destruct (@column_type_list three_rows (model_of three_rows) 2)
    as [H1 [_ [H3 [_ [H5 _]]]]].
  - apply model_of_Done.
  - vm_compute. lia.
  - split; [exact H1|]. split; [exact H3|]. rewrite H5. reflexivity.
Defined.

(** ** [isInclude] *)

Lemma isInclude_alphabet (m : Msa) (alph1 : str) :
  isInclude m alph1 = true <->
  forall c, In c (alphabet m) -> is_gap c = false -> In c alph1.
Proof.
  unfold isInclude. rewrite forallb_forall. split.
  - intros H c Hc Hg. specialize (H c Hc).
    apply negb_true_iff in H.
    unfold is_gap in Hg. apply orb_false_elim in Hg. destruct Hg as [Hd Hs].
    rewrite Hd, Hs in H. cbn [negb] in H. rewrite !andb_true_r in H.
    destruct (find alph1 c) as [i|] eqn:E; [|discriminate].
    apply find_Some in E. destruct E as [Hi <-]. now apply nth_In.
  - intros H c Hc. apply negb_true_iff.
    destruct (is_gap c) eqn:Hg.
    + unfold is_gap in Hg. apply orb_true_iff in Hg.
      destruct Hg as [Hg|Hg]; rewrite Hg; cbn [negb];
        now rewrite ?andb_false_r.
    + destruct (find_In alph1 c (H c Hc Hg)) as [i ->]. reflexivity.
Qed.

(** [isInclude(alph1)] holds exactly when every cell that is neither ['-']
    nor a space holds a symbol of [alph1]; the alphabet of the model includes
    itself. *)
Theorem isInclude_spec (text : str) (m : Msa) (alph1 : str) :
  Msa_new (Some text) = Done m ->
  (isInclude m alph1 = true <->
   forall row col, row < nseq m -> col < ncol m ->
     is_gap (getSymbol m row col) = false -> In (getSymbol m row col) alph1)
  /\ isInclude m (alphabet m) = true.
Proof.
  intros Hnew. pose proof (Msa_new_constructed _ Hnew) as C. split.
  - rewrite isInclude_alphabet. split.
    + intros H row col Hr Hc Hg. apply H; [|exact Hg].
      apply (constructed_alphabet_In _ C). now apply In_cells.
    + intros H c Hc Hg. apply (constructed_alphabet_In c C) in Hc.
      apply in_cells_inv in Hc. destruct Hc as [row [col [Hr [Hcl <-]]]].
      now apply H.
  - apply isInclude_alphabet. auto.
Qed.

Lemma isInclude_spec_witness :
  (isInclude (model_of with_gap) ["A"%char; "G"%char] = true <->
   forall row col, row < nseq (model_of with_gap) ->
     col < ncol (model_of with_gap) ->
     is_gap (getSymbol (model_of with_gap) row col) = false ->
     In (getSymbol (model_of with_gap) row col) ["A"%char; "G"%char])
  /\ isInclude (model_of with_gap) (alphabet (model_of with_gap)) = true.
Proof.
  apply (@isInclude_spec with_gap (model_of with_gap)).
  apply model_of_Done.
Defined.

(** * Further properties of the statistics *)

(** ** What the weighted entropy writes on every input *)

Lemma wentropy_compute_ncol (m : Msa) (this : WEntStat.t) :
  WEntStat.ncol (WEntStat.compute m this) = ncol m.
Proof.
  unfold WEntStat.compute.
  match goal with
  | |- context [let '(_, _) := ?X in _] => destruct X as [p c]
  end.
  reflexivity.
Qed.

Lemma wentropy_output_length (m : Msa) (this : WEntStat.t) :
  length (WEntStat.output_lines m this) = WEntStat.ncol this.
Proof.
  unfold WEntStat.output_lines.
  now rewrite push_back_loop, app_nil_l, length_map, length_seq.
Qed.

(** Whatever the alignment and the state of the object, the weighted
    entropy either writes exactly one value per column, in place of what the
    output destination held, and leaves the rest of the world as it is, or,
    when the destination cannot be opened, ends the program. *)
Theorem wentropy_writes_or_exits (m : Msa) (this : WEntStat.t) (w : World) :
  if writable w
  then exists this' lines,
         result (WEntStat.calculateStatistic m (this, w))
         = Done (this', mkWorld true (Some lines) (matrix_file w))
         /\ length lines = ncol m
  else result (WEntStat.calculateStatistic m (this, w)) = Exit.
Proof.
  unfold WEntStat.calculateStatistic. cbn [andthen]. unfold write_file.
  destruct (writable w) eqn:Hw.
  - exists (WEntStat.compute m this),
      (WEntStat.output_lines m (WEntStat.compute m this)).
    split; [reflexivity|].
    now rewrite wentropy_output_length, wentropy_compute_ncol.
  - reflexivity.
Qed.

(** ** The entropy term of the trident statistic *)

Lemma wentropy_compute_no_column (m : Msa) :
  ncol m = 0 ->
  WEntStat.col_cons (WEntStat.compute m WEntStat.fresh) = [].
Proof.
  intros H. unfold WEntStat.compute, getNcol. rewrite H.
  rewrite for_loop_0. reflexivity.
Qed.

Lemma trident_compute_no_column (m : Msa) :
  ncol m = 0 ->
  TridStat.t_ (TridStat.compute_t m TridStat.fresh) = [].
Proof.
  intros H. unfold TridStat.compute_t, getNcol. rewrite H.
  rewrite for_loop_0. reflexivity.
Qed.


(** The entropy term [t] of the trident statistic and its sequence weights
    are the column values and the weights that the weighted entropy
    computes on the same model. *)
Theorem trident_entropy_term_is_wentropy (text : str) (m : Msa) :
  Msa_new (Some text) = Done m ->
  TridStat.t_ (TridStat.compute_t m TridStat.fresh)
  = WEntStat.col_cons (WEntStat.compute m WEntStat.fresh)
  /\ TridStat.seq_weight (TridStat.compute_t m TridStat.fresh)
     = WEntStat.seq_weight (WEntStat.compute m WEntStat.fresh)
  /\ length (TridStat.t_ (TridStat.compute_t m TridStat.fresh)) = ncol m.
Proof.
  intros Hnew. pose proof (Msa_new_constructed _ Hnew) as C.
  destruct (Nat.eq_dec (ncol m) 0) as [H0|H0].
  - rewrite trident_compute_no_column, wentropy_compute_no_column by exact H0.
    split; [reflexivity|]. split; [|now rewrite H0].
    unfold TridStat.compute_t, WEntStat.compute, getNcol. rewrite H0.
    rewrite !for_loop_0. reflexivity.
  - assert (Hc : 1 <= ncol m) by lia.
    rewrite (trident_t C Hc), (wentropy_compute C Hc).
    cbn [WEntStat.col_cons WEntStat.seq_weight].
    split; [reflexivity|]. split.
    + unfold TridStat.compute_t. cbn [TridStat.seq_weight TridStat.fresh].
      change TridStat.calcSeqWeight with WEntStat.calcSeqWeight.
      now rewrite seq_weight_loop.
    + now rewrite length_map, length_seq.
Qed.

Lemma trident_entropy_term_is_wentropy_witness :
  TridStat.t_ (TridStat.compute_t (model_of three_rows) TridStat.fresh)
  = WEntStat.col_cons (WEntStat.compute (model_of three_rows) WEntStat.fresh)
  /\ TridStat.seq_weight (TridStat.compute_t (model_of three_rows) TridStat.fresh)
     = WEntStat.seq_weight (WEntStat.compute (model_of three_rows) WEntStat.fresh)
  /\ length (TridStat.t_ (TridStat.compute_t (model_of three_rows) TridStat.fresh))
     = ncol (model_of three_rows).
Proof.
  apply (@trident_entropy_term_is_wentropy three_rows (model_of three_rows)).
  apply model_of_Done.
Defined.

(** ** A column that holds one symbol in every row *)

Local Open Scope R_scope.






Local Close Scope R_scope.



(** ** What the trident statistic writes *)




(** ** The residue term of the trident statistic *)

Local Open Scope R_scope.

Lemma Rsum_nth (f : R -> R) (v : list R) :
  Rsum (fun i => f (nth i v 0)) (seq 0 (length v)) = Rsum f v.
Proof.
  induction v as [|a v IH]; [reflexivity|].
  cbn [length seq Rsum fold_right nth].
  rewrite <- seq_shift. unfold Rsum in *. rewrite <- IH.
  f_equal. clear IH. generalize (seq 0 (length v)). intros l.
  induction l as [|i l IHl]; [reflexivity|].
  cbn [map fold_right nth]. now rewrite IHl.
Qed.

Lemma Rsum_seq_S (f : nat -> R) (n : nat) :
  Rsum f (seq 0 (S n)) = Rsum f (seq 0 n) + f n.
Proof.
  rewrite seq_S, Rsum_app. cbn [Nat.add]. unfold Rsum at 2.
  cbn [fold_right]. ring.
Qed.

(** [normVect] is the Euclidean norm. *)
Lemma normVect_Fin (v : list R) :
  TridStat.normVect (map Fin v) = Fin (sqrt (Rsum (fun x => x * x) v)).
Proof.
  unfold TridStat.normVect. rewrite length_map.
  rewrite (@for_loop_ext _ _ _
             (fun i score => fadd score (Fin (nth i v 0 * nth i v 0)))).
  - rewrite add_loop_Fin, Rplus_0_l.
    rewrite (Rsum_nth (fun x => x * x)).
    unfold fsqrt. destruct (Rlt_dec (Rsum (fun x => x * x) v) 0) as [Hn|Hn];
      [|reflexivity].
    exfalso. apply (Rlt_not_le _ _ Hn). apply Rsum_nonneg.
    intros x _. nra.
  - intros i s _. change (Fin 0) with (Fin 0).
    rewrite (map_nth Fin v 0 i). reflexivity.
Qed.

Local Close Scope R_scope.

Lemma update_loop_map (A : Type) (F : nat -> A -> A) (G : nat -> A) (n : nat) :
  for_loop n (fun a v => update v a (F a)) (map G (seq 0 n))
  = map (fun a => F a (G a)) (seq 0 n).
Proof.
  assert (Inv : forall a, a <= n ->
            for_loop a (fun a v => update v a (F a)) (map G (seq 0 n))
            = prefix_row (fun i => F i (G i)) G n a).
  { induction a as [|a IH]; intros Ha.
    - now rewrite for_loop_0, prefix_row_0.
    - rewrite for_loop_S, IH by lia.
      apply prefix_row_step; [lia|reflexivity]. }
  rewrite Inv by lia. apply prefix_row_full.
Qed.

Section ColumnR.

Variable sm : ScoringMatrix.
Variable type_list : str.
Variable ntype : Z.

Let n : nat := sm_alphabet_size sm.
Let k : nat := Z.to_nat ntype.

Hypothesis one_type : (1 <= ntype)%Z.
Hypothesis finite_scores :
  forall a i, a < n -> i < k ->
    finite (normScore sm (char_at (sm_alphabet sm) a) (char_at type_list i)).

Lemma score_Fin (a i : nat) :
  a < n -> i < k ->
  normScore sm (char_at (sm_alphabet sm) a) (char_at type_list i)
  = Fin (type_score sm type_list a i).
Proof.
  intros Ha Hi. destruct (finite_scores Ha Hi) as [s E].
  unfold type_score. now rewrite E.
Qed.

Lemma IZR_ntype : IZR ntype = INR k.
Proof. unfold k. rewrite INR_IZR_INZ, Z2Nat.id by lia. reflexivity. Qed.

Lemma INR_k_pos : (0 < INR k)%R.
Proof. rewrite <- IZR_ntype. apply IZR_lt. lia. Qed.

(** The sums that the first loop leaves in [mean]. *)
Lemma mean_sums (j : nat) :
  j <= k ->
  for_loop j (fun i =>
    for_loop n (fun a mean =>
      update mean a (fun v =>
        fadd v (normScore sm (char_at (sm_alphabet sm) a)
                             (char_at type_list i)))))
    (repeat (Fin 0) n)
  = map (fun a => Fin (Rsum (type_score sm type_list a) (seq 0 j))) (seq 0 n).
Proof.
  induction j as [|j IH]; intros Hj.
  - rewrite for_loop_0. now rewrite <- (map_const_repeat (Fin 0) n 0).
  - rewrite for_loop_S, IH by lia.
    rewrite update_loop_map. apply map_ext_in. intros a Ha.
    apply in_seq in Ha. rewrite score_Fin by lia.
    rewrite Rsum_seq_S. reflexivity.
Qed.

Lemma mean_values :
  for_loop n (fun a mean =>
    update mean a (fun v => fdiv v (Fin (IZR ntype))))
    (map (fun a => Fin (Rsum (type_score sm type_list a) (seq 0 k))) (seq 0 n))
  = map (fun a => Fin (mean_score sm type_list k a)) (seq 0 n).
Proof.
  rewrite update_loop_map. apply map_ext. intros a.
  rewrite fdiv_Fin.
  - unfold mean_score. now rewrite IZR_ntype.
  - rewrite IZR_ntype. pose proof INR_k_pos. lra.
Qed.

Lemma diff_vect_distance (i : nat) :
  i < k ->
  TridStat.normVect
    (for_loop n (fun a diff_vect =>
       diff_vect ++
       [fsub (nth a (map (fun a => Fin (mean_score sm type_list k a))
                       (seq 0 n)) (Fin 0))
             (normScore sm (char_at (sm_alphabet sm) a)
                           (char_at type_list i))]) [])
  = Fin (type_distance sm type_list k i).
Proof.
  intros Hi. rewrite push_back_loop, app_nil_l.
  rewrite (map_ext_in _
             (fun a => Fin (mean_score sm type_list k a
                            - type_score sm type_list a i)%R)).
  - rewrite <- (map_map (fun a => (mean_score sm type_list k a
                                   - type_score sm type_list a i)%R) Fin).
    rewrite normVect_Fin, Rsum_map. reflexivity.
  - intros a Ha. apply in_seq in Ha.
    rewrite nth_map_seq by lia. rewrite score_Fin by lia. reflexivity.
Qed.

Hypothesis one_symbol : 1 <= n.
Hypothesis finite_max : finite (sm_max sm).
Hypothesis finite_min : finite (sm_min sm).
Hypothesis spread : to_R (sm_max sm) <> to_R (sm_min sm).

Lemma matrix_spread_pos : (0 < matrix_spread sm)%R.
Proof.
  unfold matrix_spread. apply sqrt_lt_R0.
  assert (0 < INR n)%R by (apply INR_pos; lia).
  fold n. set (d := (to_R (sm_max sm) - to_R (sm_min sm))%R).
  assert (d <> 0)%R by (unfold d; lra).
  assert (0 < d * d)%R by nra.
  rewrite Rmult_assoc. now apply Rmult_lt_0_compat.
Qed.

Lemma lambda_value :
  fsqrt (fmul (fmul (of_int n) (fsub (sm_max sm) (sm_min sm)))
              (fsub (sm_max sm) (sm_min sm)))
  = Fin (matrix_spread sm).
Proof.
  destruct finite_max as [M EM]. destruct finite_min as [mn Emn].
  pose proof matrix_spread_pos as P. unfold matrix_spread in *.
  rewrite EM, Emn in *. cbn [to_R] in *.
  unfold fsub, of_int. cbn [fopp fadd fmul fsqrt]. fold n.
  match goal with
  | |- (if Rlt_dec ?a 0 then _ else _) = _ =>
      destruct (Rlt_dec a 0) as [Hn|Hn]
  end.
  - exfalso. unfold Rminus in P. fold n in P.
    rewrite sqrt_neg_0 in P by (apply Rlt_le; exact Hn). lra.
  - reflexivity.
Qed.

Lemma column_r_value (msa : Msa) (x : nat) :
  TridStat.column_types msa x = (ntype, type_list) ->
  TridStat.column_r sm msa x = Fin (residue_dissimilarity sm type_list k).
Proof.
  intros E. unfold TridStat.column_r. rewrite E.
  assert (Hnz : (ntype =? 0)%Z = false) by (apply Z.eqb_neq; lia).
  rewrite Hnz. cbn [negb]. fold n. fold k.
  rewrite mean_sums by lia. rewrite mean_values.
  rewrite lambda_value.
  rewrite (@for_loop_ext _ _ _
             (fun i tmp => fadd tmp (Fin (type_distance sm type_list k i)))).
  - rewrite add_loop_Fin, Rplus_0_l.
    rewrite fdiv_Fin by (rewrite IZR_ntype; pose proof INR_k_pos; lra).
    rewrite fdiv_Fin by (pose proof matrix_spread_pos; lra).
    unfold residue_dissimilarity. now rewrite IZR_ntype.
  - intros i tmp Hi. fold n. now rewrite diff_vect_distance.
Qed.

End ColumnR.

Lemma column_r_closed_form (sm : ScoringMatrix) (msa : Msa) (x : nat) :
  let ntype := fst (TridStat.column_types msa x) in
  let type_list := snd (TridStat.column_types msa x) in
  (1 <= ntype)%Z ->
  1 <= sm_alphabet_size sm ->
  finite (sm_max sm) -> finite (sm_min sm) ->
  to_R (sm_max sm) <> to_R (sm_min sm) ->
  (forall a i, a < sm_alphabet_size sm -> i < Z.to_nat ntype ->
     finite (normScore sm (char_at (sm_alphabet sm) a) (char_at type_list i))) ->
  TridStat.column_r sm msa x
  = Fin (residue_dissimilarity sm type_list (Z.to_nat ntype)).
Proof.
  intros ntype type_list Hk Hn HM Hm Hd Hfin.
  apply column_r_value; try assumption.
  unfold ntype, type_list. now destruct (TridStat.column_types msa x).
Qed.

(** The scores of the sample matrix are 0 and 1. *)
Lemma toy_scores (a i : nat) (type_list : str) :
  exists s,
    normScore toy_matrix (char_at (sm_alphabet toy_matrix) a)
      (char_at type_list i) = Fin s
    /\ (0 <= s <= 1)%R.
Proof.
  unfold toy_matrix. cbn [normScore sm_alphabet].
  destruct (Ascii.eqb _ _); eexists; (split; [reflexivity|lra]).
Qed.

(** [r(x)] of a column that has [k >= 1] symbol types other than ['-'],
    for a matrix of finite scores with [max <> min]: the mean over the types
    of the Euclidean distance between the score vector of a type and the mean
    score vector, divided by [sqrt(n * (max - min)^2)]. *)
Theorem column_r_formula (sm : ScoringMatrix) (msa : Msa) (x : nat) :
  let ntype := fst (TridStat.column_types msa x) in
  let type_list := snd (TridStat.column_types msa x) in
  (1 <= ntype)%Z ->
  1 <= sm_alphabet_size sm ->
  finite (sm_max sm) -> finite (sm_min sm) ->
  to_R (sm_max sm) <> to_R (sm_min sm) ->
  (forall a i, a < sm_alphabet_size sm -> i < Z.to_nat ntype ->
     finite (normScore sm (char_at (sm_alphabet sm) a) (char_at type_list i))) ->
  TridStat.column_r sm msa x
  = Fin (residue_dissimilarity sm type_list (Z.to_nat ntype)).
Proof.
  apply column_r_closed_form.
Qed.

Lemma column_r_formula_witness :
  TridStat.column_r toy_matrix (model_of with_gap) 1
  = Fin (residue_dissimilarity toy_matrix ["G"%char] 1).
Proof.
  apply (@column_r_formula toy_matrix (model_of with_gap) 1).
  - vm_compute. discriminate.
  - vm_compute. lia.
  - exists 1%R. reflexivity.
  - exists 0%R. reflexivity.
  - cbn [to_R toy_matrix sm_max sm_min]. lra.
  - intros a i _ _. destruct (toy_scores a i ["G"%char]) as [s [E _]].
    now exists s.
Defined.

Local Open Scope R_scope.

Lemma Rsum_bounds (A : Type) (f : A -> R) (l : list A) (lo hi : R) :
  (forall x, In x l -> lo <= f x <= hi) ->
  INR (length l) * lo <= Rsum f l <= INR (length l) * hi.
Proof.
  intros H. rewrite <- !Rsum_const. split; apply Rsum_le; intros x Hx;
    now apply H.
Qed.

Lemma residue_dissimilarity_range (sm : ScoringMatrix) (type_list : str)
    (k : nat) :
  (1 <= k)%nat -> (1 <= sm_alphabet_size sm)%nat ->
  to_R (sm_min sm) < to_R (sm_max sm) ->
  (forall a i, (a < sm_alphabet_size sm)%nat -> (i < k)%nat ->
     to_R (sm_min sm) <= type_score sm type_list a i <= to_R (sm_max sm)) ->
  0 <= residue_dissimilarity sm type_list k <= 1.
Proof.
  intros Hk Hn Hd Hb.
  set (M := to_R (sm_max sm)) in *. set (mn := to_R (sm_min sm)) in *.
  set (n := sm_alphabet_size sm) in *.
  assert (HK : 0 < INR k) by (apply INR_pos; lia).
  assert (HN : 0 < INR n) by (apply INR_pos; lia).
  assert (Hmean : forall a, (a < n)%nat ->
            mn <= mean_score sm type_list k a <= M).
  { intros a Ha. unfold mean_score.
    pose proof (@Rsum_bounds _ (type_score sm type_list a) (seq 0 k) mn M) as B.
    rewrite length_seq in B.
    destruct B as [B1 B2].
    { intros i Hi. apply in_seq in Hi. apply Hb; lia. }
    split.
    - apply Rmult_le_reg_r with (INR k); [exact HK|].
      unfold Rdiv. rewrite Rmult_assoc, Rinv_l by lra. lra.
    - apply Rmult_le_reg_r with (INR k); [exact HK|].
      unfold Rdiv. rewrite Rmult_assoc, Rinv_l by lra. lra. }
  assert (Hspread : matrix_spread sm = sqrt (INR n * ((M - mn) * (M - mn)))).
  { unfold matrix_spread. fold M mn n. now rewrite Rmult_assoc. }
  assert (Hpos : 0 < matrix_spread sm).
  { rewrite Hspread. apply sqrt_lt_R0. apply Rmult_lt_0_compat; nra. }
  assert (Hdist : forall i, (i < k)%nat ->
            0 <= type_distance sm type_list k i <= matrix_spread sm).
  { intros i Hi. split; [apply sqrt_pos|].
    rewrite Hspread. unfold type_distance. fold n.
    apply sqrt_le_1_alt.
    replace (INR n) with (INR (length (seq 0 n))) by now rewrite length_seq.
    rewrite <- Rsum_const. apply Rsum_le. intros a Ha. apply in_seq in Ha.
    pose proof (Hmean a ltac:(lia)) as B1.
    pose proof (Hb a i ltac:(lia) Hi) as B2. nra. }
  pose proof (@Rsum_bounds _ (type_distance sm type_list k) (seq 0 k)
                0 (matrix_spread sm)) as B.
  rewrite length_seq in B. destruct B as [B1 B2].
  { intros i Hi. apply in_seq in Hi. apply Hdist. lia. }
  unfold residue_dissimilarity.
  set (T := Rsum (type_distance sm type_list k) (seq 0 k)) in *.
  set (L := matrix_spread sm) in *.
  split.
  - apply Rmult_le_reg_r with L; [exact Hpos|].
    apply Rmult_le_reg_r with (INR k); [exact HK|].
    replace (T / INR k / L * L * INR k) with T by (field; lra). lra.
  - apply Rmult_le_reg_r with L; [exact Hpos|].
    apply Rmult_le_reg_r with (INR k); [exact HK|].
    replace (T / INR k / L * L * INR k) with T by (field; lra). lra.
Qed.

Lemma residue_dissimilarity_single (sm : ScoringMatrix) (type_list : str) :
  residue_dissimilarity sm type_list 1 = 0.
Proof.
  unfold residue_dissimilarity.
  assert (E : Rsum (type_distance sm type_list 1) (seq 0 1) = 0).
  { cbn [seq]. unfold Rsum at 1. cbn [fold_right]. rewrite Rplus_0_r.
    unfold type_distance. rewrite (Rsum_ext _ (fun _ => 0)).
    - rewrite Rsum_zero. apply sqrt_0.
    - intros a _. unfold mean_score. cbn [seq]. unfold Rsum.
      cbn [fold_right INR]. field. }
  rewrite E. unfold Rdiv. ring.
Qed.

Local Close Scope R_scope.

Lemma column_r_unit_interval (sm : ScoringMatrix) (msa : Msa) (x : nat) (M mn : R) :
  let ntype := fst (TridStat.column_types msa x) in
  let type_list := snd (TridStat.column_types msa x) in
  (0 <= ntype)%Z ->
  1 <= sm_alphabet_size sm ->
  sm_max sm = Fin M -> sm_min sm = Fin mn -> (mn < M)%R ->
  (forall a i, a < sm_alphabet_size sm -> i < Z.to_nat ntype ->
     exists s,
       normScore sm (char_at (sm_alphabet sm) a) (char_at type_list i) = Fin s
       /\ (mn <= s <= M)%R) ->
  exists v, TridStat.column_r sm msa x = Fin v /\ (0 <= v <= 1)%R.
Proof.
  intros ntype type_list Hk Hn HM Hm Hd Hs.
  destruct (Z.eq_dec ntype 0) as [H0|H0].
  - exists 1%R. split; [now apply column_r_no_type|lra].
  - exists (residue_dissimilarity sm type_list (Z.to_nat ntype)). split.
    + apply column_r_closed_form; fold ntype; fold type_list.
      * lia.
      * exact Hn.
      * now exists M.
      * now exists mn.
      * rewrite HM, Hm. cbn [to_R]. lra.
      * intros a i Ha Hi. destruct (Hs a i Ha Hi) as [s [E _]]. now exists s.
    + apply residue_dissimilarity_range.
      * lia.
      * exact Hn.
      * rewrite HM, Hm. cbn [to_R]. exact Hd.
      * intros a i Ha Hi. destruct (Hs a i Ha Hi) as [s [E B]].
        unfold type_score. rewrite E, HM, Hm. cbn [to_R]. exact B.
Qed.

(** [r(x)] lies between 0 and 1 when the scores of the matrix lie between
    its minimum and its maximum. *)
Theorem column_r_range (sm : ScoringMatrix) (msa : Msa) (x : nat) (M mn : R) :
  let ntype := fst (TridStat.column_types msa x) in
  let type_list := snd (TridStat.column_types msa x) in
  (0 <= ntype)%Z ->
  1 <= sm_alphabet_size sm ->
  sm_max sm = Fin M -> sm_min sm = Fin mn -> (mn < M)%R ->
  (forall a i, a < sm_alphabet_size sm -> i < Z.to_nat ntype ->
     exists s,
       normScore sm (char_at (sm_alphabet sm) a) (char_at type_list i) = Fin s
       /\ (mn <= s <= M)%R) ->
  exists v, TridStat.column_r sm msa x = Fin v /\ (0 <= v <= 1)%R.
Proof.
  apply column_r_unit_interval.
Qed.

Lemma column_r_range_witness :
  exists v, TridStat.column_r toy_matrix (model_of with_gap) 1 = Fin v
            /\ (0 <= v <= 1)%R.
Proof.
  apply (@column_r_range toy_matrix (model_of with_gap) 1 1%R 0%R).
  - vm_compute. discriminate.
  - vm_compute. lia.
  - reflexivity.
  - reflexivity.
  - lra.
  - intros a i _ _. apply toy_scores.
Defined.

(** A column that holds one symbol type other than ['-'] gets [r = 0]. *)
Theorem column_r_single_type (sm : ScoringMatrix) (msa : Msa) (x : nat) :
  let type_list := snd (TridStat.column_types msa x) in
  fst (TridStat.column_types msa x) = 1%Z ->
  1 <= sm_alphabet_size sm ->
  finite (sm_max sm) -> finite (sm_min sm) ->
  to_R (sm_max sm) <> to_R (sm_min sm) ->
  (forall a, a < sm_alphabet_size sm ->
     finite (normScore sm (char_at (sm_alphabet sm) a) (char_at type_list 0))) ->
  TridStat.column_r sm msa x = Fin 0.
Proof.
  intros type_list Hk Hn HM Hm Hd Hfin.
  pose proof (@column_r_closed_form sm msa x) as F. cbv zeta in F.
  rewrite Hk in F. change (Z.to_nat 1) with 1 in F.
  rewrite F; try assumption; try lia.
  - now rewrite residue_dissimilarity_single.
  - intros a i Ha Hi. replace i with 0 by lia. now apply Hfin.
Qed.

Lemma column_r_single_type_witness :
  TridStat.column_r toy_matrix (model_of with_gap) 1 = Fin 0.
Proof.
  apply (@column_r_single_type toy_matrix (model_of with_gap) 1).
  - reflexivity.
  - vm_compute. lia.
  - exists 1%R. reflexivity.
  - exists 0%R. reflexivity.
  - cbn [to_R toy_matrix sm_max sm_min]. lra.
  - intros a _. destruct (toy_scores a 0 ["G"%char]) as [s [E _]].
    now exists s.
Defined.

(** ** The Euclidean norm *)



(** ** The range of the trident score *)

Local Open Scope R_scope.


Local Close Scope R_scope.



(** ** The symbols that get the pseudo-count *)

Local Open Scope R_scope.

Lemma weighted_probability_zero (m : Msa) (x : nat) (c : ascii) :
  (1 <= ncol m)%nat ->
  (weighted_probability m x c = 0 <-> ~ In c (column m x)).
Proof.
  intros Hc. split.
  - intros E Hin. unfold column in Hin. apply in_map_iff in Hin.
    destruct Hin as [j [Ej Hj]]. apply in_seq in Hj.
    assert (Hw : 0 < henikoff_weight m j) by (apply henikoff_weight_pos; lia).
    assert (Hle : henikoff_weight m j <= weighted_probability m x c).
    { unfold weighted_probability. apply Rsum_member_le.
      - intros i Hi. apply filter_In in Hi. destruct Hi as [Hi _].
        apply in_seq in Hi. left. apply henikoff_weight_pos; lia.
      - apply filter_In. split; [apply in_seq; lia|].
        rewrite Ej. apply Ascii.eqb_refl. }
    lra.
  - intros Hn. destruct (Req_dec (weighted_probability m x c) 0) as [E|E];
      [exact E|].
    exfalso. apply Hn. now apply weighted_probability_In.
Qed.

Local Close Scope R_scope.

Lemma has_char_true (c : ascii) (s : str) : has_char c s = true <-> In c s.
Proof.
  destruct (has_char c s) eqn:E.
  - split; [intros _|reflexivity].
    unfold has_char in E. apply existsb_exists in E.
    destruct E as [d [Hd E]]. apply Ascii.eqb_eq in E. now subst d.
  - split; [discriminate|]. intros Hin. apply has_char_false in E.
    contradiction.
Qed.

Lemma same_elements_length (l1 l2 : str) :
  NoDup l1 -> NoDup l2 -> (forall c, In c l1 <-> In c l2) ->
  length l1 = length l2.
Proof.
  intros H1 H2 H. apply Nat.le_antisymm.
  - apply NoDup_incl_length; [exact H1|]. intros c Hc. now apply H.
  - apply NoDup_incl_length; [exact H2|]. intros c Hc. now apply H.
Qed.

Lemma present_count (alph col : str) :
  NoDup alph -> (forall c, In c col -> In c alph) ->
  length (filter (fun c => has_char c col) alph) = distinct_symbols col.
Proof.
  intros Hnd Hincl. unfold distinct_symbols.
  apply same_elements_length.
  - now apply NoDup_filter.
  - apply NoDup_nodup.
  - intros c. rewrite filter_In, nodup_In, has_char_true. split.
    + now intros [_ H].
    + intros H. split; [now apply Hincl|exact H].
Qed.

Lemma filter_positions_length (s : str) (t : ascii -> bool) :
  length (filter (fun i => t (char_at s i)) (seq 0 (length s)))
  = length (filter t s).
Proof.
  pose proof (@filter_map_comm nat ascii t (char_at s) (seq 0 (length s))) as E.
  rewrite <- str_as_map in E. rewrite E, length_map. reflexivity.
Qed.

Lemma absent_count_types (m : Msa) (x : nat) :
  constructed m -> 1 <= ncol m -> x < ncol m ->
  absent_count (fun a => weighted_probability m x (char_at (alphabet m) a))
    (length (alphabet m))
  = length (alphabet m) - getNtype m x.
Proof.
  intros C Hc Hx. unfold absent_count.
  rewrite (filter_ext_in _
             (fun a => negb (has_char (char_at (alphabet m) a) (column m x)))).
  - rewrite (filter_positions_length (alphabet m)
               (fun c => negb (has_char c (column m x)))).
    pose proof (count_split (fun c => has_char c (column m x)) (alphabet m)) as S.
    rewrite present_count in S.
    + rewrite (constructed_getNtype C Hx). lia.
    + now apply constructed_alphabet_NoDup.
    + intros c Hin. apply (constructed_alphabet_In c C).
      unfold cells. apply in_flat_map. exists x. split; [|exact Hin].
      apply in_seq. lia.
  - intros a _. set (c := char_at (alphabet m) a).
    destruct (has_char c (column m x)) eqn:E; cbn [negb].
    + apply has_char_true in E. apply feqb_Fin_false.
      intros Z. now apply (weighted_probability_zero m x c Hc) in Z.
    + apply has_char_false in E. apply feqb_Fin_true.
      now apply (weighted_probability_zero m x c Hc).
Qed.

(** In the Jensen-Shannon statistic the pseudo-count goes to the symbols of
    the alphabet that do not occur in the column, and to them only: with [K]
    symbols in the alphabet and [k] symbol types in the column, the entry of
    a symbol of the column is its weighted probability minus
    [(K - k) * 1e-6 / k]. *)
Theorem jensen_pseudo_count_positions (text : str) (m : Msa) (x a : nat) :
  Msa_new (Some text) = Done m ->
  1 <= nseq m -> x < ncol m -> a < length (alphabet m) ->
  let c := char_at (alphabet m) a in
  let K := length (alphabet m) in
  let k := getNtype m x in
  nth a (nth x (JensenStat.proba (JensenStat.compute m JensenStat.fresh)) [])
    (Fin 0)
  = if has_char c (getCol m x)
    then Fin (weighted_probability m x c
              - INR (K - k) * / 1000000 / INR k)%R
    else Fin (/ 1000000).
Proof.
  intros Hnew Hs Hx Ha c K k.
  pose proof (Msa_new_constructed _ Hnew) as C.
  assert (Hc : 1 <= ncol m) by lia.
  set (p := fun a => weighted_probability m x (char_at (alphabet m) a)).
  assert (Hp : forall i, p i <> 0%R -> (/ 1000000 < p i)%R).
  { intros i Hi. apply weighted_probability_above_pseudo; auto.
    split; [exact Hs|apply (built_nseq C)]. }
  assert (Hsum : Rsum p (seq 0 K) = 1%R).
  { pose proof (@Rsum_positions (alphabet m) (weighted_probability m x)
                  (fun _ => true)) as E.
    rewrite !filter_true in E. unfold p, K. rewrite E.
    now apply weighted_probabilities_sum. }
  rewrite jensen_proba by assumption. rewrite nth_map_seq by exact Hx.
  rewrite nth_map_seq by exact Ha.
  rewrite adjusted_entry_value;
    [|exact Hp|now apply absent_count_lt].
  fold p. fold K.
  assert (Hk : k <= K).
  { unfold k, K. rewrite (constructed_getNtype C Hx).
    rewrite <- first_occurrences_length.
    apply NoDup_incl_length; [apply first_occurrences_NoDup|].
    intros d Hd. rewrite first_occurrences_In in Hd.
    apply (constructed_alphabet_In d C).
    unfold cells. apply in_flat_map. exists x. split; [|exact Hd].
    apply in_seq. lia. }
  assert (Eabs : absent_count p K = K - k)
    by (unfold p, K, k; now apply absent_count_types).
  rewrite Eabs. replace (K - (K - k)) with k by lia.
  rewrite getCol_column. fold c.
  destruct (has_char c (column m x)) eqn:E.
  - apply has_char_true in E. rewrite is_zero_false; [reflexivity|].
    intros Z. now apply (weighted_probability_zero m x c Hc) in Z.
  - apply has_char_false in E. rewrite is_zero_true; [reflexivity|].
    now apply (weighted_probability_zero m x c Hc).
Qed.

Lemma jensen_pseudo_count_positions_witness :
  nth 2 (nth 2 (JensenStat.proba
                  (JensenStat.compute (model_of three_rows) JensenStat.fresh))
          []) (Fin 0)
  = Fin (/ 1000000).
Proof.
  pose proof (@jensen_pseudo_count_positions three_rows (model_of three_rows)
                2 2) as H.
  cbv zeta in H. rewrite H.
  - reflexivity.
  - apply model_of_Done.
  - vm_compute. lia.
  - vm_compute. lia.
  - vm_compute. lia.
Defined.

(** ** A text without header line *)

Lemma read_loop_no_header_tmp (ls : list str) (st : reader) :
  existsb is_header ls = false ->
  length (rd_seq st) < nb_seq_limits ->
  read_loop ls st
  = mkReader (rd_name st) (rd_seq st) (tmp_seq st ++ concat ls).
Proof.
  revert st. induction ls as [|l ls IH]; intros st H Hs.
  - simpl. rewrite app_nil_r. now destruct st.
  - cbn [existsb] in H. apply orb_false_elim in H. destruct H as [Hl Hls].
    cbn [read_loop].
    apply Nat.ltb_lt in Hs. rewrite Hs. apply Nat.ltb_lt in Hs.
    unfold read_line at 1. rewrite Hl.
    rewrite IH by (cbn [rd_seq]; assumption).
    cbn [rd_name rd_seq tmp_seq concat]. now rewrite app_assoc.
Qed.

Lemma read_file_headerless (text : str) :
  existsb is_header (getlines text) = false ->
  read_file text
  = mkReader [] [concat (getlines text)] (concat (getlines text)).
Proof.
  intros H. unfold read_file.
  rewrite read_loop_no_header_tmp by (try assumption; simpl; unfold nb_seq_limits; lia).
  reflexivity.
Qed.

Lemma cells_no_row (m : Msa) : nseq m = 0 -> cells m = [].
Proof.
  intros H. unfold cells, column. rewrite H. cbn [seq map].
  induction (seq 0 (ncol m)) as [|c l IH]; [reflexivity|exact IH].
Qed.

Lemma column_no_row (m : Msa) (col : nat) : nseq m = 0 -> column m col = [].
Proof. intros H. unfold column. now rewrite H. Qed.

(** A text without header line: the constructor returns a model without
    name and without row, whose only sequence is the text without its
    newlines, not changed to upper case, with one column per character, an
    empty alphabet, no frequency, and for every column a gap count of 0 and
    no symbol type. *)
Theorem headerless_text_gives_empty_model (text : str) :
  existsb is_header (getlines text) = false ->
  exists m,
    Msa_new (Some text) = Done m
    /\ mali_name m = [] /\ nseq m = 0
    /\ mali_seq m = [concat (getlines text)]
    /\ ncol m = length (concat (getlines text))
    /\ alphabet m = [] /\ aa_freq m = []
    /\ forall col, col < ncol m ->
         getGap m col = 0 /\ getNtype m col = 0 /\ getTypeList m col = [].
Proof.
  intros H. destruct (Msa_new_returns text) as [m Hnew]. exists m.
  pose proof (Msa_new_constructed _ Hnew) as C.
  destruct (Msa_new_matrix _ Hnew) as [H1 [H2 [H3 H4]]].
  rewrite (read_file_headerless _ H) in H1, H2, H3, H4.
  cbn [rd_name rd_seq length nth] in H1, H2, H3, H4.
  assert (Hcells : cells m = []) by now apply cells_no_row.
  assert (Halph : alphabet m = []) by (rewrite (built_alphabet C), Hcells; reflexivity).
  split; [exact Hnew|]. split; [exact H1|]. split; [exact H3|].
  split; [exact H2|]. split; [exact H4|]. split; [exact Halph|]. split.
  - rewrite (built_freq C), Halph, Hcells. reflexivity.
  - intros col Hcol. split; [|split].
    + rewrite (constructed_getGap C Hcol), column_no_row by exact H3.
      reflexivity.
    + rewrite (constructed_getNtype C Hcol), column_no_row by exact H3.
      reflexivity.
    + rewrite (constructed_getTypeList C Hcol), column_no_row by exact H3.
      reflexivity.
Qed.

Lemma headerless_text_gives_empty_model_witness :
  exists m,
    Msa_new (Some no_header) = Done m
    /\ mali_name m = [] /\ nseq m = 0
    /\ mali_seq m = [concat (getlines no_header)]
    /\ ncol m = length (concat (getlines no_header))
    /\ alphabet m = [] /\ aa_freq m = []
    /\ forall col, col < ncol m ->
         getGap m col = 0 /\ getNtype m col = 0 /\ getTypeList m col = [].
Proof.
  apply (@headerless_text_gives_empty_model no_header). reflexivity.
Defined.

(** ** The weighted entropy of an alignment with fewer than two rows or
    symbols *)





(** ** The type list without its gap symbol *)

Lemma find_split (s : str) (c : ascii) (pos : nat) :
  find s c = Some pos ->
  s = firstn pos s ++ c :: skipn (S pos) s /\ ~ In c (firstn pos s).
Proof.
  revert pos. induction s as [|d s IH]; intros pos H; [discriminate|].
  cbn [find] in H. destruct (Ascii.eqb d c) eqn:E.
  - apply Ascii.eqb_eq in E. subst d. injection H as <-.
    cbn [firstn skipn app]. split; [reflexivity|intros []].
  - destruct (find s c) as [i|] eqn:F; [|discriminate].
    injection H as <-. destruct (IH i eq_refl) as [E1 E2].
    cbn [firstn skipn app]. split.
    + f_equal. exact E1.
    + intros [Hd|Hin]; [|now apply E2].
      subst d. now rewrite Ascii.eqb_refl in E.
Qed.

(** For a model whose type list of column [x] holds no symbol twice and
    whose type count is the length of that list (as in every model that the
    constructor returns), the type list that the trident statistic uses holds
    the symbols of the column other than ['-'], each once, and [ntype] is
    their number. *)
Theorem column_types_without_gap (msa : Msa) (x : nat) :
  NoDup (getTypeList msa x) ->
  getNtype msa x = length (getTypeList msa x) ->
  let ntype := fst (TridStat.column_types msa x) in
  let type_list := snd (TridStat.column_types msa x) in
  ntype = Z.of_nat (length type_list)
  /\ NoDup type_list
  /\ forall c, In c type_list <-> In c (getTypeList msa x) /\ c <> gap_dash.
Proof.
  intros Hnd Hlen. unfold TridStat.column_types.
  destruct (find (getTypeList msa x) gap_dash) as [pos|] eqn:F.
  - destruct (find_split _ _ F) as [E Hpre].
    cbn [fst snd]. unfold TridStat.erase_at.
    set (pre := firstn pos (getTypeList msa x)) in *.
    set (post := skipn (S pos) (getTypeList msa x)) in *.
    rewrite E in Hnd. pose proof (NoDup_remove _ _ _ Hnd) as [Hnd' Hnot].
    split; [|split].
    + rewrite Hlen. rewrite E at 1. rewrite !length_app. cbn [length]. lia.
    + exact Hnd'.
    + intros c. rewrite E. split.
      * intros Hin. split.
        -- apply in_app_or in Hin. apply in_or_app.
           destruct Hin; [now left|right; now right].
        -- intros ->. contradiction.
      * intros [Hin Hc]. apply in_app_or in Hin. apply in_or_app.
        destruct Hin as [Hin|[Hin|Hin]]; [now left|congruence|now right].
  - cbn [fst snd]. split; [now rewrite Hlen|]. split; [exact Hnd|].
    intros c. split.
    + intros Hin. split; [exact Hin|]. intros ->.
      apply find_None in F. contradiction.
    + now intros [Hin _].
Qed.

Lemma column_types_without_gap_witness :
  fst (TridStat.column_types (model_of with_gap) 1)
  = Z.of_nat (length (snd (TridStat.column_types (model_of with_gap) 1)))
  /\ NoDup (snd (TridStat.column_types (model_of with_gap) 1))
  /\ forall c, In c (snd (TridStat.column_types (model_of with_gap) 1)) <->
       In c (getTypeList (model_of with_gap) 1) /\ c <> gap_dash.
Proof.
  apply (@column_types_without_gap (model_of with_gap) 1).
  - change (getTypeList (model_of with_gap) 1) with ["-"%char; "G"%char].
    repeat constructor; simpl; intuition discriminate.
  - reflexivity.
Defined.

(** ** The weighted probabilities of a column *)



(** ** A second run on the same object *)


Local Open Scope R_scope.


Local Close Scope R_scope.


Section SecondRun.

Variable m : Msa.
Hypothesis built : constructed m.
Hypothesis one_column : 1 <= ncol m.

Let K : nat := length (alphabet m).
Let sw : list float := map (WEntStat.calcSeqWeight m) (seq 0 (nseq m)).
Let p (x a : nat) : R := weighted_probability m x (char_at (alphabet m) a).
Let zero_row : list float := repeat (Fin 0) K.
Let full_row (x : nat) : list float := map (fun a => Fin (p x a)) (seq 0 K).





End SecondRun.

Local Open Scope R_scope.


Local Close Scope R_scope.


